(** * A2G protocol SDKs: identity signer, DID factory and client correlator

    A shallow embedding of the TypeScript sources

      - [typescript/did-sdk/src/signer.ts]      (module [Signer])
      - [typescript/did-sdk/dist/src/signer.js] (module [SignerDist], the
        compiled build shipped next to the source)
      - [typescript/did-sdk/src/did.ts]         (module [AeonDID])
      - [typescript/a2g-sdk/src/client.ts]      (module [A2gClient])
      - the compiled [client.js] of the a2g-sdk (module [A2gClientDist])

    together with the parts of the JavaScript runtime those files call:
    [JSON.stringify], [Object.keys], [Array.prototype.sort], [parseInt],
    [Number.prototype.toString] and node's [createHmac("sha256", key)]. *)

From Stdlib Require Import ZArith List String Ascii Bool Lia Permutation Sorted.
From Stdlib Require Import QArith Lqa.
From Stdlib Require Import DecimalString DecimalPos.
Import ListNotations.

#[local] Set Warnings "-register-all".

Local Open Scope string_scope.
Local Open Scope Z_scope.

(* ================================================================== *)
(** * node:crypto - HMAC-SHA256 over byte strings                      *)
(* ================================================================== *)

Module Crypto.

Local Open Scope list_scope.

(** 32-bit words are [Z] in [0, 2^32); every sum is reduced explicitly. *)
Definition w32 (x : Z) : Z := x mod 4294967296.

Definition add32 (x y : Z) : Z := w32 (x + y).

Definition rotr (n x : Z) : Z :=
  Z.lor (Z.shiftr x n) (w32 (Z.shiftl x (32 - n))).

Definition Ch (x y z : Z) : Z :=
  Z.lxor (Z.land x y) (Z.land (Z.lxor x 4294967295) z).

Definition Maj (x y z : Z) : Z :=
  Z.lxor (Z.lxor (Z.land x y) (Z.land x z)) (Z.land y z).

Definition Sigma0 x := Z.lxor (Z.lxor (rotr 2 x) (rotr 13 x)) (rotr 22 x).
Definition Sigma1 x := Z.lxor (Z.lxor (rotr 6 x) (rotr 11 x)) (rotr 25 x).
Definition sigma0 x := Z.lxor (Z.lxor (rotr 7 x) (rotr 18 x)) (Z.shiftr x 3).
Definition sigma1 x := Z.lxor (Z.lxor (rotr 17 x) (rotr 19 x)) (Z.shiftr x 10).

(** The value of a hexadecimal digit (0 for any other character). *)
Definition hex_value (c : ascii) : Z :=
  let n := Z.of_N (N_of_ascii c) in
  if (48 <=? n) && (n <=? 57) then n - 48
  else if (97 <=? n) && (n <=? 102) then n - 87
  else 0.

(** Words written in hexadecimal, separated by single spaces. *)
Fixpoint hex_words_from (s : string) (current : Z) : list Z :=
  match s with
  | EmptyString => [current]
  | String c rest =>
      if (Z.of_N (N_of_ascii c) =? 32) then current :: hex_words_from rest 0
      else hex_words_from rest (16 * current + hex_value c)
  end.

Definition hex_words (s : string) : list Z := hex_words_from s 0.

(** FIPS 180-4, 4.2.2: the sixty-four round constants. *)
Definition K256 : list Z :=
  hex_words
    ("428a2f98 71374491 b5c0fbcf e9b5dba5 3956c25b 59f111f1 923f82a4 ab1c5ed5 "
     ++ "d807aa98 12835b01 243185be 550c7dc3 72be5d74 80deb1fe 9bdc06a7 c19bf174 "
     ++ "e49b69c1 efbe4786 0fc19dc6 240ca1cc 2de92c6f 4a7484aa 5cb0a9dc 76f988da "
     ++ "983e5152 a831c66d b00327c8 bf597fc7 c6e00bf3 d5a79147 06ca6351 14292967 "
     ++ "27b70a85 2e1b2138 4d2c6dfc 53380d13 650a7354 766a0abb 81c2c92e 92722c85 "
     ++ "a2bfe8a1 a81a664b c24b8b70 c76c51a3 d192e819 d6990624 f40e3585 106aa070 "
     ++ "19a4c116 1e376c08 2748774c 34b0bcb5 391c0cb3 4ed8aa4a 5b9cca4f 682e6ff3 "
     ++ "748f82ee 78a5636f 84c87814 8cc70208 90befffa a4506ceb bef9a3f7 c67178f2")%string.

(** FIPS 180-4, 5.3.3: the initial hash value. *)
Definition IV256 : list Z :=
  hex_words
    "6a09e667 bb67ae85 3c6ef372 a54ff53a 510e527f 9b05688c 1f83d9ab 5be0cd19".

(** Big-endian packing of bytes into words and back. *)
Fixpoint words_of_bytes (bs : list Z) : list Z :=
  match bs with
  | b0 :: b1 :: b2 :: b3 :: rest =>
      (Z.shiftl b0 24 + Z.shiftl b1 16 + Z.shiftl b2 8 + b3)
        :: words_of_bytes rest
  | _ => []
  end.

Definition bytes_of_word (x : Z) : list Z :=
  [ Z.shiftr x 24 mod 256; Z.shiftr x 16 mod 256;
    Z.shiftr x 8 mod 256; x mod 256 ].

(** Message schedule. [recent] holds W[t-1], W[t-2], ... (newest first). *)
Fixpoint extend_schedule (n : nat) (recent : list Z) : list Z :=
  match n with
  | O => recent
  | S n' =>
      let wt := add32 (add32 (sigma1 (nth 1 recent 0)) (nth 6 recent 0))
                      (add32 (sigma0 (nth 14 recent 0)) (nth 15 recent 0)) in
      extend_schedule n' (wt :: recent)
  end.

Definition schedule (block : list Z) : list Z :=
  rev (extend_schedule 48 (rev block)).

Definition round (st : list Z) (kw : Z * Z) : list Z :=
  match st with
  | [a; b; c; d; e; f; g; h] =>
      let t1 := add32 (add32 (add32 h (Sigma1 e)) (Ch e f g))
                      (add32 (fst kw) (snd kw)) in
      let t2 := add32 (Sigma0 a) (Maj a b c) in
      [add32 t1 t2; a; b; c; add32 d t1; e; f; g]
  | _ => st
  end.

Definition compress (h : list Z) (block : list Z) : list Z :=
  map (fun p => add32 (fst p) (snd p))
      (combine h (fold_left round (combine K256 (schedule block)) h)).

Fixpoint chunks16 (fuel : nat) (ws : list Z) : list (list Z) :=
  match fuel, ws with
  | S fuel', _ :: _ => firstn 16 ws :: chunks16 fuel' (skipn 16 ws)
  | _, _ => []
  end.

(** FIPS 180-4 padding: 0x80, zeros up to 56 mod 64, 64-bit bit length. *)
Definition pad (msg : list Z) : list Z :=
  let len := Z.of_nat (List.length msg) in
  let zeros := Z.to_nat ((55 - len) mod 64) in
  let bits := len * 8 in
  msg ++ [128] ++ repeat 0 zeros
      ++ bytes_of_word (Z.shiftr bits 32 mod 4294967296)
      ++ bytes_of_word (bits mod 4294967296).

Definition sha256 (msg : list Z) : list Z :=
  let ws := words_of_bytes (pad msg) in
  flat_map bytes_of_word
           (fold_left compress (chunks16 (List.length ws) ws) IV256).

Definition hmac_sha256 (key msg : list Z) : list Z :=
  let k0 := if (64 <? Z.of_nat (List.length key)) then sha256 key else key in
  let k := k0 ++ repeat 0 (64 - List.length k0)%nat in
  let ipad := map (Z.lxor 0x36) k in
  let opad := map (Z.lxor 0x5c) k in
  sha256 (opad ++ sha256 (ipad ++ msg)).

(** [Buffer.from(s, "utf8")] for a string whose code units are below 256:
    one byte below 128, two bytes from 128 on. *)
Fixpoint utf8 (s : string) : list Z :=
  match s with
  | EmptyString => []
  | String c rest =>
      let u := Z.of_N (N_of_ascii c) in
      if u <? 128 then u :: utf8 rest
      else Z.lor 192 (Z.shiftr u 6) :: Z.lor 128 (Z.land u 63) :: utf8 rest
  end.

Definition hex_digit (n : Z) : ascii :=
  ascii_of_N (Z.to_N (if n <? 10 then 48 + n else 87 + n)).

(** [digest("hex")]: two lower-case hexadecimal digits per byte. *)
Fixpoint hex (bs : list Z) : string :=
  match bs with
  | [] => EmptyString
  | b :: rest =>
      String (hex_digit (Z.shiftr b 4)) (String (hex_digit (Z.land b 15)) (hex rest))
  end.

(** [createHmac("sha256", key).update(data).digest("hex")]. *)
Definition createHmac_sha256_hex (key data : string) : string :=
  hex (hmac_sha256 (utf8 key) (utf8 data)).

End Crypto.

(* ================================================================== *)
(** * The JavaScript runtime the SDKs rely on                          *)
(* ================================================================== *)

Module JS.

(** JSON-shaped JavaScript values. Strings are sequences of code units
    below 256; numbers are the integers [Number.prototype.toString]
    prints in plain decimal; an object is the list of its own enumerable
    string-keyed properties in [OrdinaryOwnPropertyKeys] order. *)
Inductive value : Type :=
| VUndefined
| VNull
| VBool (b : bool)
| VNum (n : Z)
| VStr (s : string)
| VArr (items : list value)
| VObj (props : list (string * value)).

Definition dquote : ascii := ascii_of_nat 34.
Definition backslash : ascii := ascii_of_nat 92.

Definition code (c : ascii) : Z := Z.of_N (N_of_ascii c).

(** ** Numbers and strings *)

(** [String(n)], [n.toString()], and the [${n}] of a template literal. *)
Definition Number_toString (n : Z) : string :=
  NilZero.string_of_int (Z.to_int n).

Definition is_StrWhiteSpaceChar (c : ascii) : bool :=
  let n := code c in
  (n =? 9) || (n =? 10) || (n =? 11) || (n =? 12) || (n =? 13)
  || (n =? 32) || (n =? 160).

Fixpoint trim_start (s : string) : string :=
  match s with
  | String c rest => if is_StrWhiteSpaceChar c then trim_start rest else s
  | EmptyString => s
  end.

(** The longest prefix of decimal digits, as a [Decimal.uint]. *)
Fixpoint digits_prefix (s : string) : Decimal.uint :=
  match s with
  | EmptyString => Decimal.Nil
  | String c rest =>
      match DecimalString.uint_of_char c (Some (digits_prefix rest)) with
      | Some d => d
      | None => Decimal.Nil
      end
  end.

(** [parseInt(s, 10)]; [None] is [NaN]. The value is the integer the
    digits denote: the binary64 the runtime returns is that integer up
    to magnitude [2^53] and its rounding beyond. *)
Definition parseInt (s : string) : option Z :=
  let s1 := trim_start s in
  let '(negative, s2) :=
    match s1 with
    | String "-" rest => (true, rest)
    | String "+" rest => (false, rest)
    | _ => (false, s1)
    end in
  match digits_prefix s2 with
  | Decimal.Nil => None
  | d => Some (if negative then - Z.of_uint d else Z.of_uint d)
  end.

(** [x - y > z] where [y] may be [NaN]: every comparison with [NaN] is
    false. *)
Definition minus_gt (x : Z) (y : option Z) (z : Z) : bool :=
  match y with
  | Some y' => x - y' >? z
  | None => false
  end.

(** [a || b] on an optional string: [undefined] and the empty string are
    falsy. *)
Definition or_string (a : option string) (b : string) : string :=
  match a with
  | Some s => if (s =? EmptyString)%string then b else s
  | None => b
  end.

(** [a || b] on an optional number: [undefined] and [0] are falsy. *)
Definition or_number (a : option Z) (b : Z) : Z :=
  match a with
  | Some n => if n =? 0 then b else n
  | None => b
  end.

(** Truthiness of an optional string ([if (this.config.signingKey)]). *)
Definition truthy_string (a : option string) : bool :=
  match a with
  | Some s => negb (s =? EmptyString)%string
  | None => false
  end.

(** ** Arrays of strings: [Array.prototype.sort()] with the default
    comparator orders strings by code units. *)
Fixpoint insert_sorted (x : string) (l : list string) : list string :=
  match l with
  | [] => [x]
  | y :: l' => if String.leb x y then x :: l else y :: insert_sorted x l'
  end.

Definition Array_sort (l : list string) : list string :=
  fold_right insert_sorted [] l.

(** ** Objects *)

Fixpoint get {A : Type} (k : string) (props : list (string * A)) : option A :=
  match props with
  | [] => None
  | (k', v) :: rest => if (k' =? k)%string then Some v else get k rest
  end.

(** [record[key]]. *)
Definition Get (props : list (string * value)) (k : string) : value :=
  match get k props with
  | Some v => v
  | None => VUndefined
  end.

(** [Object.keys(v)] for arrays and plain objects. *)
Definition Object_keys (v : value) : list string :=
  match v with
  | VObj props => map fst props
  | VArr items =>
      map (fun i => Number_toString (Z.of_nat i)) (seq 0 (List.length items))
  | _ => []
  end.

(** An array index is a canonical numeric string below 2^32 - 1; such
    keys come first, in ascending order, when an object's own keys are
    listed. *)
Definition array_index (k : string) : option Z :=
  let n := Z.of_uint (digits_prefix k) in
  if (Number_toString n =? k)%string && (n <? 4294967295) then Some n else None.

Fixpoint replace_prop (k : string) (v : value) (props : list (string * value))
  : list (string * value) :=
  match props with
  | [] => []
  | (k', v') :: rest =>
      if (k' =? k)%string then (k', v) :: rest
      else (k', v') :: replace_prop k v rest
  end.

Fixpoint insert_index (i : Z) (k : string) (v : value)
  (props : list (string * value)) : list (string * value) :=
  match props with
  | [] => [(k, v)]
  | (k', v') :: rest =>
      match array_index k' with
      | Some j => if j <? i then (k', v') :: insert_index i k v rest
                  else (k, v) :: props
      | None => (k, v) :: props
      end
  end.

(** [CreateDataProperty(o, k, v)]: what an object literal, a spread and
    [JSON.parse] do for each property. *)
Definition define_property (props : list (string * value)) (k : string) (v : value)
  : list (string * value) :=
  match get k props with
  | Some _ => replace_prop k v props
  | None =>
      match array_index k with
      | Some i => insert_index i k v props
      | None => (props ++ [(k, v)])%list
      end
  end.

(** [o[k] = v] on an object made by an object literal: the key
    [__proto__] reaches the setter of [Object.prototype] and creates no
    own property. *)
Definition assign (props : list (string * value)) (k : string) (v : value)
  : list (string * value) :=
  if (k =? "__proto__")%string then props else define_property props k v.

(** ** JSON.stringify *)

Definition hex_char (n : Z) : ascii := Crypto.hex_digit n.

(** One code unit inside [QuoteJSONString]. *)
Definition quote_char (c : ascii) : string :=
  let n := code c in
  if n =? 8 then String backslash "b"
  else if n =? 9 then String backslash "t"
  else if n =? 10 then String backslash "n"
  else if n =? 12 then String backslash "f"
  else if n =? 13 then String backslash "r"
  else if n =? 34 then String backslash (String dquote EmptyString)
  else if n =? 92 then String backslash (String backslash EmptyString)
  else if n <? 32 then
    String backslash
      ("u00" ++ String (hex_char (Z.shiftr n 4))
                       (String (hex_char (Z.land n 15)) EmptyString))
  else String c EmptyString.

Fixpoint quote_chars (s : string) : string :=
  match s with
  | EmptyString => EmptyString
  | String c rest => quote_char c ++ quote_chars rest
  end.

Definition QuoteJSONString (s : string) : string :=
  String dquote (quote_chars s ++ String dquote EmptyString).

(** The property list built from a replacer array: its strings, each
    once, in order of first appearance. *)
Definition property_list (replacer : list string) : list string :=
  fold_left (fun acc k => if existsb (String.eqb k) acc then acc else (acc ++ [k])%list)
            replacer [].

(** A listed key that is not an own property is read through the
    prototype chain. On a plain object that finds a method (not
    serializable, hence skipped) except for [__proto__], whose getter
    returns [Object.prototype]; serialized under the same list that
    object shows its own [__proto__], which reads [null]. *)
Definition inherited_member (P : string) : list string :=
  if (P =? "__proto__")%string then
    [QuoteJSONString P ++ ":{" ++ QuoteJSONString P ++ ":null}"]
  else [].

(** [SerializeJSONProperty] on the value already read from its holder;
    [None] is [undefined]. [pl] is the state's PropertyList. *)
Fixpoint SerializeJSONProperty (pl : option (list string)) (v : value)
  : option string :=
  match v with
  | VUndefined => None
  | VNull => Some "null"
  | VBool b => Some (if b then "true" else "false")
  | VNum n => Some (Number_toString n)
  | VStr s => Some (QuoteJSONString s)
  | VArr items =>
      let parts :=
        map (fun x => match SerializeJSONProperty pl x with
                      | Some s => s
                      | None => "null"
                      end) items in
      Some ("[" ++ String.concat "," parts ++ "]")
  | VObj props =>
      let serialized :=
        map (fun kv => (fst kv, SerializeJSONProperty pl (snd kv))) props in
      let K := match pl with
               | Some l => l
               | None => map fst props
               end in
      let members :=
        flat_map (fun P => match get P serialized with
                           | Some (Some s) => [QuoteJSONString P ++ ":" ++ s]
                           | Some None => []
                           | None => inherited_member P
                           end) K in
      Some ("{" ++ String.concat "," members ++ "}")
  end.

(** [JSON.stringify(v)] and [JSON.stringify(v, replacerArray)]. *)
Definition JSON_stringify (v : value) (replacer : option (list string))
  : option string :=
  SerializeJSONProperty (option_map property_list replacer) v.

(** A value inside a template literal. *)
Definition template (s : option string) : string :=
  match s with
  | Some s' => s'
  | None => "undefined"
  end.

End JS.

Import JS.

(* ================================================================== *)
(** * did-sdk: types.ts                                                *)
(* ================================================================== *)

(** [interface Signature]. *)
Record Signature : Type := mkSignature {
  timestamp : string;
  nonce : string;
  hash : string
}.

(** [interface SignOptions]: both fields are optional. *)
Record SignOptions : Type := mkSignOptions {
  opt_timestamp : option string;
  opt_nonce : option string
}.

(** A [message: string | object] argument. *)
Inductive message : Type :=
| MsgString (s : string)
| MsgObject (props : list (string * value))
| MsgArray (items : list value).

Definition message_value (m : message) : value :=
  match m with
  | MsgString s => VStr s
  | MsgObject props => VObj props
  | MsgArray items => VArr items
  end.

(** What the two impure calls of [sign] return when they are reached:
    [Date.now()] and [uuidv4()]. *)
Record Env : Type := mkEnv {
  Date_now : Z;
  uuidv4 : string
}.

(** [interface AeonDIDDocument] (the metadata record is kept opaque). *)
Record AeonDIDDocument : Type := mkDocument {
  did : string;
  name : string;
  signingKey : string;
  createdAt : Z;
  metadata : option value
}.

(** [interface CreateDIDOptions]. *)
Record CreateDIDOptions : Type := mkCreateOptions {
  opt_signingKey : option string;
  opt_metadata : option value
}.

(* ================================================================== *)
(** * did-sdk: the parts of class Signer shared by source and build     *)
(* ================================================================== *)

Module SignerCore.

Section WithCanonicalForm.

(** [this.stableStringify], the one method on which [src/signer.ts] and
    [dist/src/signer.js] differ. *)
Variable stableStringify : value -> option string.

(** [typeof message === "object" ? this.stableStringify(message) : message],
    as it is spliced into the payload template. *)
Definition messageStr (m : message) : string :=
  match m with
  | MsgString s => s
  | MsgObject _ | MsgArray _ => template (stableStringify (message_value m))
  end.

(** [static sign(signingKey, message, options?)]. *)
Definition sign (signingKey : string) (m : message)
  (options : option SignOptions) (env : Env) : Signature :=
  let timestamp :=
    or_string (match options with Some o => opt_timestamp o | None => None end)
              (Number_toString (Date_now env)) in
  let nonce :=
    or_string (match options with Some o => opt_nonce o | None => None end)
              (uuidv4 env) in
  let payload := timestamp ++ ":" ++ nonce ++ ":" ++ messageStr m in
  let hash := Crypto.createHmac_sha256_hex signingKey payload in
  mkSignature timestamp nonce hash.

(** The loop of [constantTimeEqual]: [result |= a.charCodeAt(i) ^
    b.charCodeAt(i)] over the common length. *)
Fixpoint xor_accumulate (a b : string) (result : Z) : Z :=
  match a, b with
  | String x a', String y b' =>
      xor_accumulate a' b' (Z.lor result (Z.lxor (code x) (code y)))
  | _, _ => result
  end.

(** [private static constantTimeEqual(a, b)]. *)
Definition constantTimeEqual (a b : string) : bool :=
  if negb (String.length a =? String.length b)%nat then false
  else xor_accumulate a b 0 =? 0.

(** [static verify(signingKey, signature, message, maxAgeMs = 5 * 60 * 1000)].
    [now] is the reading of [Date.now()] on entry; [env] is what the
    nested [sign] would read if it fell back to fresh values. *)
Definition verify (signingKey : string) (signature : Signature) (m : message)
  (maxAgeMs : option Z) (now : Z) (env : Env) : bool :=
  let maxAgeMs := match maxAgeMs with Some n => n | None => 5 * 60 * 1000 end in
  let signedAt := parseInt (timestamp signature) in
  if minus_gt now signedAt maxAgeMs then false
  else
    let expected :=
      sign signingKey m
           (Some (mkSignOptions (Some (timestamp signature))
                                (Some (nonce signature)))) env in
    constantTimeEqual (hash signature) (hash expected).

(** [static hash(signingKey, message)]. *)
Definition hash_message (signingKey : string) (m : message) : string :=
  Crypto.createHmac_sha256_hex signingKey (messageStr m).

End WithCanonicalForm.

End SignerCore.

(* ================================================================== *)
(** * did-sdk/src/signer.ts                                            *)
(* ================================================================== *)

Module Signer.

(** [JSON.stringify(obj, Object.keys(obj).sort())]: the sorted top-level
    keys are handed to [JSON.stringify] as its replacer array. *)
Definition stableStringify (obj : value) : option string :=
  JSON_stringify obj (Some (Array_sort (Object_keys obj))).

Definition sign := SignerCore.sign stableStringify.
Definition verify := SignerCore.verify stableStringify.
Definition hash_message := SignerCore.hash_message stableStringify.
Definition constantTimeEqual := SignerCore.constantTimeEqual.

End Signer.

(* ================================================================== *)
(** * did-sdk/dist/src/signer.js                                       *)
(* ================================================================== *)

Module SignerDist.

(** [static sortKeys(value)]. The recursive calls on [record[key]] are
    made once per own property ([sorted]) and then read back by key. *)
Fixpoint sortKeys (v : value) : value :=
  match v with
  | VArr items => VArr (map sortKeys items)
  | VObj record =>
      let sorted := map (fun kv => (fst kv, sortKeys (snd kv))) record in
      VObj (fold_left (fun next key => assign next key (Get sorted key))
                      (Array_sort (map fst record)) [])
  | _ => v
  end.

(** [JSON.stringify(this.sortKeys(value))]. *)
Definition stableStringify (v : value) : option string :=
  JSON_stringify (sortKeys v) None.

Definition sign := SignerCore.sign stableStringify.
Definition verify := SignerCore.verify stableStringify.
Definition hash_message := SignerCore.hash_message stableStringify.
Definition constantTimeEqual := SignerCore.constantTimeEqual.

End SignerDist.

(** Test notation: a JSON text written with apostrophes for its double
    quotes. *)
Fixpoint json_text (s : string) : string :=
  match s with
  | EmptyString => EmptyString
  | String c rest =>
      String (if (code c =? 39) then dquote else c) (json_text rest)
  end.

(* ================================================================== *)
(** * did-sdk/src/did.ts                                               *)
(* ================================================================== *)

Module AeonDID.

(** Regular expressions over code units, as far as the name pattern
    needs them. *)
Inductive regex : Type :=
| Void
| Eps
| Class (p : ascii -> bool)
| Seq (r1 r2 : regex)
| Alt (r1 r2 : regex)
| Star (r : regex).

Fixpoint nullable (r : regex) : bool :=
  match r with
  | Void => false
  | Eps => true
  | Class _ => false
  | Seq r1 r2 => nullable r1 && nullable r2
  | Alt r1 r2 => nullable r1 || nullable r2
  | Star _ => true
  end.

Fixpoint derive (c : ascii) (r : regex) : regex :=
  match r with
  | Void => Void
  | Eps => Void
  | Class p => if p c then Eps else Void
  | Seq r1 r2 =>
      if nullable r1 then Alt (Seq (derive c r1) r2) (derive c r2)
      else Seq (derive c r1) r2
  | Alt r1 r2 => Alt (derive c r1) (derive c r2)
  | Star r1 => Seq (derive c r1) (Star r1)
  end.

(** [/^r$/.test(s)]: the whole string is in the language of [r]. *)
Fixpoint test (r : regex) (s : string) : bool :=
  match s with
  | EmptyString => nullable r
  | String c rest => test (derive c r) rest
  end.

Definition in_range (lo hi : Z) (c : ascii) : bool :=
  (lo <=? code c) && (code c <=? hi).

(** [[a-z0-9]]. *)
Definition lower_alnum (c : ascii) : bool :=
  in_range 97 122 c || in_range 48 57 c.

(** [[a-z0-9-]]. *)
Definition lower_alnum_hyphen (c : ascii) : bool :=
  in_range 97 122 c || in_range 48 57 c || (code c =? 45).

(** [/^[a-z0-9][a-z0-9-]*[a-z0-9]$|^[a-z0-9]$/]: both alternatives are
    anchored at both ends. *)
Definition NAME_PATTERN : regex :=
  Alt (Seq (Class lower_alnum) (Seq (Star (Class lower_alnum_hyphen)) (Class lower_alnum)))
      (Class lower_alnum).

Inductive result (A : Type) : Type :=
| Returned (a : A)
| Thrown (error : string).
Arguments Returned {A} a.
Arguments Thrown {A} error.

Definition INVALID_NAME : string :=
  "Invalid DID name. Use lowercase letters, numbers, and hyphens. "
  ++ "Must start and end with alphanumeric.".

(** [static create(name, options?)]. [generatedKey] is what
    [Signer.generateKey()] returns if it is reached and [now] the
    reading of [new Date()]. *)
Definition create (name : string) (options : option CreateDIDOptions)
  (generatedKey : string) (now : Z) : result AeonDIDDocument :=
  if (name =? EmptyString)%string || negb (test NAME_PATTERN name) then
    Thrown INVALID_NAME
  else
    let signingKey :=
      or_string (match options with Some o => opt_signingKey o | None => None end)
                generatedKey in
    Returned (mkDocument ("did:aeon:" ++ name) name signingKey now
                         (match options with Some o => opt_metadata o | None => None end)).

End AeonDID.

(* ================================================================== *)
(** * a2g-sdk/src/client.ts                                            *)
(* ================================================================== *)

Module A2gClient.

Definition DEFAULT_TIMEOUT_MS : Z := 5000.
Definition MAX_RECONNECT_ATTEMPTS : nat := 5.
Definition BASE_RECONNECT_DELAY_MS : Z := 1000.

(** [interface A2gClientConfig]. *)
Record A2gClientConfig : Type := mkConfig {
  apiKey : option string;
  signingKey : option string;
  connectionTimeoutMs : option Z;
  requestTimeoutMs : option Z;
  autoReconnect : option bool
}.

(** [WebSocket.readyState]. *)
Inductive readyState : Type := CONNECTING | OPEN | CLOSING | CLOSED.

(** An entry of [pendingRequests]: [resolve] and [reject] are the two
    settle functions of one promise, [timeout] the handle of its
    deadline timer. *)
Record PendingRequest : Type := mkPending {
  promise : nat;
  timeout : nat
}.

(** The fields of [class A2gClient]. [pendingRequests] is a [Map], kept
    in insertion order; [intentIdMap] is keyed by object identity. *)
Record client : Type := mkClient {
  url : string;
  agentDid : string;
  config : A2gClientConfig;
  ws : option readyState;
  pendingRequests : list (string * PendingRequest);
  reconnectAttempt : nat;
  isReconnecting : bool;
  intentIdMap : list (nat * string)
}.

(** The function handed to [setTimeout]. *)
Inductive callback : Type :=
| ConnectionTimeout (promise : nat)
| ReconnectTimer
| RequestTimeout (requestId : string) (timeoutMs : Z) (promise : nat).

(** What a method or handler does to the world outside the client's own
    fields, in program order. *)
Inductive effect : Type :=
| SetTimeout (timer : nat) (cb : callback) (delay : Q)
| ClearTimeout (timer : nat)
| Resolve (promise : nat) (v : value)
| Reject (promise : nat) (error : string)
| NewWebSocket (url : string) (headers : list (string * string))
| WsSend (data : string)
| WsClose (code : option Z)
| ConsoleLog (text : string)
| ConsoleError (text : string).

Definition set_ws (c : client) (w : option readyState) : client :=
  mkClient (url c) (agentDid c) (config c) w (pendingRequests c)
           (reconnectAttempt c) (isReconnecting c) (intentIdMap c).

Definition set_pendingRequests (c : client) (p : list (string * PendingRequest))
  : client :=
  mkClient (url c) (agentDid c) (config c) (ws c) p
           (reconnectAttempt c) (isReconnecting c) (intentIdMap c).

Definition set_reconnectAttempt (c : client) (n : nat) : client :=
  mkClient (url c) (agentDid c) (config c) (ws c) (pendingRequests c)
           n (isReconnecting c) (intentIdMap c).

Definition set_isReconnecting (c : client) (b : bool) : client :=
  mkClient (url c) (agentDid c) (config c) (ws c) (pendingRequests c)
           (reconnectAttempt c) b (intentIdMap c).

Definition set_intentIdMap (c : client) (m : list (nat * string)) : client :=
  mkClient (url c) (agentDid c) (config c) (ws c) (pendingRequests c)
           (reconnectAttempt c) (isReconnecting c) m.

(** [new A2gClient(url, agentDid, config)]. *)
Definition new (url agentDid : string) (config : A2gClientConfig) : client :=
  mkClient url agentDid config None [] 0 false [].

(** ** [Map] operations on [pendingRequests] *)

Fixpoint Map_set {A : Type} (m : list (string * A)) (k : string) (v : A)
  : list (string * A) :=
  match m with
  | [] => [(k, v)]
  | (k', v') :: rest =>
      if (k' =? k)%string then (k', v) :: rest else (k', v') :: Map_set rest k v
  end.

Fixpoint Map_delete {A : Type} (m : list (string * A)) (k : string)
  : list (string * A) :=
  match m with
  | [] => []
  | (k', v') :: rest =>
      if (k' =? k)%string then rest else (k', v') :: Map_delete rest k
  end.

Definition Map_get {A : Type} (m : list (string * A)) (k : string) : option A :=
  get k m.

(** ** Values on the wire *)

(** The object literal [{ timestamp, nonce, hash }] returned by
    [Signer.sign]. *)
Definition signature_value (sig : Signature) : value :=
  VObj [("timestamp", VStr (timestamp sig)); ("nonce", VStr (nonce sig));
        ("hash", VStr (hash sig))].

(** [{ ...v }]: the own enumerable properties of [v]; spreading
    [undefined] or [null] copies nothing. *)
Definition spread (v : value) : list (string * value) :=
  match v with
  | VObj props => props
  | _ => []
  end.

Definition truthy (v : value) : bool :=
  match v with
  | VUndefined | VNull => false
  | VBool b => b
  | VNum n => negb (n =? 0)
  | VStr s => negb (s =? EmptyString)%string
  | VArr _ | VObj _ => true
  end.

(** The [params] of the intent literal. *)
Definition intent_params (agentDid intentId tool : string)
  (args : list (string * value)) : list (string * value) :=
  [("agent_did", VStr agentDid); ("intent_id", VStr intentId);
   ("tool", VStr tool); ("arguments", VObj args)].

(** The intent literal around its [params]. *)
Definition intent_message (params : list (string * value)) (requestId : string)
  : value :=
  VObj [("jsonrpc", VStr "2.0"); ("method", VStr "a2g/intent");
        ("params", VObj params); ("id", VStr requestId)].

(** The fresh values one [requestIntent] call draws: two [uuidv4()]
    results, the promise it returns and the handle [setTimeout] gives. *)
Record RequestIds : Type := mkIds {
  intentId : string;
  requestId : string;
  request_promise : nat;
  request_timer : nat
}.

Section WithSigner.

(** [Signer.sign] of the imported [@aeon/did-sdk] package. *)
Variable Signer_sign : string -> message -> option SignOptions -> Env -> Signature.

(** [async connect()], up to the registration of the socket handlers.
    [connect_promise] is the promise it returns, [timer] the handle of
    the connection timeout. *)
Definition connect (c : client) (connect_promise timer : nat) (env : Env)
  : client * list effect :=
  let headers : list (string * string) := [] in
  let headers :=
    if truthy_string (apiKey (config c)) then
      Map_set headers "Authorization"
              ("Bearer " ++ or_string (apiKey (config c)) EmptyString)
    else headers in
  let headers :=
    if truthy_string (signingKey (config c)) then
      let sig := Signer_sign (or_string (signingKey (config c)) EmptyString)
                             (MsgString (agentDid c)) None env in
      Map_set (Map_set (Map_set (Map_set headers
        "X-Agent-DID" (agentDid c))
        "X-Timestamp" (timestamp sig))
        "X-Nonce" (nonce sig))
        "X-Signature" (hash sig)
    else headers in
  (set_ws c (Some CONNECTING),
   [NewWebSocket (url c) headers;
    SetTimeout timer (ConnectionTimeout connect_promise)
               (inject_Z (or_number (connectionTimeoutMs (config c)) 10000))]).

(** [this.ws] once [close()] has returned on it: a socket that was
    connecting or open is CLOSING from then on (the [close] event, which
    resets the field, comes in a later turn); a closed one stays
    closed. *)
Definition closing (w : option readyState) : option readyState :=
  match w with
  | Some CLOSED => Some CLOSED
  | Some _ => Some CLOSING
  | None => None
  end.


(** [this.ws.on("open", ...)]. *)
Definition on_open (c : client) (connect_promise timer : nat)
  : client * list effect :=
  (set_isReconnecting (set_reconnectAttempt (set_ws c (Some OPEN)) 0) false,
   [ClearTimeout timer;
    ConsoleLog ("A2G Connected to " ++ url c);
    Resolve connect_promise VUndefined]).


(** [this.ws.on("message", ...)]. [parsed] is the outcome of
    [JSON.parse(data.toString())]: [None] when it throws. Reading [.id]
    off [null] throws too; both land in the [catch]. *)
Definition on_message (c : client) (parsed : option value)
  : client * list effect :=
  match parsed with
  | None | Some VNull | Some VUndefined =>
      (c, [ConsoleError "A2G Message Parse Error:"])
  | Some response =>
      match Get (spread response) "id" with
      | VStr id =>
          match Map_get (pendingRequests c) id with
          | Some pending =>
              (set_pendingRequests c (Map_delete (pendingRequests c) id),
               [ClearTimeout (timeout pending);
                Resolve (promise pending) response])
          | None => (c, [])
          end
      | _ => (c, [])
      end
  end.

(** The loop both [close] and [disconnect] run over [pendingRequests]. *)
Definition reject_all (pending : list (string * PendingRequest)) (error : string)
  : list effect :=
  flat_map (fun e => [ClearTimeout (timeout (snd e));
                      Reject (promise (snd e)) error]) pending.

(** [private scheduleReconnect()]. [random] is the value of
    [Math.random()], [timer] the handle [setTimeout] returns. *)
Definition scheduleReconnect (c : client) (random : Q) (timer : nat)
  : client * list effect :=
  if isReconnecting c || (MAX_RECONNECT_ATTEMPTS <=? reconnectAttempt c)%nat then
    (c, [ConsoleError "A2G: Max reconnection attempts (5) reached"])
  else
    let c1 := set_reconnectAttempt (set_isReconnecting c true)
                                   (S (reconnectAttempt c)) in
    let delay :=
      (inject_Z (Z.min (BASE_RECONNECT_DELAY_MS
                        * 2 ^ Z.of_nat (reconnectAttempt c1 - 1)) 30000)
       + random * inject_Z 1000)%Q in
    (c1, [ConsoleLog "A2G: Reconnecting"; SetTimeout timer ReconnectTimer delay]).

(** The [catch] of the reconnect timer callback: the awaited
    [connect()] failed. *)
Definition on_reconnect_failed (c : client) (random : Q) (timer : nat)
  : client * list effect :=
  let '(c1, effs) := scheduleReconnect (set_isReconnecting c false) random timer in
  (c1, ConsoleError "A2G: Reconnection failed:" :: effs).

(** [this.ws.on("close", ...)]. *)
Definition on_close (c : client) (code : Z) (random : Q) (timer : nat)
  : client * list effect :=
  let rejected := reject_all (pendingRequests c) "Connection closed" in
  let c1 := set_pendingRequests (set_ws c None) [] in
  let '(c2, scheduled) :=
    if negb (code =? 1000)
       && negb (match autoReconnect (config c) with
                | Some false => true
                | _ => false
                end)
    then scheduleReconnect c1 random timer
    else (c1, []) in
  (c2, (ConsoleLog "A2G Connection Closed" :: rejected ++ scheduled)%list).

(** [disconnect()]. *)
Definition disconnect (c : client) : client * list effect :=
  (set_ws (set_pendingRequests c []) (closing (ws c)),
   (reject_all (pendingRequests c) "Client disconnected"
    ++ match ws c with Some _ => [WsClose (Some 1000)] | None => [] end)%list).

(** The deadline callback of one request. *)
Definition on_request_timeout (c : client) (requestId : string) (timeoutMs : Z)
  (request_promise : nat) : client * list effect :=
  (set_pendingRequests c (Map_delete (pendingRequests c) requestId),
   [Reject request_promise
           ("A2G request timeout after " ++ Number_toString timeoutMs ++ "ms")]).

(** The tail every [requestIntent] shares: arm the deadline, register
    the pending entry and send the serialized intent. *)
Definition register_and_send (c : client) (ids : RequestIds) (intent : value)
  : client * list effect :=
  let timeoutMs := or_number (requestTimeoutMs (config c)) DEFAULT_TIMEOUT_MS in
  (set_pendingRequests c
     (Map_set (pendingRequests c) (requestId ids)
              (mkPending (request_promise ids) (request_timer ids))),
   (SetTimeout (request_timer ids)
               (RequestTimeout (requestId ids) timeoutMs (request_promise ids))
               (inject_Z timeoutMs)
    :: match ws c with
       | Some _ => [WsSend (template (JSON_stringify intent None))]
       | None => []
       end)).

(** [this.intentIdMap.set(context, intentId)] when a context is given. *)
Definition remember_intent (c : client) (context : option nat) (intentId : string)
  : client :=
  match context with
  | Some obj =>
      set_intentIdMap c
        ((obj, intentId) :: filter (fun e => negb (fst e =? obj)%nat) (intentIdMap c))
  | None => c
  end.

(** The signing block of [src/client.ts]: the signature covers the
    agent's DID. Returns the [params] as they are sent. *)
Definition sign_intent (c : client) (params : list (string * value)) (env : Env)
  : list (string * value) :=
  if truthy_string (signingKey (config c)) then
    let sig := Signer_sign (or_string (signingKey (config c)) EmptyString)
                           (MsgString (agentDid c)) None env in
    assign params "context"
           (VObj (define_property (spread (Get params "context"))
                                  "signature" (signature_value sig)))
  else params.

(** The [intent] object as it stands when it is serialized. *)
Definition build_intent (c : client) (tool : string)
  (args : list (string * value)) (ids : RequestIds) (env : Env) : value :=
  intent_message
    (sign_intent c (intent_params (agentDid c) (intentId ids) tool args) env)
    (requestId ids).

(** [async requestIntent(tool, args, context?)] of [src/client.ts] from
    the point where the socket is open (the [await this.connect()] before
    it is [connect] followed by [on_open]). *)
Definition requestIntent (c : client) (tool : string)
  (args : list (string * value)) (context : option nat) (ids : RequestIds)
  (env : Env) : client * list effect :=
  let c := remember_intent c context (intentId ids) in
  let '(c1, effs) := register_and_send c ids (build_intent c tool args ids env) in
  (c1,
   if truthy_string (signingKey (config c)) then
     ConsoleLog ("[A2G-SDK] Signing identity for tool") :: effs
   else effs).

End WithSigner.

End A2gClient.

(* ================================================================== *)
(** * a2g-sdk, compiled client.js                                      *)
(* ================================================================== *)

Module A2gClientDist.

Import A2gClient.

Fixpoint delete_property (props : list (string * value)) (k : string)
  : list (string * value) :=
  match props with
  | [] => []
  | (k', v) :: rest =>
      if (k' =? k)%string then rest else (k', v) :: delete_property rest k
  end.

Definition is_object (v : value) : bool :=
  match v with
  | VNull | VArr _ | VObj _ => true
  | _ => false
  end.

(** [paramsForSignature]: a copy of [intent.params] whose [context] is a
    copy of the original context, or [undefined], with its [signature]
    deleted. *)
Definition paramsForSignature (params : list (string * value))
  : list (string * value) :=
  let context := Get params "context" in
  let copy := if truthy context then VObj (spread context) else VUndefined in
  let copy :=
    if truthy copy && is_object copy then
      VObj (delete_property (spread copy) "signature")
    else copy in
  define_property params "context" copy.

Section WithSigner.

Variable Signer_sign : string -> message -> option SignOptions -> Env -> Signature.

(** The signing block of the compiled [client.js]: the signature covers
    [paramsForSignature]. *)
Definition sign_intent (c : client) (params : list (string * value)) (env : Env)
  : list (string * value) :=
  if truthy_string (signingKey (config c)) then
    let sig := Signer_sign (or_string (signingKey (config c)) EmptyString)
                           (MsgObject (paramsForSignature params)) None env in
    assign params "context"
           (VObj (define_property (spread (Get params "context"))
                                  "signature" (signature_value sig)))
  else params.

(** The [intent] object as it stands when it is serialized. *)
Definition build_intent (c : client) (tool : string)
  (args : list (string * value)) (ids : RequestIds) (env : Env) : value :=
  intent_message
    (sign_intent c (intent_params (agentDid c) (intentId ids) tool args) env)
    (requestId ids).

(** [async requestIntent(tool, args, context)] of the compiled
    [client.js], from the point where the socket is open. *)
Definition requestIntent (c : client) (tool : string)
  (args : list (string * value)) (context : option nat) (ids : RequestIds)
  (env : Env) : client * list effect :=
  let c := remember_intent c context (intentId ids) in
  register_and_send c ids (build_intent c tool args ids env).

End WithSigner.

End A2gClientDist.


(* ================================================================== *)
(** * Vocabulary of the specification                                  *)
(* ================================================================== *)

(** The language of a regular expression: what [AeonDID.test] is
    measured against. *)
Inductive matches : AeonDID.regex -> string -> Prop :=
| MEps : matches AeonDID.Eps EmptyString
| MClass (p : ascii -> bool) (c : ascii) :
    p c = true -> matches (AeonDID.Class p) (String c EmptyString)
| MSeq (r1 r2 : AeonDID.regex) (s1 s2 : string) :
    matches r1 s1 -> matches r2 s2 -> matches (AeonDID.Seq r1 r2) (s1 ++ s2)
| MAltL (r1 r2 : AeonDID.regex) (s : string) :
    matches r1 s -> matches (AeonDID.Alt r1 r2) s
| MAltR (r1 r2 : AeonDID.regex) (s : string) :
    matches r2 s -> matches (AeonDID.Alt r1 r2) s
| MStarNil (r : AeonDID.regex) : matches (AeonDID.Star r) EmptyString
| MStarApp (r : AeonDID.regex) (s1 s2 : string) :
    matches r s1 -> matches (AeonDID.Star r) s2 ->
    matches (AeonDID.Star r) (s1 ++ s2).

Definition hyphen : ascii := ascii_of_nat 45.

(** A lowercase alphanumeric: [a]..[z] or [0]..[9]. *)
Definition lowercase_alphanumeric (c : ascii) : Prop :=
  97 <= code c <= 122 \/ 48 <= code c <= 57.

Fixpoint last_char (s : string) : option ascii :=
  match s with
  | EmptyString => None
  | String c EmptyString => Some c
  | String _ rest => last_char rest
  end.

Definition first_char (s : string) : option ascii :=
  match s with
  | EmptyString => None
  | String c _ => Some c
  end.

(** The names the specification has [create] reject: the empty name, a
    name with a character that is neither a lowercase alphanumeric nor a
    hyphen, a name that starts with a hyphen, a name that ends with one. *)
Definition rejected_name (name : string) : Prop :=
  name = EmptyString
  \/ (exists c, In c (list_ascii_of_string name)
                /\ ~ lowercase_alphanumeric c /\ c <> hyphen)
  \/ first_char name = Some hyphen
  \/ last_char name = Some hyphen.

(** Inbound messages handled one after the other: the client after
    them and everything the handler did. *)
Fixpoint on_messages (c : A2gClient.client) (inbound : list (option value))
  : A2gClient.client * list A2gClient.effect :=
  match inbound with
  | [] => (c, [])
  | parsed :: rest =>
      let '(c1, effs1) := A2gClient.on_message c parsed in
      let '(c2, effs2) := on_messages c1 rest in
      (c2, (effs1 ++ effs2)%list)
  end.

Definition is_reject (e : A2gClient.effect) : bool :=
  match e with
  | A2gClient.Reject _ _ => true
  | _ => false
  end.

Definition is_setTimeout (e : A2gClient.effect) : bool :=
  match e with
  | A2gClient.SetTimeout _ _ _ => true
  | _ => false
  end.

(** The correlator in its event loop: the client, the timers that are
    armed (set, and neither cleared nor fired), and every effect so
    far, oldest first. *)
Record world : Type := mkWorld {
  the_client : A2gClient.client;
  armed : list (nat * A2gClient.callback);
  history : list A2gClient.effect
}.

Definition disarm (t : nat) (timers : list (nat * A2gClient.callback))
  : list (nat * A2gClient.callback) :=
  filter (fun x => negb (fst x =? t)%nat) timers.

(** What an effect does to the armed timers. *)
Definition arm (timers : list (nat * A2gClient.callback)) (e : A2gClient.effect)
  : list (nat * A2gClient.callback) :=
  match e with
  | A2gClient.SetTimeout t cb _ => (t, cb) :: timers
  | A2gClient.ClearTimeout t => disarm t timers
  | _ => timers
  end.

(** The world after a method or handler has run. *)
Definition run (w : world) (r : A2gClient.client * list A2gClient.effect) : world :=
  mkWorld (fst r) (fold_left arm (snd r) (armed w)) (history w ++ snd r).




(** [intent.params] and [intent.params.context.signature] of an intent
    object. *)
Definition sent_params (intent : value) : list (string * value) :=
  A2gClient.spread (Get (A2gClient.spread intent) "params").

Definition sent_signature (intent : value) : value :=
  Get (A2gClient.spread (Get (sent_params intent) "context")) "signature".

(** The parameter object the specification has the signature cover:
    [agent_did], [intent_id], [tool], [arguments] and a [context]
    without signature (at signing time the intent has no context yet). *)
Definition params_without_signature (agentDid intentId tool : string)
  (args : list (string * value)) : list (string * value) :=
  [("agent_did", VStr agentDid); ("intent_id", VStr intentId);
   ("tool", VStr tool); ("arguments", VObj args); ("context", VUndefined)].

(** "The signature is computed over the parameter object", as a
    property of one way of building the intent. *)
Definition signs_params_object
  (Signer_sign : string -> message -> option SignOptions -> Env -> Signature)
  (build : A2gClient.client -> string -> list (string * value)
           -> A2gClient.RequestIds -> Env -> value) : Prop :=
  forall c tool args ids env key,
    A2gClient.signingKey (A2gClient.config c) = Some key ->
    key <> EmptyString ->
    sent_signature (build c tool args ids env)
    = A2gClient.signature_value
        (Signer_sign key
           (MsgObject (params_without_signature
                         (A2gClient.agentDid c) (A2gClient.intentId ids) tool args))
           None env).

(** Two payloads that are equal up to the order of object keys, at any
    depth: arrays agree position by position, objects have the same
    keys (each once) and agree key by key. *)
Inductive same_up_to_key_order : value -> value -> Prop :=
| SameUndefined : same_up_to_key_order VUndefined VUndefined
| SameNull : same_up_to_key_order VNull VNull
| SameBool (b : bool) : same_up_to_key_order (VBool b) (VBool b)
| SameNum (n : Z) : same_up_to_key_order (VNum n) (VNum n)
| SameStr (s : string) : same_up_to_key_order (VStr s) (VStr s)
| SameArr (xs ys : list value) :
    List.length xs = List.length ys ->
    (forall i x y, nth_error xs i = Some x -> nth_error ys i = Some y ->
                   same_up_to_key_order x y) ->
    same_up_to_key_order (VArr xs) (VArr ys)
| SameObj (ps qs : list (string * value)) :
    NoDup (map fst ps) ->
    Permutation (map fst ps) (map fst qs) ->
    (forall k x y, get k ps = Some x -> get k qs = Some y ->
                   same_up_to_key_order x y) ->
    same_up_to_key_order (VObj ps) (VObj qs).

(** A property of the own properties of every object inside a value. *)
Inductive every_object (P : list (string * value) -> Prop) : value -> Prop :=
| EveryUndefined : every_object P VUndefined
| EveryNull : every_object P VNull
| EveryBool (b : bool) : every_object P (VBool b)
| EveryNum (n : Z) : every_object P (VNum n)
| EveryStr (s : string) : every_object P (VStr s)
| EveryArr (xs : list value) :
    (forall x, In x xs -> every_object P x) -> every_object P (VArr xs)
| EveryObj (ps : list (string * value)) :
    P ps ->
    (forall k x, In (k, x) ps -> every_object P x) ->
    every_object P (VObj ps).

(** Keys that an assignment appends: not an array index, not
    [__proto__]. *)
Definition plain_key (k : string) : Prop :=
  array_index k = None /\ k <> "__proto__".

Definition plain_keys (ps : list (string * value)) : Prop :=
  NoDup (map fst ps) /\ Forall plain_key (map fst ps).

(** Keys in ascending code-unit order. *)
Definition sorted_keys (ps : list (string * value)) : Prop :=
  Sorted (fun a b => String.leb a b = true) (map fst ps).

(* ================================================================== *)
(** * String methods of the runtime                                    *)
(* ================================================================== *)

Module JSString.

(** [s.startsWith(pat)]. *)
Fixpoint startsWith (s pat : string) : bool :=
  match pat, s with
  | EmptyString, _ => true
  | String p pat', String c s' => Ascii.eqb c p && startsWith s' pat'
  | String _ _, EmptyString => false
  end.

(** [s.includes(pat)]. *)
Fixpoint includes (s pat : string) : bool :=
  startsWith s pat
  || match s with
     | String _ s' => includes s' pat
     | EmptyString => false
     end.

(** [s.slice(n)]. *)
Fixpoint drop (n : nat) (s : string) : string :=
  match n, s with
  | O, _ => s
  | S n', String _ s' => drop n' s'
  | S _, EmptyString => EmptyString
  end.

(** [s.endsWith(suffix)]. *)
Definition endsWith (s suffix : string) : bool :=
  (String.length suffix <=? String.length s)%nat
  && (drop (String.length s - String.length suffix) s =? suffix)%string.

(** [s.replace(pat, replacement)] for a string pattern and a
    replacement without dollar patterns: the first occurrence only. *)
Fixpoint replace (s pat replacement : string) : string :=
  if startsWith s pat then replacement ++ drop (String.length pat) s
  else match s with
       | String c s' => String c (replace s' pat replacement)
       | EmptyString => EmptyString
       end.

End JSString.

(* ================================================================== *)
(** * did-sdk: the remaining methods of signer.ts and did.ts           *)
(* ================================================================== *)

Module SignerKeys.

(** [static generateKey()]: [randomBytes(32).toString("hex")], with the
    32 bytes the random source returns as input. *)
Definition generateKey (randomBytes : list Z) : string :=
  Crypto.hex randomBytes.

End SignerKeys.

Module AeonDIDMethods.

Import AeonDID.

(** A literal character of a pattern. *)
Definition literal (c : ascii) : regex := Class (Ascii.eqb c).

Fixpoint literal_then (s : string) (r : regex) : regex :=
  match s with
  | EmptyString => r
  | String c s' => Seq (literal c) (literal_then s' r)
  end.

(** [.] without the [s] flag: any code unit but a line terminator.
    The line terminators are LF, CR, U+2028 and U+2029; strings here
    are made of code units below 256, of which LF and CR are the only
    two. *)
Definition dot (c : ascii) : bool :=
  negb ((code c =? 10) || (code c =? 13)).

(** [/^did:aeon:(.+)$/]. *)
Definition DID_PATTERN : regex :=
  literal_then "did:aeon:" (Seq (Class dot) (Star (Class dot))).

(** [static parseName(did)]. The pattern is anchored and its prefix has
    nine characters, so the group [match[1]] is the input from index 9
    on. *)
Definition parseName (did : string) : result string :=
  if test DID_PATTERN did then Returned (JSString.drop 9 did)
  else Thrown ("Invalid AEON DID format: " ++ did).

(** [static fromDocument(document)]: no validation. *)
Definition fromDocument (document : AeonDIDDocument) : AeonDIDDocument := document.

(** [sign(message)] of an identity. *)
Definition sign (document : AeonDIDDocument) (m : message) (env : Env) : Signature :=
  Signer.sign (signingKey document) m None env.

(** [verify(signature, message)] of an identity. *)
Definition verify (document : AeonDIDDocument) (signature : Signature)
  (m : message) (now : Z) (env : Env) : bool :=
  Signer.verify (signingKey document) signature m None now env.

End AeonDIDMethods.

Module FileStorage.

Section WithLoad.

(** [this.load(name)]: the document read from the file of that name,
    [None] when reading or parsing fails. *)
Variable load : string -> option AeonDIDDocument.

(** The body of the loop of [list()] for one directory entry. *)
Definition list_entry (file : string) : list AeonDIDDocument :=
  if JSString.endsWith file ".json" then
    match load (JSString.replace file ".json" EmptyString) with
    | Some doc => [doc]
    | None => []
    end
  else [].

(** [async list()]. [files] is what [readdir] returns, [None] when it
    or [ensureDir] throws. *)
Definition list (files : option (Datatypes.list string))
  : Datatypes.list AeonDIDDocument :=
  match files with
  | Some entries => flat_map list_entry entries
  | None => []
  end.

End WithLoad.

End FileStorage.

(* ================================================================== *)
(** * a2g-sdk/src/client.ts: constructor, reports, intent ids          *)
(* ================================================================== *)

Module A2gClientApi.

Import A2gClient.

(** The test of the constructor: does it print the security warning? *)
Definition warns_unencrypted (url : string) : bool :=
  JSString.startsWith url "ws://"
  && negb (JSString.includes url "localhost")
  && negb (JSString.includes url "127.0.0.1").

(** ["SUCCESS" | "FAILURE" | "TIMEOUT" | "ABORTED"]. *)
Inductive ReportStatus : Type := SUCCESS | FAILURE | TIMEOUT | ABORTED.

Definition status_text (status : ReportStatus) : string :=
  match status with
  | SUCCESS => "SUCCESS"
  | FAILURE => "FAILURE"
  | TIMEOUT => "TIMEOUT"
  | ABORTED => "ABORTED"
  end.

Definition optional_text (s : option string) : value :=
  match s with
  | Some text => VStr text
  | None => VUndefined
  end.

(** The [report] literal of [reportOutcome]. *)
Definition report_message (agentDid intentId : string) (status : ReportStatus)
  (result : value) (error : option string) (durationMs : option Z) (id : string)
  : value :=
  VObj [("jsonrpc", VStr "2.0"); ("method", VStr "a2g/report");
        ("params",
         VObj [("agent_did", VStr agentDid); ("intent_id", VStr intentId);
               ("status", VStr (status_text status)); ("result", result);
               ("error", optional_text error);
               ("metrics", VObj [("duration_ms", VNum (or_number durationMs 0))])]);
        ("id", VStr id)].

(** [async reportOutcome(intentId, status, result?, error?, durationMs?)].
    [id] is the value of [uuidv4()]. *)
Definition reportOutcome (c : client) (intentId : string) (status : ReportStatus)
  (result : value) (error : option string) (durationMs : option Z) (id : string)
  : client * list effect :=
  match ws c with
  | Some OPEN =>
      (c, [WsSend (template
                     (JSON_stringify
                        (report_message (agentDid c) intentId status result error
                                        durationMs id) None))])
  | _ => (c, [])
  end.

(** [getIntentId(context)]. *)
Fixpoint lookup_object (m : list (nat * string)) (obj : nat) : option string :=
  match m with
  | [] => None
  | (o, id) :: rest => if (o =? obj)%nat then Some id else lookup_object rest obj
  end.

Definition getIntentId (c : client) (context : nat) : option string :=
  lookup_object (intentIdMap c) context.

(** [get isConnected()]. *)
Definition isConnected (c : client) : bool :=
  match ws c with
  | Some OPEN => true
  | _ => false
  end.

End A2gClientApi.

(** The headers [connect] hands to [new WebSocket]. *)
Definition connect_headers (effs : list A2gClient.effect) : list (string * string) :=
  match effs with
  | A2gClient.NewWebSocket _ headers :: _ => headers
  | _ => []
  end.

(** The delays of the reconnect timers among some effects. *)
Fixpoint reconnect_delays (effs : list A2gClient.effect) : list Q :=
  match effs with
  | [] => []
  | A2gClient.SetTimeout _ A2gClient.ReconnectTimer delay :: rest =>
      delay :: reconnect_delays rest
  | _ :: rest => reconnect_delays rest
  end.

(** The reconnect timer callback up to its [await]: [this.connect()]. *)
Definition on_reconnect_timer
  (Signer_sign : string -> message -> option SignOptions -> Env -> Signature)
  (c : A2gClient.client) (connect_promise timer : nat) (env : Env)
  : A2gClient.client * list A2gClient.effect :=
  A2gClient.connect Signer_sign c connect_promise timer env.

(** Reconnects that fail one after the other: each failure runs the
    [catch] of the timer callback with the next value of
    [Math.random()]. *)
Fixpoint failed_reconnects (c : A2gClient.client) (randoms : list Q) (timer : nat)
  : A2gClient.client * list A2gClient.effect :=
  match randoms with
  | [] => (c, [])
  | random :: rest =>
      let '(c1, effs1) := A2gClient.on_reconnect_failed c random timer in
      let '(c2, effs2) := failed_reconnects c1 rest (S timer) in
      (c2, (effs1 ++ effs2)%list)
  end.

(* ================================================================== *)
(** * Vocabulary of the further properties                             *)
(* ================================================================== *)

(** A lower-case hexadecimal digit. *)
Definition lower_hex_digit (c : ascii) : Prop :=
  48 <= code c <= 57 \/ 97 <= code c <= 102.

(** The full stop. *)
Definition full_stop : ascii := ascii_of_nat 46.

(** What [list] pushes for the outcome of one [load]. *)
Definition loaded (doc : option AeonDIDDocument) : list AeonDIDDocument :=
  match doc with
  | Some d => [d]
  | None => []
  end.

(** The delays of an exponential back-off that starts after [attempt]
    attempts: one second doubled per attempt already made, plus the
    jitter, for as long as fewer than five attempts have been made. *)
Fixpoint backoff_delays (attempt : nat) (randoms : list Q) : list Q :=
  match randoms with
  | [] => []
  | random :: rest =>
      if (5 <=? attempt)%nat then []
      else (inject_Z (1000 * 2 ^ Z.of_nat attempt) + random * inject_Z 1000)%Q
           :: backoff_delays (S attempt) rest
  end.







(** A value with no object inside: a primitive, or an array of such
    values. *)
Inductive object_free : value -> Prop :=
| FreeUndefined : object_free VUndefined
| FreeNull : object_free VNull
| FreeBool (b : bool) : object_free (VBool b)
| FreeNum (n : Z) : object_free (VNum n)
| FreeStr (s : string) : object_free (VStr s)
| FreeArr (xs : list value) :
    (forall x, In x xs -> object_free x) -> object_free (VArr xs).

(** A message with a single level of properties: a string, an array
    without objects, or an object with plain keys whose values hold no
    object. *)
Definition flat_message (m : message) : Prop :=
  match m with
  | MsgString _ => True
  | MsgArray items => forall x, In x items -> object_free x
  | MsgObject props =>
      plain_keys props /\ forall k v, In (k, v) props -> object_free v
  end.

(* ================================================================== *)
(** * Facts about the runtime                                          *)
(* ================================================================== *)

(** The digests agree with the published test vectors. *)
Example sha256_abc :
  Crypto.hex (Crypto.sha256 (Crypto.utf8 "abc"))
  = "ba7816bf8f01cfea414140de5dae2223b00361a396177a9cb410ff61f20015ad".
Proof. vm_compute. reflexivity. Qed.

Example hmac_sha256_quick_brown_fox :
  Crypto.createHmac_sha256_hex "key" "The quick brown fox jumps over the lazy dog"
  = "f7bc83f430538424b13298e6aa6fb143ef4d59a14946175997479dbc2d1a3cd8".
Proof. vm_compute. reflexivity. Qed.

Section NumberStrings.

Lemma digits_prefix_string_of_uint (d : Decimal.uint) :
  digits_prefix (NilEmpty.string_of_uint d) = d.
Proof.
  induction d; simpl; try rewrite IHd; reflexivity.
Qed.

Lemma string_of_uint_nonempty (d : Decimal.uint) :
  d <> Decimal.Nil -> NilEmpty.string_of_uint d <> EmptyString.
Proof.
  destruct d; simpl; congruence.
Qed.

(** A printed natural starts with a digit: no blank, no sign. *)
Lemma string_of_uint_head (d : Decimal.uint) :
  d <> Decimal.Nil ->
  exists c rest, NilEmpty.string_of_uint d = String c rest
                 /\ is_StrWhiteSpaceChar c = false
                 /\ c <> "-"%char /\ c <> "+"%char.
Proof.
  destruct d; simpl; intros Hd; try congruence;
    eexists; eexists; (split; [reflexivity|]);
    (split; [reflexivity|]); split; discriminate.
Qed.

Lemma parseInt_digits (d : Decimal.uint) :
  d <> Decimal.Nil ->
  parseInt (NilEmpty.string_of_uint d) = Some (Z.of_uint d).
Proof.
  intros Hd.
  destruct (string_of_uint_head d Hd) as (c & rest & Hs & Hw & Hm & Hp).
  unfold parseInt. rewrite Hs. simpl trim_start. rewrite Hw.
  assert (Hsign :
    match String c rest with
    | String "-" r => (true, r)
    | String "+" r => (false, r)
    | _ => (false, String c rest)
    end = (false, String c rest)).
  { destruct c as [[] [] [] [] [] [] [] []]; try reflexivity; congruence. }
  rewrite Hsign, <- Hs, digits_prefix_string_of_uint.
  destruct d; congruence.
Qed.

Lemma parseInt_negative_digits (d : Decimal.uint) :
  d <> Decimal.Nil ->
  parseInt (String "-" (NilEmpty.string_of_uint d)) = Some (- Z.of_uint d).
Proof.
  intros Hd. unfold parseInt. simpl trim_start.
  change (is_StrWhiteSpaceChar "-") with false. cbv iota.
  rewrite digits_prefix_string_of_uint.
  destruct d; congruence.
Qed.

(** [parseInt(String(n), 10) === n]. *)
Lemma parseInt_Number_toString (n : Z) :
  parseInt (Number_toString n) = Some n.
Proof.
  unfold Number_toString.
  destruct n as [|p|p]; simpl Z.to_int.
  - reflexivity.
  - unfold NilZero.string_of_int, NilZero.string_of_uint.
    pose proof (DecimalPos.Unsigned.to_uint_nonnil p) as Hn.
    destruct (Pos.to_uint p) eqn:E; try congruence;
      rewrite <- E; rewrite parseInt_digits by (rewrite E; discriminate);
      unfold Z.of_uint; rewrite DecimalPos.Unsigned.of_to; reflexivity.
  - unfold NilZero.string_of_int, NilZero.string_of_uint.
    pose proof (DecimalPos.Unsigned.to_uint_nonnil p) as Hn.
    destruct (Pos.to_uint p) eqn:E; try congruence;
      rewrite <- E; rewrite parseInt_negative_digits by (rewrite E; discriminate);
      unfold Z.of_uint; rewrite DecimalPos.Unsigned.of_to; reflexivity.
Qed.

Lemma Number_toString_nonempty (n : Z) : Number_toString n <> EmptyString.
Proof.
  intros H. pose proof (parseInt_Number_toString n) as P.
  rewrite H in P. discriminate.
Qed.

Lemma or_string_supplied (s d : string) :
  s <> EmptyString -> or_string (Some s) d = s.
Proof.
  intros H. unfold or_string.
  destruct (String.eqb_spec s EmptyString); congruence.
Qed.

Lemma gtb_true (a b : Z) : a > b -> (a >? b) = true.
Proof. intros H. rewrite Z.gtb_ltb. apply Z.ltb_lt. lia. Qed.

Lemma gtb_false (a b : Z) : a <= b -> (a >? b) = false.
Proof. intros H. rewrite Z.gtb_ltb. apply Z.ltb_ge. lia. Qed.

End NumberStrings.

(* ================================================================== *)
(** * Signer: signing and verification                                 *)
(* ================================================================== *)

Section ConstantTimeEqual.

Lemma code_inj (x y : ascii) : code x = code y -> x = y.
Proof.
  unfold code. intros H. apply N2Z.inj in H.
  rewrite <- (ascii_N_embedding x), <- (ascii_N_embedding y), H. reflexivity.
Qed.

Lemma xor_accumulate_zero (a : string) :
  forall b r,
    String.length a = String.length b ->
    (SignerCore.xor_accumulate a b r = 0 <-> r = 0 /\ a = b).
Proof.
  induction a as [|x a IH]; intros [|y b] r Hlen; simpl in *; try discriminate.
  - intuition.
  - injection Hlen as Hlen. rewrite (IH b _ Hlen), Z.lor_eq_0_iff.
    split.
    + intros [[Hr Hx] Hab]. apply Z.lxor_eq in Hx. apply code_inj in Hx.
      subst. auto.
    + intros [Hr Hab]. injection Hab as Hx Hab. subst.
      rewrite Z.lxor_nilpotent. auto.
Qed.

(** The comparison decides equality of the two hash strings. *)
Lemma constantTimeEqual_iff (a b : string) :
  SignerCore.constantTimeEqual a b = true <-> a = b.
Proof.
  unfold SignerCore.constantTimeEqual.
  destruct (Nat.eqb_spec (String.length a) (String.length b)) as [Hlen|Hlen]; simpl.
  - rewrite Z.eqb_eq, (xor_accumulate_zero a b 0 Hlen). intuition.
  - split; [discriminate | intros ->; congruence].
Qed.

Lemma constantTimeEqual_refl (a : string) :
  SignerCore.constantTimeEqual a a = true.
Proof. apply constantTimeEqual_iff. reflexivity. Qed.

End ConstantTimeEqual.

Section SignVerify.

Variable stableStringify : value -> option string.

Local Abbreviation sign := (SignerCore.sign stableStringify).
Local Abbreviation verify := (SignerCore.verify stableStringify).

(** A signature made without options carries the printed clock reading
    and the fresh nonce. *)
Lemma sign_fresh_fields (key : string) (m : message) (env : Env) :
  timestamp (sign key m None env) = Number_toString (Date_now env)
  /\ nonce (sign key m None env) = uuidv4 env.
Proof.
  unfold SignerCore.sign; simpl. auto.
Qed.

(** Signing again with the timestamp and nonce of a signature, both not
    empty, reproduces its hash whatever the environment reads. *)
Lemma sign_again (key : string) (m : message) (options : option SignOptions)
  (env env' : Env) :
  timestamp (sign key m options env) <> EmptyString ->
  nonce (sign key m options env) <> EmptyString ->
  sign key m (Some (mkSignOptions (Some (timestamp (sign key m options env)))
                                  (Some (nonce (sign key m options env))))) env'
  = sign key m options env.
Proof.
  intros Ht Hn. unfold SignerCore.sign at 1. cbn [opt_timestamp opt_nonce].
  rewrite (or_string_supplied _ _ Ht), (or_string_supplied _ _ Hn).
  reflexivity.
Qed.

Lemma verify_unfold (key : string) (sig : Signature) (m : message)
  (maxAgeMs : option Z) (now : Z) (env : Env) :
  verify key sig m maxAgeMs now env
  = if minus_gt now (parseInt (timestamp sig))
                (match maxAgeMs with Some n => n | None => 300000 end)
    then false
    else SignerCore.constantTimeEqual
           (hash sig)
           (hash (sign key m (Some (mkSignOptions (Some (timestamp sig))
                                                  (Some (nonce sig)))) env)).
Proof. reflexivity. Qed.

(** Round trip for any canonical form. *)
Lemma verify_sign_generic (key : string) (m : message) (maxAgeMs : option Z)
  (signedAt now : Z) (uuid : string) (env : Env) :
  uuid <> EmptyString ->
  now - signedAt <= match maxAgeMs with Some n => n | None => 300000 end ->
  verify key (sign key m None (mkEnv signedAt uuid)) m maxAgeMs now env = true.
Proof.
  intros Hu Hage.
  destruct (sign_fresh_fields key m (mkEnv signedAt uuid)) as [Ht Hn].
  cbn [Date_now uuidv4] in Ht, Hn.
  rewrite verify_unfold, sign_again.
  - rewrite constantTimeEqual_refl, Ht, parseInt_Number_toString.
    unfold minus_gt. rewrite (gtb_false _ _ Hage). reflexivity.
  - rewrite Ht. apply Number_toString_nonempty.
  - rewrite Hn. exact Hu.
Qed.

(** The age test of [verify] for a timestamp that parses. *)
Lemma verify_stale_generic (key : string) (sig : Signature) (m : message)
  (maxAgeMs : option Z) (now t : Z) (env : Env) :
  parseInt (timestamp sig) = Some t ->
  now - t > match maxAgeMs with Some n => n | None => 300000 end ->
  verify key sig m maxAgeMs now env = false.
Proof.
  intros Hp Hage. rewrite verify_unfold, Hp. unfold minus_gt.
  rewrite (gtb_true _ _ Hage). reflexivity.
Qed.

Lemma verify_fresh_generic (key : string) (sig : Signature) (m : message)
  (maxAgeMs : option Z) (now t : Z) (env : Env) :
  parseInt (timestamp sig) = Some t ->
  now - t <= match maxAgeMs with Some n => n | None => 300000 end ->
  verify key sig m maxAgeMs now env
  = SignerCore.constantTimeEqual
      (hash sig)
      (hash (sign key m (Some (mkSignOptions (Some (timestamp sig))
                                             (Some (nonce sig)))) env)).
Proof.
  intros Hp Hage. rewrite verify_unfold, Hp. unfold minus_gt.
  rewrite (gtb_false _ _ Hage). reflexivity.
Qed.

End SignVerify.

(** C5. For every key and string message the [hash] of the signature
    [Signer.sign] returns is the hex HMAC-SHA256, under that key, of
    [timestamp + ":" + nonce + ":" + message], where timestamp and nonce
    are the fields of the same signature; a supplied timestamp and nonce
    (JavaScript-truthy, that is, not empty) are the ones used; and
    [sign(key, "hello")] with timestamp ["1000"] and nonce ["n1"] hashes
    exactly ["1000:n1:hello"]. The compiled build agrees. *)
Theorem sign_hash_is_hmac_of_payload :
  forall (key s : string) (env : Env),
    (forall options,
        let sig := Signer.sign key (MsgString s) options env in
        hash sig
        = Crypto.createHmac_sha256_hex
            key (timestamp sig ++ ":" ++ nonce sig ++ ":" ++ s))
    /\ (forall c ts d n,
           let t := String c ts in
           let u := String d n in
           Signer.sign key (MsgString s)
                       (Some (mkSignOptions (Some t) (Some u))) env
           = mkSignature t u
               (Crypto.createHmac_sha256_hex key (t ++ ":" ++ u ++ ":" ++ s)))
    /\ Signer.sign key (MsgString "hello")
                   (Some (mkSignOptions (Some "1000") (Some "n1"))) env
       = mkSignature "1000" "n1"
           (Crypto.createHmac_sha256_hex key "1000:n1:hello")
    /\ (forall options,
           SignerDist.sign key (MsgString s) options env
           = Signer.sign key (MsgString s) options env).
Proof.
  intros key s env. split; [|split; [|split]].
  - intros options sig. subst sig.
    unfold Signer.sign, SignerCore.sign. cbn [hash timestamp nonce].
    unfold SignerCore.messageStr. reflexivity.
  - intros c ts d n t u. subst t u.
    unfold Signer.sign, SignerCore.sign. cbn [opt_timestamp opt_nonce].
    rewrite !or_string_supplied by discriminate.
    unfold SignerCore.messageStr. reflexivity.
  - unfold Signer.sign, SignerCore.sign. cbn [opt_timestamp opt_nonce].
    rewrite !or_string_supplied by discriminate.
    unfold SignerCore.messageStr. reflexivity.
  - intros options. unfold SignerDist.sign, Signer.sign, SignerCore.sign.
    unfold SignerCore.messageStr. reflexivity.
Qed.

(** The example of C5 on a concrete key, with the digest written out. *)
Example sign_hello_digest :
  Signer.sign "k" (MsgString "hello")
              (Some (mkSignOptions (Some "1000") (Some "n1"))) (mkEnv 0 "unused")
  = mkSignature "1000" "n1"
      "3a88328f05c287d66098518f1224c91d02b547cb19d677f99e1962b5eb6e27aa".
Proof. vm_compute. reflexivity. Qed.

(** C3. For every key and every message, string or structured,
    [verify(k, sign(k, m), m)] is true whenever the time elapsed between
    the two calls does not exceed [maxAgeMs] (300000 ms when omitted).
    [uuidv4()] never returns the empty string. Holds for the source and
    for the compiled build. *)
Theorem verify_sign_roundtrip :
  forall (key : string) (m : message) (maxAgeMs : option Z)
         (signedAt now : Z) (uuid : string) (env : Env),
    uuid <> EmptyString ->
    now - signedAt <= match maxAgeMs with Some n => n | None => 300000 end ->
    Signer.verify key (Signer.sign key m None (mkEnv signedAt uuid))
                  m maxAgeMs now env = true
    /\ SignerDist.verify key (SignerDist.sign key m None (mkEnv signedAt uuid))
                         m maxAgeMs now env = true.
Proof.
  intros key m maxAgeMs signedAt now uuid env Hu Hage. split.
  - exact (verify_sign_generic Signer.stableStringify
             key m maxAgeMs signedAt now uuid env Hu Hage).
  - exact (verify_sign_generic SignerDist.stableStringify
             key m maxAgeMs signedAt now uuid env Hu Hage).
Qed.

Lemma verify_sign_roundtrip_witness :
  let m := MsgObject [("b", VNum 2); ("a", VArr [VStr "x"; VNull])] in
  Signer.verify "k" (Signer.sign "k" m None (mkEnv 1000 "n1"))
                m None 1005 (mkEnv 1005 "n2") = true
  /\ SignerDist.verify "k" (SignerDist.sign "k" m None (mkEnv 1000 "n1"))
                       m None 1005 (mkEnv 1005 "n2") = true.
Proof.
  intros m.
  apply (verify_sign_roundtrip "k" m None 1000 1005 "n1" (mkEnv 1005 "n2"));
    [discriminate | simpl; lia].
Defined.

(** C4. For every key, message and signature whose timestamp parses to
    [t], [verify] returns true exactly when [now - t <= maxAgeMs]
    (300000 when omitted) and the hash is the expected one. So it
    returns false as soon as [now - t > maxAgeMs], whatever the hash;
    inside the window the age plays no part and the result is the hash
    comparison alone; and a timestamp in the future ([t > now]) passes
    the age test of every window that is not negative. The three
    numbers are integers of magnitude at most [2^53] (the window below
    it): clock readings and time spans are, and there the runtime's
    binary64 subtraction and comparison give what the integers give. *)
Theorem verify_rejects_stale_not_future :
  forall (key : string) (sig : Signature) (m : message) (maxAgeMs : option Z)
         (now t : Z) (env : Env),
    parseInt (timestamp sig) = Some t ->
    let maxAge := match maxAgeMs with Some n => n | None => 300000 end in
    Z.abs t <= 2 ^ 53 -> Z.abs now <= 2 ^ 53 -> Z.abs maxAge < 2 ^ 53 ->
    let expected :=
      Signer.sign key m (Some (mkSignOptions (Some (timestamp sig))
                                             (Some (nonce sig)))) env in
    (Signer.verify key sig m maxAgeMs now env = true
     <-> now - t <= maxAge /\ hash sig = hash expected)
    /\ (now - t > maxAge -> Signer.verify key sig m maxAgeMs now env = false)
    /\ (now - t <= maxAge ->
        Signer.verify key sig m maxAgeMs now env
        = Signer.constantTimeEqual (hash sig) (hash expected))
    /\ (t > now -> 0 <= maxAge ->
        (Signer.verify key sig m maxAgeMs now env = true
         <-> hash sig = hash expected)).
Proof.
  intros key sig m maxAgeMs now t env Hp maxAge _ _ _ expected.
  assert (Hstale : now - t > maxAge ->
          Signer.verify key sig m maxAgeMs now env = false).
  { intros Hage.
    exact (verify_stale_generic Signer.stableStringify
             key sig m maxAgeMs now t env Hp Hage). }
  assert (Hfresh : now - t <= maxAge ->
          Signer.verify key sig m maxAgeMs now env
          = Signer.constantTimeEqual (hash sig) (hash expected)).
  { intros Hage.
    exact (verify_fresh_generic Signer.stableStringify
             key sig m maxAgeMs now t env Hp Hage). }
  assert (Hiff : Signer.verify key sig m maxAgeMs now env = true
                 <-> now - t <= maxAge /\ hash sig = hash expected).
  { destruct (Z_le_gt_dec (now - t) maxAge) as [Hin|Hout].
    - rewrite (Hfresh Hin). unfold Signer.constantTimeEqual.
      rewrite constantTimeEqual_iff. tauto.
    - rewrite (Hstale Hout). split; [discriminate | intros [Hle _]; lia]. }
  split; [exact Hiff|]. split; [exact Hstale|]. split; [exact Hfresh|].
  intros Ht Hm. rewrite Hiff. split; [tauto|]. intros Hh. split; [lia | exact Hh].
Qed.

Lemma verify_rejects_stale_not_future_witness :
  let stale := Signer.sign "k" (MsgString "hello")
                 (Some (mkSignOptions (Some "1000") (Some "n1"))) (mkEnv 0 "u") in
  let fresh := Signer.sign "k" (MsgString "hello")
                 (Some (mkSignOptions (Some "1000") (Some "n1"))) (mkEnv 0 "u") in
  Signer.verify "k" stale (MsgString "hello") None 301001 (mkEnv 301001 "v") = false
  /\ Signer.verify "k" fresh (MsgString "hello") None 301000 (mkEnv 301000 "v")
     = Signer.constantTimeEqual
         (hash fresh)
         (hash (Signer.sign "k" (MsgString "hello")
                  (Some (mkSignOptions (Some (timestamp fresh)) (Some (nonce fresh))))
                  (mkEnv 301000 "v"))).
Proof.
  intros stale fresh. split.
  - apply (proj1 (proj2 (verify_rejects_stale_not_future
                           "k" stale (MsgString "hello") None 301001 1000
                           (mkEnv 301001 "v") eq_refl
                           ltac:(vm_compute; discriminate)
                           ltac:(vm_compute; discriminate)
                           ltac:(vm_compute; reflexivity)))).
    simpl. lia.
  - apply (proj1 (proj2 (proj2 (verify_rejects_stale_not_future
                                  "k" fresh (MsgString "hello") None 301000 1000
                                  (mkEnv 301000 "v") eq_refl
                                  ltac:(vm_compute; discriminate)
                                  ltac:(vm_compute; discriminate)
                                  ltac:(vm_compute; reflexivity))))).
    simpl. lia.
Defined.

(* ================================================================== *)
(** * AeonDID.create: the name pattern                                 *)
(* ================================================================== *)

Section RegexMatcher.

Import AeonDID.

Lemma append_empty_inv (s1 s2 : string) :
  s1 ++ s2 = EmptyString -> s1 = EmptyString /\ s2 = EmptyString.
Proof. destruct s1; simpl; intros H; [auto | discriminate]. Qed.

Lemma append_empty_r (s : string) : s ++ EmptyString = s.
Proof. induction s; simpl; congruence. Qed.

Lemma nullable_matches (r : regex) :
  nullable r = true <-> matches r EmptyString.
Proof.
  induction r; simpl.
  - split; [discriminate | intros H; inversion H].
  - split; [constructor | reflexivity].
  - split; [discriminate | intros H; inversion H].
  - rewrite andb_true_iff, IHr1, IHr2. split.
    + intros [H1 H2]. change EmptyString with (EmptyString ++ EmptyString).
      constructor; assumption.
    + intros H. inversion H as [| |? ? s1 s2 H1 H2 E| | | |]; subst.
      match goal with E : _ ++ _ = EmptyString |- _ =>
        apply append_empty_inv in E; destruct E; subst end.
      auto.
  - rewrite orb_true_iff, IHr1, IHr2. split.
    + intros [H|H]; [apply MAltL | apply MAltR]; assumption.
    + intros H; inversion H; subst; auto.
  - split; [constructor | reflexivity].
Qed.

(** A non-empty word of [r*] starts with a non-empty word of [r]. *)
Lemma star_cons_inv (r : regex) (c : ascii) (s : string) :
  matches (Star r) (String c s) ->
  exists s1 s2, s = s1 ++ s2 /\ matches r (String c s1) /\ matches (Star r) s2.
Proof.
  intros H. remember (Star r) as r' eqn:Er. remember (String c s) as w eqn:Ew.
  revert c s Ew.
  induction H as [| | | | | |r0 s1 s2 H1 _ H2 IH2]; intros x w Ew;
    try discriminate.
  injection Er as ->.
  destruct s1 as [|c1 s1]; simpl in Ew.
  - apply (IH2 eq_refl x w Ew).
  - injection Ew as -> <-. exists s1, s2. auto.
Qed.

Lemma derive_matches (r : regex) :
  forall c s, matches (derive c r) s <-> matches r (String c s).
Proof.
  induction r as [| |p|r1 IH1 r2 IH2|r1 IH1 r2 IH2|r1 IH1]; intros c s; simpl.
  - split; intros H; inversion H.
  - split; intros H; inversion H.
  - destruct (p c) eqn:Hp; split; intros H; inversion H; subst.
    + constructor. assumption.
    + constructor.
    + congruence.
  - assert (Hseq : matches (Seq (derive c r1) r2) s
                   -> matches (Seq r1 r2) (String c s)).
    { intros H. inversion H as [| |? ? s1 s2 H1 H2| | | |]; subst.
      change (String c (s1 ++ s2)) with (String c s1 ++ s2).
      constructor; [apply IH1|]; assumption. }
    assert (Hinv : matches (Seq r1 r2) (String c s) ->
                   (exists s1 s2, s = s1 ++ s2 /\ matches r1 (String c s1)
                                  /\ matches r2 s2)
                   \/ (matches r1 EmptyString /\ matches r2 (String c s))).
    { intros H. inversion H as [| |? ? s1 s2 H1 H2 E| | | |]; subst.
      destruct s1 as [|c1 s1]; simpl in *.
      - right. subst. auto.
      - left. match goal with E : String _ _ = String _ _ |- _ =>
          injection E as -> <- end. eauto. }
    destruct (nullable r1) eqn:Hn.
    + split.
      * intros H. inversion H; subst; [auto|].
        change (String c s) with (EmptyString ++ String c s).
        constructor; [apply nullable_matches; assumption | apply IH2; assumption].
      * intros H. destruct (Hinv H) as [(s1 & s2 & -> & H1 & H2)|[H1 H2]].
        -- apply MAltL. constructor; [apply IH1|]; assumption.
        -- apply MAltR. apply IH2. assumption.
    + split; [exact Hseq|].
      intros H. destruct (Hinv H) as [(s1 & s2 & -> & H1 & H2)|[H1 H2]].
      * constructor; [apply IH1|]; assumption.
      * apply nullable_matches in H1. congruence.
  - split.
    + intros H; inversion H; subst;
        [apply MAltL; apply IH1 | apply MAltR; apply IH2]; assumption.
    + intros H; inversion H; subst;
        [apply MAltL; apply IH1 | apply MAltR; apply IH2]; assumption.
  - split.
    + intros H. inversion H as [| |? ? s1 s2 H1 H2| | | |]; subst.
      change (String c (s1 ++ s2)) with (String c s1 ++ s2).
      constructor; [apply IH1|]; assumption.
    + intros H. destruct (star_cons_inv _ _ _ H) as (s1 & s2 & -> & H1 & H2).
      constructor; [apply IH1|]; assumption.
Qed.

(** The derivative matcher decides the language. *)
Lemma test_matches (s : string) :
  forall r, test r s = true <-> matches r s.
Proof.
  induction s as [|c s IH]; intros r; simpl.
  - apply nullable_matches.
  - rewrite IH. apply derive_matches.
Qed.

End RegexMatcher.

Section NamePattern.

Import AeonDID.

Local Abbreviation chars := list_ascii_of_string.

Lemma chars_append (s1 s2 : string) : chars (s1 ++ s2) = (chars s1 ++ chars s2)%list.
Proof. induction s1; simpl; congruence. Qed.

Lemma class_matches_inv (p : ascii -> bool) (s : string) :
  matches (Class p) s -> exists c, s = String c EmptyString /\ p c = true.
Proof. intros H. inversion H; subst. eauto. Qed.

Lemma star_class_matches (p : ascii -> bool) (s : string) :
  matches (Star (Class p)) s <-> Forall (fun c => p c = true) (chars s).
Proof.
  split.
  - intros H. remember (Star (Class p)) as r eqn:Er.
    induction H as [| | | | | |r0 s1 s2 H1 _ H2 IH2]; try discriminate.
    + constructor.
    + injection Er as ->.
      destruct (class_matches_inv _ _ H1) as (c & -> & Hc).
      simpl. constructor; auto.
  - induction s as [|c s IH]; simpl; intros H.
    + constructor.
    + inversion H; subst.
      change (String c s) with (String c EmptyString ++ s).
      constructor; [constructor|]; auto.
Qed.

(** The two shapes of a word of the name pattern. *)
Lemma name_pattern_matches (s : string) :
  matches NAME_PATTERN s <->
  (exists c, s = String c EmptyString /\ lower_alnum c = true)
  \/ (exists c mid d,
         s = String c (mid ++ String d EmptyString)
         /\ lower_alnum c = true
         /\ Forall (fun x => lower_alnum_hyphen x = true) (chars mid)
         /\ lower_alnum d = true).
Proof.
  unfold NAME_PATTERN. split.
  - intros H. inversion H as [| | |? ? ? HL|? ? ? HR| |]; subst.
    + right.
      inversion HL as [| |? ? s1 s2 H1 H2| | | |]; subst.
      inversion H2 as [| |? ? s3 s4 H3 H4| | | |]; subst.
      destruct (class_matches_inv _ _ H1) as (c & -> & Hc).
      destruct (class_matches_inv _ _ H4) as (d & -> & Hd).
      apply star_class_matches in H3.
      exists c, s3, d. simpl. auto.
    + left. apply class_matches_inv in HR. exact HR.
  - intros [(c & -> & Hc)|(c & mid & d & -> & Hc & Hmid & Hd)].
    + apply MAltR. constructor. exact Hc.
    + apply MAltL.
      change (String c (mid ++ String d EmptyString))
        with (String c EmptyString ++ (mid ++ String d EmptyString)).
      constructor; [constructor; exact Hc|].
      constructor; [apply star_class_matches; exact Hmid | constructor; exact Hd].
Qed.

Lemma code_hyphen : code hyphen = 45.
Proof. reflexivity. Qed.

Lemma lower_alnum_iff (c : ascii) :
  lower_alnum c = true <-> lowercase_alphanumeric c.
Proof.
  unfold lower_alnum, in_range, lowercase_alphanumeric.
  rewrite orb_true_iff, !andb_true_iff, !Z.leb_le. tauto.
Qed.

Lemma lower_alnum_hyphen_iff (c : ascii) :
  lower_alnum_hyphen c = true <-> lowercase_alphanumeric c \/ c = hyphen.
Proof.
  unfold lower_alnum_hyphen, in_range, lowercase_alphanumeric.
  rewrite !orb_true_iff, !andb_true_iff, !Z.leb_le, Z.eqb_eq.
  split.
  - intros [[H|H]|H]; auto. right. apply code_inj. rewrite code_hyphen. exact H.
  - intros [[H|H]|H]; auto. right. subst. reflexivity.
Qed.

Lemma hyphen_not_alnum : ~ lowercase_alphanumeric hyphen.
Proof. unfold lowercase_alphanumeric. rewrite code_hyphen. lia. Qed.

(** A non-empty string is a front part followed by its last character. *)
Lemma last_char_split (s : string) :
  s <> EmptyString ->
  exists front d, s = front ++ String d EmptyString /\ last_char s = Some d.
Proof.
  induction s as [|c s IH]; intros Hs; [congruence|].
  destruct s as [|c' s'].
  - exists EmptyString, c. auto.
  - destruct IH as (front & d & E & L); [discriminate|].
    exists (String c front), d. simpl in *. rewrite E. auto.
Qed.

Lemma last_char_append (front : string) (d : ascii) :
  last_char (front ++ String d EmptyString) = Some d.
Proof.
  induction front as [|c front IH]; simpl; [reflexivity|].
  rewrite IH. destruct (front ++ String d EmptyString) eqn:E; [|reflexivity].
  apply append_empty_inv in E. destruct E; discriminate.
Qed.

(** What the pattern accepts, in terms of single characters. *)
Lemma test_name_pattern (s : string) :
  test NAME_PATTERN s = true <->
  s <> EmptyString
  /\ Forall (fun c => lowercase_alphanumeric c \/ c = hyphen) (chars s)
  /\ first_char s <> Some hyphen
  /\ last_char s <> Some hyphen.
Proof.
  rewrite test_matches, name_pattern_matches. split.
  - intros [(c & -> & Hc)|(c & mid & d & -> & Hc & Hmid & Hd)].
    + apply lower_alnum_iff in Hc. simpl.
      repeat split; try discriminate.
      * constructor; auto.
      * intros E. injection E as ->. exact (hyphen_not_alnum Hc).
      * intros E. injection E as ->. exact (hyphen_not_alnum Hc).
    + apply lower_alnum_iff in Hc. apply lower_alnum_iff in Hd.
      repeat split; try discriminate.
      * simpl. constructor; [auto|]. rewrite chars_append.
        apply Forall_app. split.
        -- eapply Forall_impl; [|exact Hmid]. intros x Hx.
           apply lower_alnum_hyphen_iff. exact Hx.
        -- simpl. constructor; auto.
      * simpl. intros E. injection E as ->. exact (hyphen_not_alnum Hc).
      * change (String c (mid ++ String d EmptyString))
          with (String c mid ++ String d EmptyString).
        rewrite last_char_append. intros E. injection E as ->.
        exact (hyphen_not_alnum Hd).
  - intros (Hs & Hall & Hfirst & Hlast).
    destruct s as [|c rest]; [congruence|].
    simpl in Hall. inversion Hall as [|? ? Hc Hrest]; subst.
    assert (Hc' : lower_alnum c = true).
    { apply lower_alnum_iff. destruct Hc as [Hc| ->]; [exact Hc|].
      simpl in Hfirst. congruence. }
    destruct rest as [|c' rest'].
    + left. eauto.
    + right.
      destruct (last_char_split (String c' rest')) as (mid & d & E & L);
        [discriminate|].
      rewrite E in *. clear E c' rest'.
      rewrite chars_append in Hrest. apply Forall_app in Hrest.
      destruct Hrest as [Hmid Hd]. simpl in Hd. inversion Hd as [|? ? Hd' _]; subst.
      exists c, mid, d. repeat split; auto.
      * eapply Forall_impl; [|exact Hmid]. intros x Hx.
        apply lower_alnum_hyphen_iff. exact Hx.
      * apply lower_alnum_iff. destruct Hd' as [Hd'| ->]; [exact Hd'|].
        exfalso. apply Hlast.
        change (String c (mid ++ String hyphen EmptyString))
          with (String c mid ++ String hyphen EmptyString).
        apply last_char_append.
Qed.

Lemma alnum_or_hyphen_dec (c : ascii) :
  {lowercase_alphanumeric c \/ c = hyphen}
  + {~ lowercase_alphanumeric c /\ c <> hyphen}.
Proof.
  destruct (lower_alnum_hyphen c) eqn:E.
  - left. apply lower_alnum_hyphen_iff. exact E.
  - right. split; intros H;
      assert (lower_alnum_hyphen c = true) by (apply lower_alnum_hyphen_iff; auto);
      congruence.
Qed.

Lemma option_eq_dec_ascii (a b : option ascii) : {a = b} + {a <> b}.
Proof. decide equality. apply ascii_dec. Qed.

(** The pattern rejects exactly the names the specification lists. *)
Lemma rejected_name_iff (s : string) :
  (s = EmptyString \/ test NAME_PATTERN s = false) <-> rejected_name s.
Proof.
  unfold rejected_name. split.
  - intros [Hs|Ht]; [auto|].
    destruct (string_dec s EmptyString) as [Hs|Hs]; [auto|].
    destruct (Exists_dec (fun c => ~ lowercase_alphanumeric c /\ c <> hyphen)
                         (chars s)) as [Hex|Hnex].
    { intros c. destruct (alnum_or_hyphen_dec c); [right|left]; tauto. }
    { right; left. apply Exists_exists in Hex. exact Hex. }
    destruct (option_eq_dec_ascii (first_char s) (Some hyphen)) as [Hf|Hf]; [auto|].
    destruct (option_eq_dec_ascii (last_char s) (Some hyphen)) as [Hl|Hl]; [auto|].
    exfalso.
    assert (test NAME_PATTERN s = true); [|congruence].
    apply test_name_pattern. repeat split; auto.
    apply Forall_forall. intros c Hc.
    destruct (alnum_or_hyphen_dec c) as [H|H]; [exact H|].
    exfalso. apply Hnex. apply Exists_exists. eauto.
  - intros H.
    destruct (string_dec s EmptyString) as [Hs|Hs]; [auto|]. right.
    destruct (test NAME_PATTERN s) eqn:Ht; [|reflexivity]. exfalso.
    apply test_name_pattern in Ht. destruct Ht as (_ & Hall & Hf & Hl).
    destruct H as [H|[(c & Hin & Hna & Hnh)|[H|H]]]; try congruence.
    rewrite Forall_forall in Hall. destruct (Hall c Hin); tauto.
Qed.

End NamePattern.

(** C9. [AeonDID.create(name)] throws exactly when the name is empty,
    contains a character that is neither a lowercase alphanumeric nor a
    hyphen, or starts or ends with a hyphen; otherwise it returns the
    document whose DID is ["did:aeon:" + name]. ["My_Agent"] is
    rejected, ["my-agent-2"] yields ["did:aeon:my-agent-2"]. *)
Theorem create_rejects_exactly_invalid_names :
  forall (name : string) (options : option CreateDIDOptions)
         (generatedKey : string) (now : Z),
    ((exists e, AeonDID.create name options generatedKey now = AeonDID.Thrown e)
     <-> rejected_name name)
    /\ ((exists doc, AeonDID.create name options generatedKey now
                     = AeonDID.Returned doc
                     /\ did doc = "did:aeon:" ++ name)
        <-> ~ rejected_name name)
    /\ AeonDID.create "My_Agent" options generatedKey now
       = AeonDID.Thrown AeonDID.INVALID_NAME
    /\ (exists doc, AeonDID.create "my-agent-2" options generatedKey now
                    = AeonDID.Returned doc
                    /\ did doc = "did:aeon:my-agent-2").
Proof.
  intros name options generatedKey now.
  assert (Hcases :
    (rejected_name name
     /\ AeonDID.create name options generatedKey now
        = AeonDID.Thrown AeonDID.INVALID_NAME)
    \/ (~ rejected_name name
        /\ exists doc, AeonDID.create name options generatedKey now
                       = AeonDID.Returned doc
                       /\ did doc = "did:aeon:" ++ name)).
  { unfold AeonDID.create.
    destruct (String.eqb_spec name EmptyString) as [He|He]; simpl.
    - left. split; [|reflexivity]. apply rejected_name_iff. auto.
    - destruct (AeonDID.test AeonDID.NAME_PATTERN name) eqn:Ht; simpl.
      + right. split.
        * intros Hr. apply rejected_name_iff in Hr.
          destruct Hr; congruence.
        * eexists. split; reflexivity.
      + left. split; [|reflexivity]. apply rejected_name_iff. auto. }
  split; [|split; [|split]].
  - split.
    + intros [e He]. destruct Hcases as [[Hr _]|[_ (doc & Hd & _)]];
        [exact Hr | congruence].
    + intros Hr. destruct Hcases as [[_ Ht]|[Hn _]]; [eauto | contradiction].
  - split.
    + intros (doc & Hd & _). destruct Hcases as [[_ Ht]|[Hn _]];
        [congruence | exact Hn].
    + intros Hn. destruct Hcases as [[Hr _]|[_ Hd]]; [contradiction | exact Hd].
  - reflexivity.
  - eexists. split; reflexivity.
Qed.

(* ================================================================== *)
(** * A2gClient: correlation, disconnect and reconnect                 *)
(* ================================================================== *)

Section PendingMap.

Import A2gClient.

Context {A : Type}.


Lemma Map_get_None_notin (m : list (string * A)) (k : string) :
  Map_get m k = None <-> ~ In k (map fst m).
Proof.
  unfold Map_get. induction m as [|[k' v'] m IH]; simpl.
  - tauto.
  - destruct (String.eqb_spec k' k); split; intros H.
    + discriminate.
    + exfalso. auto.
    + intros [E|Hin]; [congruence | apply IH in Hin; auto].
    + apply IH. intros Hin. auto.
Qed.

Lemma Map_delete_keys_incl (m : list (string * A)) (k k' : string) :
  In k' (map fst (Map_delete m k)) -> In k' (map fst m).
Proof.
  induction m as [|[k0 v0] m IH]; simpl; [auto|].
  destruct (String.eqb_spec k0 k); simpl; intuition.
Qed.

(** Deleting a key of a map (keys are unique) leaves no entry for it. *)
Lemma Map_get_delete (m : list (string * A)) (k : string) :
  NoDup (map fst m) -> Map_get (Map_delete m k) k = None.
Proof.
  intros Hnd. apply Map_get_None_notin.
  induction m as [|[k0 v0] m IH]; simpl in *; [auto|].
  inversion Hnd as [|? ? Hnotin Hnd']; subst.
  destruct (String.eqb_spec k0 k); simpl.
  - subst. exact Hnotin.
  - intros [E|Hin]; [congruence | exact (IH Hnd' Hin)].
Qed.

(** Deleting never brings a key back. *)
Lemma Map_get_delete_None (m : list (string * A)) (k k' : string) :
  Map_get m k = None -> Map_get (Map_delete m k') k = None.
Proof.
  rewrite !Map_get_None_notin. intros H Hin.
  apply H. eapply Map_delete_keys_incl. exact Hin.
Qed.

Lemma Map_delete_NoDup (m : list (string * A)) (k : string) :
  NoDup (map fst m) -> NoDup (map fst (Map_delete m k)).
Proof.
  induction m as [|[k0 v0] m IH]; simpl; intros Hnd; [constructor|].
  inversion Hnd as [|? ? Hnotin Hnd']; subst.
  destruct (String.eqb_spec k0 k); simpl; [exact Hnd'|].
  constructor; [|auto].
  intros Hin. apply Hnotin. eapply Map_delete_keys_incl. exact Hin.
Qed.

Lemma Map_set_keys (m : list (string * A)) (k : string) (v : A) (k' : string) :
  In k' (map fst (Map_set m k v)) <-> k' = k \/ In k' (map fst m).
Proof.
  induction m as [|[k0 v0] m IH]; simpl.
  - intuition.
  - destruct (String.eqb_spec k0 k); simpl.
    + subst. intuition.
    + rewrite IH. intuition.
Qed.

(** [Map.set] keeps keys unique. *)
Lemma Map_set_NoDup (m : list (string * A)) (k : string) (v : A) :
  NoDup (map fst m) -> NoDup (map fst (Map_set m k v)).
Proof.
  induction m as [|[k0 v0] m IH]; simpl; intros Hnd.
  - constructor; [auto | constructor].
  - inversion Hnd as [|? ? Hnotin Hnd']; subst.
    destruct (String.eqb_spec k0 k); simpl.
    + subst. constructor; assumption.
    + constructor; [|auto].
      rewrite Map_set_keys. intros [E|Hin]; [congruence | auto].
Qed.

End PendingMap.

Section Correlator.

Import A2gClient.

(** What [on_message] does when the id of the response has an entry. *)
Lemma on_message_hit (c : client) (response : value) (id : string)
  (pending : PendingRequest) :
  Get (spread response) "id" = VStr id ->
  Map_get (pendingRequests c) id = Some pending ->
  on_message c (Some response)
  = (set_pendingRequests c (Map_delete (pendingRequests c) id),
     [ClearTimeout (timeout pending); Resolve (promise pending) response]).
Proof.
  intros Hid Hget. unfold on_message.
  destruct response; try discriminate Hid; rewrite Hid, Hget; reflexivity.
Qed.

(** What it does when there is none: nothing at all. *)
Lemma on_message_miss (c : client) (response : value) (id : string) :
  Get (spread response) "id" = VStr id ->
  Map_get (pendingRequests c) id = None ->
  on_message c (Some response) = (c, []).
Proof.
  intros Hid Hget. unfold on_message.
  destruct response; try discriminate Hid; rewrite Hid, Hget; reflexivity.
Qed.

(** [on_message] leaves the table alone or deletes one key from it. *)
Lemma on_message_cases (c : client) (parsed : option value) :
  (exists effs, on_message c parsed = (c, effs))
  \/ (exists id effs,
         on_message c parsed
         = (set_pendingRequests c (Map_delete (pendingRequests c) id), effs)).
Proof.
  unfold on_message.
  destruct parsed as [response|]; [|eauto].
  destruct response; eauto;
    match goal with
    | |- context [match ?x with _ => _ end] => destruct x; eauto
    end;
    match goal with
    | |- context [match ?x with _ => _ end] => destruct x; eauto
    end.
Qed.

(** [on_message] only ever removes entries. *)
Lemma on_message_keeps_absent (c : client) (parsed : option value) (id : string) :
  Map_get (pendingRequests c) id = None ->
  Map_get (pendingRequests (fst (on_message c parsed))) id = None.
Proof.
  intros Habs.
  destruct (on_message_cases c parsed) as [(effs & E)|(id' & effs & E)];
    rewrite E; simpl; [exact Habs|].
  apply Map_get_delete_None. exact Habs.
Qed.

Lemma on_messages_keeps_absent (inbound : list (option value)) :
  forall (c : client) (id : string),
    Map_get (pendingRequests c) id = None ->
    Map_get (pendingRequests (fst (on_messages c inbound))) id = None.
Proof.
  induction inbound as [|parsed rest IH]; intros c id Habs; simpl; [exact Habs|].
  pose proof (on_message_keeps_absent c parsed id Habs) as H1.
  destruct (on_message c parsed) as [c1 effs1]. simpl in H1.
  specialize (IH c1 id H1).
  destruct (on_messages c1 rest) as [c2 effs2]. exact IH.
Qed.

End Correlator.

Section ClientClaims.

Import A2gClient.

(** The keys of [pendingRequests] stay unique under every method and
    handler: it is a [Map]. *)
Lemma pending_keys_unique_preserved (c : client) :
  NoDup (map fst (pendingRequests c)) ->
  (forall parsed, NoDup (map fst (pendingRequests (fst (on_message c parsed)))))
  /\ (forall ids intent,
         NoDup (map fst (pendingRequests (fst (register_and_send c ids intent)))))
  /\ (forall id ms p,
         NoDup (map fst (pendingRequests (fst (on_request_timeout c id ms p)))))
  /\ NoDup (map fst (pendingRequests (fst (disconnect c))))
  /\ (forall code random timer,
         NoDup (map fst (pendingRequests (fst (on_close c code random timer))))).
Proof.
  intros Hnd. repeat split.
  - intros parsed.
    destruct (on_message_cases c parsed) as [(effs & E)|(id' & effs & E)];
      rewrite E; simpl; [exact Hnd | apply Map_delete_NoDup; exact Hnd].
  - intros ids intent. simpl. apply Map_set_NoDup. exact Hnd.
  - intros id ms p. simpl. apply Map_delete_NoDup. exact Hnd.
  - simpl. constructor.
  - intros code random timer. unfold on_close, scheduleReconnect.
    destruct (negb (code =? 1000) && _); simpl; [|constructor].
    destruct (isReconnecting c || _); simpl; constructor.
Qed.

(** C6. When the id of an inbound message has a pending entry, the
    handler cancels the entry's deadline timer, resolves its promise
    with the parsed response and removes the entry; from then on, and
    after any further inbound traffic, a message carrying the same id
    finds no entry and is ignored: no effect (no second resolve, no
    error path) and no change of state. *)
Theorem message_settles_pending_once :
  forall (c : client) (response : value) (id : string) (pending : PendingRequest),
    NoDup (map fst (pendingRequests c)) ->
    Get (spread response) "id" = VStr id ->
    Map_get (pendingRequests c) id = Some pending ->
    let c1 := fst (on_message c (Some response)) in
    on_message c (Some response)
    = (set_pendingRequests c (Map_delete (pendingRequests c) id),
       [ClearTimeout (timeout pending); Resolve (promise pending) response])
    /\ Map_get (pendingRequests c1) id = None
    /\ on_message c1 (Some response) = (c1, [])
    /\ (forall (later : list (option value)) (second : value),
           Get (spread second) "id" = VStr id ->
           let c2 := fst (on_messages c1 later) in
           on_message c2 (Some second) = (c2, [])).
Proof.
  intros c response id pending Hnd Hid Hget c1.
  pose proof (on_message_hit c response id pending Hid Hget) as Hhit.
  assert (Habs : Map_get (pendingRequests c1) id = None).
  { subst c1. rewrite Hhit. simpl. apply Map_get_delete. exact Hnd. }
  split; [exact Hhit|]. split; [exact Habs|]. split.
  - apply (on_message_miss c1 response id Hid Habs).
  - intros later second Hid2 c2.
    apply (on_message_miss c2 second id Hid2).
    subst c2. apply on_messages_keeps_absent. exact Habs.
Qed.

Lemma message_settles_pending_once_witness :
  let c := mkClient "ws://localhost:3000" "did:aeon:a"
                    (mkConfig None None None None None) (Some OPEN)
                    [("r1", mkPending 1 11); ("r2", mkPending 2 12)] 0 false [] in
  let verdict := VObj [("jsonrpc", VStr "2.0"); ("id", VStr "r1");
                       ("result", VObj [("verdict", VStr "APPROVED")])] in
  let other := VObj [("jsonrpc", VStr "2.0"); ("id", VStr "r2")] in
  let c1 := fst (on_message c (Some verdict)) in
  snd (on_message c (Some verdict)) = [ClearTimeout 11; Resolve 1 verdict]
  /\ pendingRequests c1 = [("r2", mkPending 2 12)]
  /\ on_message (fst (on_messages c1 [Some other; None])) (Some verdict)
     = (fst (on_messages c1 [Some other; None]), []).
Proof.
  intros c verdict other c1.
  assert (Hnd : NoDup (map fst (pendingRequests c))).
  { simpl. repeat constructor; simpl; intuition discriminate. }
  destruct (message_settles_pending_once
              c verdict "r1" (mkPending 1 11) Hnd eq_refl eq_refl)
    as (Hhit & _ & _ & Hlater).
  split; [rewrite Hhit; reflexivity|].
  split; [reflexivity|].
  apply (Hlater [Some other; None] verdict eq_refl).
Defined.

Lemma reject_all_spec (pending : list (string * PendingRequest)) (error : string) :
  (forall id p, In (id, p) pending ->
                In (ClearTimeout (timeout p)) (reject_all pending error)
                /\ In (Reject (promise p) error) (reject_all pending error))
  /\ List.length (filter is_reject (reject_all pending error)) = List.length pending
  /\ (forall p e, In (Reject p e) (reject_all pending error) -> e = error)
  /\ filter is_setTimeout (reject_all pending error) = [].
Proof.
  unfold reject_all. induction pending as [|[id0 p0] rest IH]; simpl.
  - repeat split; intros; contradiction.
  - destruct IH as (Hall & Hlen & Hid & Hset). repeat split.
    + destruct H as [E|Hin]; [injection E as <- <-; auto|].
      right; right. apply (Hall id p Hin).
    + destruct H as [E|Hin]; [injection E as <- <-; auto|].
      right; right. apply (Hall id p Hin).
    + rewrite Hlen. reflexivity.
    + intros p e [E|[E|Hin]]; [discriminate | congruence | eauto].
    + exact Hset.
Qed.

Lemma base_delay_pow (n : nat) :
  (1 <= n)%nat ->
  BASE_RECONNECT_DELAY_MS * 2 ^ Z.of_nat (n - 1) = 1000 * 2 ^ (Z.of_nat n - 1).
Proof.
  intros Hn. unfold BASE_RECONNECT_DELAY_MS.
  replace (Z.of_nat (n - 1)) with (Z.of_nat n - 1) by lia. reflexivity.
Qed.

(** C8. With [Math.random()] in [0, 1): the N-th reconnect attempt
    (N = previous count + 1, so N starts at 1) is scheduled with a delay
    between [min(1000 * 2^(N-1), 30000)] and that plus 1000; once the
    counter has reached 5, [scheduleReconnect], and with it the close
    handler and the retry after a failed reconnect, schedules nothing
    and leaves the counter where it is. Delays are rationals here:
    every float the code computes is exact or rounded inside the
    closed interval. *)
Theorem reconnect_delay_bounds :
  forall (c : client) (random : Q) (timer : nat),
    (0 <= random)%Q -> (random < 1)%Q ->
    (isReconnecting c = false -> (reconnectAttempt c < 5)%nat ->
     let N := S (reconnectAttempt c) in
     let floor := inject_Z (Z.min (1000 * 2 ^ (Z.of_nat N - 1)) 30000) in
     exists delay,
       scheduleReconnect c random timer
       = (set_reconnectAttempt (set_isReconnecting c true) N,
          [ConsoleLog "A2G: Reconnecting"; SetTimeout timer ReconnectTimer delay])
       /\ (floor <= delay)%Q /\ (delay <= floor + inject_Z 1000)%Q)
    /\ ((5 <= reconnectAttempt c)%nat ->
        scheduleReconnect c random timer
        = (c, [ConsoleError "A2G: Max reconnection attempts (5) reached"])
        /\ filter is_setTimeout (snd (on_reconnect_failed c random timer)) = []
        /\ reconnectAttempt (fst (on_reconnect_failed c random timer))
           = reconnectAttempt c
        /\ (forall code,
               filter is_setTimeout (snd (on_close c code random timer)) = []
               /\ reconnectAttempt (fst (on_close c code random timer))
                  = reconnectAttempt c)).
Proof.
  intros c random timer Hlo Hhi. split.
  - intros Hrec Hlt N floor.
    unfold scheduleReconnect. rewrite Hrec. cbn [orb].
    replace (MAX_RECONNECT_ATTEMPTS <=? reconnectAttempt c)%nat with false
      by (symmetry; apply Nat.leb_gt; exact Hlt).
    eexists. split; [reflexivity|].
    cbn [reconnectAttempt set_reconnectAttempt].
    rewrite base_delay_pow by lia. fold N. fold floor.
    change (inject_Z 1000) with (1000 # 1)%Q.
    split; lra.
  - intros Hmax.
    assert (Hguard : forall b, (b || (MAX_RECONNECT_ATTEMPTS <=? reconnectAttempt c)%nat)
                               = true).
    { intros b. apply orb_true_iff. right. apply Nat.leb_le. exact Hmax. }
    split; [|split; [|split]].
    + unfold scheduleReconnect. rewrite Hguard. reflexivity.
    + unfold on_reconnect_failed, scheduleReconnect.
      cbn [isReconnecting reconnectAttempt set_isReconnecting].
      rewrite Hguard. reflexivity.
    + unfold on_reconnect_failed, scheduleReconnect.
      cbn [isReconnecting reconnectAttempt set_isReconnecting].
      rewrite Hguard. reflexivity.
    + intros code. unfold on_close, scheduleReconnect.
      cbn [isReconnecting reconnectAttempt set_pendingRequests set_ws].
      rewrite Hguard.
      destruct (reject_all_spec (pendingRequests c) "Connection closed")
        as (_ & _ & _ & Hset).
      destruct (negb (code =? 1000) && _); cbn [fst snd reconnectAttempt];
        (split; [|reflexivity]);
        cbn [filter is_setTimeout]; rewrite filter_app, Hset; reflexivity.
Qed.

Lemma reconnect_delay_bounds_witness :
  let c := mkClient "wss://engine.example" "did:aeon:a"
                    (mkConfig None None None None None) None [] 2 false [] in
  (exists delay,
      snd (scheduleReconnect c (1 # 2) 7)
      = [ConsoleLog "A2G: Reconnecting"; SetTimeout 7 ReconnectTimer delay]
      /\ (inject_Z 4000 <= delay)%Q /\ (delay <= inject_Z 4000 + inject_Z 1000)%Q)
  /\ scheduleReconnect (set_reconnectAttempt c 5) (1 # 2) 7
     = (set_reconnectAttempt c 5,
        [ConsoleError "A2G: Max reconnection attempts (5) reached"]).
Proof.
  intros c. split.
  - destruct (proj1 (reconnect_delay_bounds c (1 # 2) 7
                       ltac:(unfold Qle; simpl; lia) ltac:(unfold Qlt; simpl; lia))
                    eq_refl ltac:(simpl; lia))
      as (delay & Hs & Hl & Hu).
    exists delay. rewrite Hs. auto.
  - apply (proj2 (reconnect_delay_bounds (set_reconnectAttempt c 5) (1 # 2) 7
                    ltac:(unfold Qle; simpl; lia) ltac:(unfold Qlt; simpl; lia))).
    simpl. lia.
Defined.

(** C10. A configured timeout of 0 is falsy and is replaced by the
    default: with [requestTimeoutMs = 0], [requestIntent] (source and
    compiled build) arms its deadline with 5000 ms, and with
    [connectionTimeoutMs = 0], [connect] arms the connection timeout
    with 10000 ms; neither arms any other timer. *)
Theorem zero_timeouts_fall_back_to_defaults :
  forall (Signer_sign : string -> message -> option SignOptions -> Env -> Signature)
         (c : client) (tool : string) (args : list (string * value))
         (context : option nat) (ids : RequestIds) (env : Env)
         (connect_promise timer : nat),
    (requestTimeoutMs (config c) = Some 0 ->
     let armed := [SetTimeout (request_timer ids)
                     (RequestTimeout (requestId ids) 5000 (request_promise ids))
                     (inject_Z 5000)] in
     filter is_setTimeout
            (snd (requestIntent Signer_sign c tool args context ids env)) = armed
     /\ filter is_setTimeout
               (snd (A2gClientDist.requestIntent Signer_sign c tool args context
                                                 ids env)) = armed)
    /\ (connectionTimeoutMs (config c) = Some 0 ->
        filter is_setTimeout (snd (connect Signer_sign c connect_promise timer env))
        = [SetTimeout timer (ConnectionTimeout connect_promise) (inject_Z 10000)]).
Proof.
  intros Signer_sign c tool args context ids env connect_promise timer. split.
  - intros Hcfg armed.
    assert (Hc : config (remember_intent c context (intentId ids)) = config c).
    { unfold remember_intent. destruct context; reflexivity. }
    assert (Hw : ws (remember_intent c context (intentId ids)) = ws c).
    { unfold remember_intent. destruct context; reflexivity. }
    split.
    + unfold requestIntent, register_and_send. rewrite Hc, Hw, Hcfg.
      cbn [or_number Z.eqb]. unfold DEFAULT_TIMEOUT_MS.
      destruct (truthy_string (signingKey (config c))), (ws c); reflexivity.
    + unfold A2gClientDist.requestIntent, register_and_send. rewrite Hc, Hw, Hcfg.
      cbn [or_number Z.eqb]. unfold DEFAULT_TIMEOUT_MS.
      destruct (ws c); reflexivity.
  - intros Hcfg. unfold connect. rewrite Hcfg. reflexivity.
Qed.

Lemma zero_timeouts_fall_back_to_defaults_witness :
  let c := mkClient "ws://localhost:3000" "did:aeon:a"
                    (mkConfig None None (Some 0) (Some 0) None)
                    (Some OPEN) [] 0 false [] in
  let ids := mkIds "i1" "r1" 1 2 in
  filter is_setTimeout
         (snd (requestIntent Signer.sign c "write_file" [("path", VStr "/tmp/x")]
                             None ids (mkEnv 1000 "n1")))
  = [SetTimeout 2 (RequestTimeout "r1" 5000 1) (inject_Z 5000)]
  /\ filter is_setTimeout (snd (connect Signer.sign c 3 4 (mkEnv 1000 "n1")))
     = [SetTimeout 4 (ConnectionTimeout 3) (inject_Z 10000)].
Proof.
  intros c ids. split.
  - apply (proj1 (zero_timeouts_fall_back_to_defaults
                    Signer.sign c "write_file" [("path", VStr "/tmp/x")] None ids
                    (mkEnv 1000 "n1") 3 4)).
    reflexivity.
  - apply (proj2 (zero_timeouts_fall_back_to_defaults
                    Signer.sign c "write_file" [("path", VStr "/tmp/x")] None ids
                    (mkEnv 1000 "n1") 3 4)).
    reflexivity.
Defined.

End ClientClaims.

(* ================================================================== *)
(** * The event loop: every promise is settled at most once             *)
(* ================================================================== *)

Section Settlement.

Import A2gClient.
















End Settlement.

(* ================================================================== *)
(** * requestIntent: what the attached signature covers                *)
(* ================================================================== *)

Section IntentSigning.

Import A2gClient.

Variable Signer_sign : string -> message -> option SignOptions -> Env -> Signature.

Lemma truthy_string_key (key : string) :
  key <> EmptyString ->
  truthy_string (Some key) = true /\ or_string (Some key) EmptyString = key.
Proof.
  intros Hk. unfold truthy_string, or_string.
  destruct (String.eqb_spec key EmptyString); [congruence | auto].
Qed.

(** The source signs the agent's DID and nothing else. *)
Lemma build_intent_src (c : client) (tool : string) (args : list (string * value))
  (ids : RequestIds) (env : Env) (key : string) :
  signingKey (config c) = Some key -> key <> EmptyString ->
  build_intent Signer_sign c tool args ids env
  = intent_message
      (intent_params (agentDid c) (intentId ids) tool args
       ++ [("context",
            VObj [("signature",
                   signature_value
                     (Signer_sign key (MsgString (agentDid c)) None env))])])%list
      (requestId ids).
Proof.
  intros Hcfg Hk. destruct (truthy_string_key key Hk) as [Ht Ho].
  unfold build_intent, sign_intent. rewrite Hcfg, Ht, Ho. reflexivity.
Qed.

Lemma paramsForSignature_fresh (agentDid intentId tool : string)
  (args : list (string * value)) :
  A2gClientDist.paramsForSignature (intent_params agentDid intentId tool args)
  = params_without_signature agentDid intentId tool args.
Proof. reflexivity. Qed.

(** The compiled build signs the parameter object. *)
Lemma build_intent_dist (c : client) (tool : string) (args : list (string * value))
  (ids : RequestIds) (env : Env) (key : string) :
  signingKey (config c) = Some key -> key <> EmptyString ->
  A2gClientDist.build_intent Signer_sign c tool args ids env
  = intent_message
      (intent_params (agentDid c) (intentId ids) tool args
       ++ [("context",
            VObj [("signature",
                   signature_value
                     (Signer_sign key
                        (MsgObject (params_without_signature
                                      (agentDid c) (intentId ids) tool args))
                        None env))])])%list
      (requestId ids).
Proof.
  intros Hcfg Hk. destruct (truthy_string_key key Hk) as [Ht Ho].
  unfold A2gClientDist.build_intent, A2gClientDist.sign_intent.
  rewrite Hcfg, Ht, Ho, paramsForSignature_fresh. reflexivity.
Qed.

Lemma signs_params_object_dist :
  signs_params_object Signer_sign (A2gClientDist.build_intent Signer_sign).
Proof.
  intros c tool args ids env key Hcfg Hk.
  rewrite (build_intent_dist c tool args ids env key Hcfg Hk). reflexivity.
Qed.

End IntentSigning.

(** The hash [src/client.ts] attaches with key ["k"] is the HMAC of the
    identity payload. *)
Example requestIntent_identity_payload :
  sent_signature
    (A2gClient.build_intent Signer.sign
       (A2gClient.mkClient "ws://localhost:3000" "did:aeon:a"
          (A2gClient.mkConfig None (Some "k") None None None)
          (Some A2gClient.OPEN) [] 0 false [])
       "write_file" [("path", VStr "/tmp/x")] (A2gClient.mkIds "i1" "r1" 1 2)
       (mkEnv 1000 "n1"))
  = VObj [("timestamp", VStr "1000"); ("nonce", VStr "n1");
          ("hash", VStr (Crypto.createHmac_sha256_hex "k" "1000:n1:did:aeon:a"))].
Proof. vm_compute. reflexivity. Qed.

(** With a signing key configured, [requestIntent] of [src/client.ts]
    computes the signature over the agent's DID string; the message it
    sends carries [agent_did], [intent_id], [tool], [arguments] and a
    [context] whose only field is that signature. The compiled
    [client.js] is the one that signs the parameter object (with a
    [context] that holds no signature). *)
Lemma requestIntent_signs_agent_did :
  forall (Signer_sign : string -> message -> option SignOptions -> Env -> Signature)
         (c : A2gClient.client) (tool : string) (args : list (string * value))
         (context : option nat) (ids : A2gClient.RequestIds) (env : Env)
         (key : string),
    A2gClient.signingKey (A2gClient.config c) = Some key ->
    key <> EmptyString ->
    let sig := Signer_sign key (MsgString (A2gClient.agentDid c)) None env in
    let intent := A2gClient.build_intent Signer_sign c tool args ids env in
    sent_signature intent = A2gClient.signature_value sig
    /\ sent_params intent
       = [("agent_did", VStr (A2gClient.agentDid c));
          ("intent_id", VStr (A2gClient.intentId ids));
          ("tool", VStr tool); ("arguments", VObj args);
          ("context", VObj [("signature", A2gClient.signature_value sig)])]
    /\ (A2gClient.ws c <> None ->
        In (A2gClient.WsSend (template (JSON_stringify intent None)))
           (snd (A2gClient.requestIntent Signer_sign c tool args context ids env)))
    /\ signs_params_object Signer_sign (A2gClientDist.build_intent Signer_sign).
Proof.
  intros Signer_sign c tool args context ids env key Hcfg Hk sig intent.
  subst sig intent.
  rewrite (build_intent_src Signer_sign c tool args ids env key Hcfg Hk).
  split; [reflexivity|]. split; [reflexivity|]. split.
  - intros Hws.
    assert (Hr : forall x,
      A2gClient.build_intent Signer_sign
        (A2gClient.remember_intent c context x) tool args ids env
      = A2gClient.build_intent Signer_sign c tool args ids env).
    { intros x. unfold A2gClient.remember_intent. destruct context; reflexivity. }
    assert (Hw : forall x,
      A2gClient.ws (A2gClient.remember_intent c context x) = A2gClient.ws c).
    { intros x. unfold A2gClient.remember_intent. destruct context; reflexivity. }
    assert (Hc : forall x,
      A2gClient.config (A2gClient.remember_intent c context x) = A2gClient.config c).
    { intros x. unfold A2gClient.remember_intent. destruct context; reflexivity. }
    unfold A2gClient.requestIntent, A2gClient.register_and_send.
    rewrite Hr, Hw, Hc, Hcfg.
    rewrite (build_intent_src Signer_sign c tool args ids env key Hcfg Hk).
    destruct (A2gClient.ws c); [|congruence].
    destruct (truthy_string (Some key)); simpl; auto.
  - apply signs_params_object_dist.
Qed.


(* ================================================================== *)
(** * Canonical form: sorted keys and key-order invariance             *)
(* ================================================================== *)

Section SortedKeys.

Lemma ascii_compare_N (x y : ascii) :
  Ascii.compare x y = N.compare (N_of_ascii x) (N_of_ascii y).
Proof. reflexivity. Qed.

Lemma string_leb_trans (a : string) :
  forall b c, String.leb a b = true -> String.leb b c = true ->
              String.leb a c = true.
Proof.
  unfold String.leb.
  induction a as [|x a IH]; intros [|y b] [|z c]; simpl; try congruence.
  rewrite !ascii_compare_N.
  destruct (N.compare_spec (N_of_ascii x) (N_of_ascii y)) as [Exy|Lxy|Gxy];
    destruct (N.compare_spec (N_of_ascii y) (N_of_ascii z)) as [Eyz|Lyz|Gyz];
    destruct (N.compare_spec (N_of_ascii x) (N_of_ascii z)) as [Exz|Lxz|Gxz];
    try congruence; try lia.
  apply IH.
Qed.

Lemma insert_sorted_comm (x y : string) (l : list string) :
  insert_sorted x (insert_sorted y l) = insert_sorted y (insert_sorted x l).
Proof.
  induction l as [|h t IH]; simpl.
  - destruct (String.leb x y) eqn:Exy, (String.leb y x) eqn:Eyx; try reflexivity.
    + rewrite (String.leb_antisym _ _ Exy Eyx). reflexivity.
    + destruct (String.leb_total x y); congruence.
  - destruct (String.leb y h) eqn:Eyh, (String.leb x h) eqn:Exh; simpl;
      rewrite ?Eyh, ?Exh.
    + destruct (String.leb x y) eqn:Exy, (String.leb y x) eqn:Eyx; try reflexivity.
      * rewrite (String.leb_antisym _ _ Exy Eyx). reflexivity.
      * destruct (String.leb_total x y); congruence.
    + destruct (String.leb x y) eqn:Exy; [|reflexivity].
      rewrite (string_leb_trans _ _ _ Exy Eyh) in Exh. discriminate.
    + destruct (String.leb y x) eqn:Eyx; [|reflexivity].
      rewrite (string_leb_trans _ _ _ Eyx Exh) in Eyh. discriminate.
    + rewrite IH. reflexivity.
Qed.

(** Sorting forgets the order the keys came in. *)
Lemma Array_sort_Permutation (l l' : list string) :
  Permutation l l' -> Array_sort l = Array_sort l'.
Proof.
  induction 1; simpl.
  - reflexivity.
  - congruence.
  - apply insert_sorted_comm.
  - congruence.
Qed.

Lemma insert_sorted_In (x k : string) (l : list string) :
  In k (insert_sorted x l) <-> k = x \/ In k l.
Proof.
  induction l as [|h t IH]; simpl.
  - intuition.
  - destruct (String.leb x h); simpl; [intuition|]. rewrite IH. intuition.
Qed.

Lemma Array_sort_In (k : string) (l : list string) :
  In k (Array_sort l) <-> In k l.
Proof.
  induction l as [|h t IH]; simpl; [tauto|].
  rewrite insert_sorted_In, IH. intuition.
Qed.

End SortedKeys.

Section KeyOrderInvariance.

Lemma get_map_values {A B : Type} (f : A -> B) (k : string)
  (props : list (string * A)) :
  get k (map (fun kv => (fst kv, f (snd kv))) props) = option_map f (get k props).
Proof.
  induction props as [|[k' v] rest IH]; simpl; [reflexivity|].
  destruct (k' =? k)%string; [reflexivity | exact IH].
Qed.

Lemma get_Some_iff_key {A : Type} (k : string) (props : list (string * A)) :
  (exists v, get k props = Some v) <-> In k (map fst props).
Proof.
  induction props as [|[k' v] rest IH]; simpl.
  - split; [intros [v H]; discriminate | contradiction].
  - destruct (String.eqb_spec k' k) as [E|E].
    + split; [auto | eauto].
    + rewrite IH. split; [auto | intros [H|H]; [congruence | exact H]].
Qed.

Lemma get_None_iff_key {A : Type} (k : string) (props : list (string * A)) :
  get k props = None <-> ~ In k (map fst props).
Proof.
  rewrite <- get_Some_iff_key. destruct (get k props).
  - split; [discriminate | intros H; exfalso; eauto].
  - split; [intros _ [v H]; discriminate | reflexivity].
Qed.

(** Lists of equal length whose elements have the same image position
    by position have the same image. *)
Lemma map_pointwise {B : Type} (f : value -> B) (xs : list value) :
  forall ys,
    List.length xs = List.length ys ->
    (forall i x y, nth_error xs i = Some x -> nth_error ys i = Some y -> f x = f y) ->
    map f xs = map f ys.
Proof.
  induction xs as [|x xs IH]; intros [|y ys] Hlen Hpt; simpl in *; try discriminate.
  - reflexivity.
  - f_equal.
    + apply (Hpt 0%nat); reflexivity.
    + apply IH; [congruence|]. intros i a b. apply (Hpt (S i)).
Qed.

(** Key by key, two objects with the same keys read alike under [f]
    when their values do. *)
Lemma get_pointwise {B : Type} (f : value -> B) (ps qs : list (string * value)) :
  Permutation (map fst ps) (map fst qs) ->
  (forall k x y, get k ps = Some x -> get k qs = Some y -> f x = f y) ->
  forall k, option_map f (get k ps) = option_map f (get k qs).
Proof.
  intros Hperm Hpt k.
  destruct (get k ps) as [x|] eqn:Ep, (get k qs) as [y|] eqn:Eq; simpl.
  - f_equal. eauto.
  - exfalso. apply get_None_iff_key in Eq. apply Eq.
    eapply Permutation_in; [exact Hperm|]. apply get_Some_iff_key. eauto.
  - exfalso. apply get_None_iff_key in Ep. apply Ep.
    eapply Permutation_in; [apply Permutation_sym; exact Hperm|].
    apply get_Some_iff_key. eauto.
  - reflexivity.
Qed.

(** Under a property list, serialization does not see key order. *)
Lemma SerializeJSONProperty_key_order (a b : value) :
  same_up_to_key_order a b ->
  forall K, SerializeJSONProperty (Some K) a = SerializeJSONProperty (Some K) b.
Proof.
  induction 1 as [| | | | |xs ys Hlen _ IH|ps qs Hnd Hperm _ IH]; intros K;
    try reflexivity.
  - cbn [SerializeJSONProperty].
    rewrite (map_pointwise
               (fun x => match SerializeJSONProperty (Some K) x with
                         | Some s => s
                         | None => "null"
                         end) xs ys Hlen); [reflexivity|].
    intros i x y Hx Hy. rewrite (IH i x y Hx Hy K). reflexivity.
  - cbn [SerializeJSONProperty].
    match goal with
    | |- Some (_ ++ String.concat _ (flat_map ?f K) ++ _)
         = Some (_ ++ String.concat _ (flat_map ?g K) ++ _) =>
        rewrite (flat_map_ext f g); [reflexivity|]
    end.
    intros P. rewrite !get_map_values.
    rewrite (get_pointwise (SerializeJSONProperty (Some K)) ps qs Hperm
               (fun k x y Hx Hy => IH k x y Hx Hy K) P).
    reflexivity.
Qed.

Lemma Object_keys_key_order (a b : value) :
  same_up_to_key_order a b ->
  Array_sort (Object_keys a) = Array_sort (Object_keys b).
Proof.
  destruct 1; try reflexivity.
  - simpl. congruence.
  - simpl. apply Array_sort_Permutation. assumption.
Qed.

(** [src/signer.ts]: the canonical text does not depend on key order. *)
Lemma stableStringify_key_order (a b : value) :
  same_up_to_key_order a b ->
  Signer.stableStringify a = Signer.stableStringify b.
Proof.
  intros H. unfold Signer.stableStringify, JSON_stringify. simpl option_map.
  rewrite (Object_keys_key_order a b H).
  apply SerializeJSONProperty_key_order. exact H.
Qed.

Lemma fold_left_ext_in {A B : Type} (f g : A -> B -> A) (l : list B) :
  (forall acc k, In k l -> f acc k = g acc k) ->
  forall acc, fold_left f l acc = fold_left g l acc.
Proof.
  induction l as [|k l IH]; intros Hfg acc; simpl; [reflexivity|].
  rewrite (Hfg acc k) by (left; reflexivity).
  apply IH. intros acc' k' Hin. apply Hfg. right. exact Hin.
Qed.

(** [dist/src/signer.js]: [sortKeys] sends payloads that differ in key
    order only to the same value. *)
Lemma sortKeys_key_order (a b : value) :
  same_up_to_key_order a b -> SignerDist.sortKeys a = SignerDist.sortKeys b.
Proof.
  induction 1 as [| | | | |xs ys Hlen _ IH|ps qs Hnd Hperm _ IH]; try reflexivity.
  - simpl. f_equal. apply map_pointwise; assumption.
  - simpl. f_equal.
    rewrite (Array_sort_Permutation _ _ Hperm).
    apply fold_left_ext_in. intros next key Hin. f_equal.
    unfold Get. rewrite !get_map_values.
    rewrite (get_pointwise SignerDist.sortKeys ps qs Hperm IH key).
    reflexivity.
Qed.

Lemma stableStringify_dist_key_order (a b : value) :
  same_up_to_key_order a b ->
  SignerDist.stableStringify a = SignerDist.stableStringify b.
Proof.
  intros H. unfold SignerDist.stableStringify.
  rewrite (sortKeys_key_order a b H). reflexivity.
Qed.

Lemma messageStr_key_order (canon : value -> option string) (m1 m2 : message) :
  (forall a b, same_up_to_key_order a b -> canon a = canon b) ->
  same_up_to_key_order (message_value m1) (message_value m2) ->
  SignerCore.messageStr canon m1 = SignerCore.messageStr canon m2.
Proof.
  intros Hcanon H.
  destruct m1, m2; simpl in H; inversion H; subst; try reflexivity;
    unfold SignerCore.messageStr; f_equal; apply Hcanon; exact H.
Qed.

End KeyOrderInvariance.

(** C1. On [src/signer.ts] the canonical form does not sort the keys of
    nested objects, it drops them: the sorted top-level keys are given
    to [JSON.stringify] as its property list, which filters every
    level. The payload [{b:2, a:{y:1, x:2}}] is canonicalized to
    [{"a":{},"b":2}], where the compiled build gives
    [{"a":{"x":2,"y":1},"b":2}]; in consequence, on the source, the
    signature of [{a:{x:v}}] is the same for every [v], while the
    compiled build tells [{a:{x:1}}] from [{a:{x:2}}]. *)
Theorem stableStringify_drops_nested_keys :
  let payload :=
    VObj [("b", VNum 2); ("a", VObj [("y", VNum 1); ("x", VNum 2)])] in
  Signer.stableStringify payload = Some (json_text "{'a':{},'b':2}")
  /\ SignerDist.stableStringify payload
     = Some (json_text "{'a':{'x':2,'y':1},'b':2}")
  /\ (forall (key : string) (v1 v2 : value) (options : option SignOptions)
             (env : Env),
         Signer.sign key (MsgObject [("a", VObj [("x", v1)])]) options env
         = Signer.sign key (MsgObject [("a", VObj [("x", v2)])]) options env)
  /\ SignerDist.sign "k" (MsgObject [("a", VObj [("x", VNum 1)])])
                     None (mkEnv 1000 "n1")
     <> SignerDist.sign "k" (MsgObject [("a", VObj [("x", VNum 2)])])
                        None (mkEnv 1000 "n1").
Proof.
  intros payload. split; [|split; [|split]].
  - vm_compute. reflexivity.
  - vm_compute. reflexivity.
  - intros key v1 v2 options env.
    unfold Signer.sign, SignerCore.sign. do 2 f_equal.
  - vm_compute. discriminate.
Qed.

(** On both the source and the compiled build, payloads that are equal
    up to key insertion order, at any depth, get identical signatures
    for every key, options and environment. *)
Theorem sign_key_order_invariant :
  forall (key : string) (m1 m2 : message) (options : option SignOptions)
         (env : Env),
    same_up_to_key_order (message_value m1) (message_value m2) ->
    Signer.sign key m1 options env = Signer.sign key m2 options env
    /\ SignerDist.sign key m1 options env = SignerDist.sign key m2 options env.
Proof.
  intros key m1 m2 options env H. split.
  - unfold Signer.sign, SignerCore.sign.
    rewrite (messageStr_key_order Signer.stableStringify m1 m2
               stableStringify_key_order H).
    reflexivity.
  - unfold SignerDist.sign, SignerCore.sign.
    rewrite (messageStr_key_order SignerDist.stableStringify m1 m2
               stableStringify_dist_key_order H).
    reflexivity.
Qed.

(** Case analysis on the key read from two concrete objects. *)
Ltac by_key k :=
  cbn [get];
  repeat match goal with
         | |- context [(?a =? k)%string] =>
             destruct (String.eqb_spec a k) as [<-|?]; [vm_compute|]
         end;
  let Hx := fresh "Hx" in
  let Hy := fresh "Hy" in
  intros Hx Hy; try discriminate Hx;
  injection Hx as <-; injection Hy as <-.

Ltac distinct_keys := repeat constructor; simpl; intuition discriminate.

Lemma sign_key_order_invariant_witness :
  let m1 := MsgObject [("a", VNum 1); ("b", VObj [("d", VArr [VNull]); ("c", VNum 2)])] in
  let m2 := MsgObject [("b", VObj [("c", VNum 2); ("d", VArr [VNull])]); ("a", VNum 1)] in
  Signer.sign "k" m1 None (mkEnv 1000 "n1") = Signer.sign "k" m2 None (mkEnv 1000 "n1")
  /\ SignerDist.sign "k" m1 None (mkEnv 1000 "n1")
     = SignerDist.sign "k" m2 None (mkEnv 1000 "n1").
Proof.
  intros m1 m2.
  apply (sign_key_order_invariant "k" m1 m2 None (mkEnv 1000 "n1")).
  cbn [message_value m1 m2].
  apply SameObj; [distinct_keys | apply perm_swap |].
  intros k x y. by_key k.
  - constructor.
  - apply SameObj; [distinct_keys | apply perm_swap |].
    intros k' x' y'. by_key k'.
    + apply SameArr; [reflexivity|].
      intros [|[|i]] x y Hx Hy; try discriminate Hx.
      injection Hx as <-. injection Hy as <-. constructor.
    + constructor.
Defined.

(* ================================================================== *)
(** * The compiled build: sorted keys at every level                   *)
(* ================================================================== *)

Section DistSortedEverywhere.

Local Abbreviation le_key := (fun a b : string => String.leb a b = true).

Lemma insert_sorted_Permutation (x : string) (l : list string) :
  Permutation (x :: l) (insert_sorted x l).
Proof.
  induction l as [|h t IH]; simpl; [reflexivity|].
  destruct (String.leb x h); [reflexivity|].
  rewrite perm_swap. constructor. exact IH.
Qed.

Lemma Array_sort_is_Permutation (l : list string) :
  Permutation l (Array_sort l).
Proof.
  induction l as [|h t IH]; simpl; [constructor|].
  rewrite <- insert_sorted_Permutation. constructor. exact IH.
Qed.

Lemma insert_sorted_HdRel (h x : string) (t : list string) :
  HdRel le_key h t -> String.leb h x = true ->
  HdRel le_key h (insert_sorted x t).
Proof.
  intros Hhd Hhx. destruct t as [|h' t']; simpl.
  - constructor. exact Hhx.
  - destruct (String.leb x h'); constructor; [exact Hhx|].
    inversion Hhd; assumption.
Qed.

Lemma insert_sorted_Sorted (x : string) (l : list string) :
  Sorted le_key l -> Sorted le_key (insert_sorted x l).
Proof.
  induction 1 as [|h t Hs IH Hhd]; simpl.
  - repeat constructor.
  - destruct (String.leb x h) eqn:Exh.
    + repeat constructor; assumption.
    + constructor; [exact IH|].
      apply insert_sorted_HdRel; [exact Hhd|].
      destruct (String.leb_total x h); congruence.
Qed.

Lemma Array_sort_Sorted (l : list string) : Sorted le_key (Array_sort l).
Proof.
  induction l as [|h t IH]; simpl; [constructor|].
  apply insert_sorted_Sorted. exact IH.
Qed.

Lemma get_In {A : Type} (k : string) (v : A) (props : list (string * A)) :
  get k props = Some v -> In (k, v) props.
Proof.
  induction props as [|[k' v'] rest IH]; simpl; [discriminate|].
  destruct (String.eqb_spec k' k); intros H.
  - injection H as ->. subst. auto.
  - auto.
Qed.

(** Assigning plain, fresh keys one after the other appends them. *)
Lemma fold_assign_plain (f : string -> value) (l : list string) :
  forall acc,
    NoDup l -> Forall plain_key l ->
    (forall k, In k l -> ~ In k (map fst acc)) ->
    fold_left (fun next key => assign next key (f key)) l acc
    = (acc ++ map (fun k => (k, f k)) l)%list.
Proof.
  induction l as [|k l IH]; intros acc Hnd Hplain Hfresh; simpl.
  - rewrite app_nil_r. reflexivity.
  - inversion Hnd as [|? ? Hnotin Hnd']; subst.
    inversion Hplain as [|? ? [Hidx Hproto] Hplain']; subst.
    assert (Hassign : assign acc k (f k) = (acc ++ [(k, f k)])%list).
    { unfold assign, define_property.
      destruct (String.eqb_spec k "__proto__"); [contradiction|].
      assert (Hg : get k acc = None).
      { apply get_None_iff_key. apply Hfresh. left. reflexivity. }
      rewrite Hg, Hidx. reflexivity. }
    rewrite Hassign, (IH _ Hnd' Hplain').
    + rewrite <- app_assoc. reflexivity.
    + intros k' Hin. rewrite map_app, in_app_iff. simpl.
      intros [H|[H|[]]].
      * apply (Hfresh k'); [right; exact Hin | exact H].
      * congruence.
Qed.

Lemma get_tabulate (f : string -> value) (k : string) (l : list string) :
  In k l -> get k (map (fun k => (k, f k)) l) = Some (f k).
Proof.
  induction l as [|h t IH]; simpl; [contradiction|].
  destruct (String.eqb_spec h k) as [->|Hne]; [reflexivity|].
  intros [H|H]; [contradiction | auto].
Qed.

(** On objects with plain keys [sortKeys] lists the same keys in
    ascending order, each with its value sorted in turn. *)
Lemma sortKeys_plain_object (ps : list (string * value)) :
  plain_keys ps ->
  SignerDist.sortKeys (VObj ps)
  = VObj (map (fun k => (k, Get (map (fun kv => (fst kv, SignerDist.sortKeys (snd kv))) ps) k))
              (Array_sort (map fst ps))).
Proof.
  intros [Hnd Hplain]. cbn [SignerDist.sortKeys]. f_equal.
  rewrite fold_assign_plain; [reflexivity | | | auto].
  - eapply Permutation_NoDup; [apply Array_sort_is_Permutation | exact Hnd].
  - eapply Permutation_Forall; [apply Array_sort_is_Permutation | exact Hplain].
Qed.

(** On the compiled build, for payloads whose objects have unique,
    plain keys: the canonical value has, at every level, its keys in
    ascending order, and it is the payload up to key order (arrays in
    place, every key kept). Array-index keys are the exception: they
    come out in numeric order. *)
Theorem sortKeys_sorts_every_level :
  forall v : value,
    every_object plain_keys v ->
    every_object sorted_keys (SignerDist.sortKeys v)
    /\ same_up_to_key_order v (SignerDist.sortKeys v).
Proof.
  induction 1 as [| | | | |xs _ IH|ps Hplain _ IH];
    try solve [split; constructor].
  - cbn [SignerDist.sortKeys]. split.
    + constructor. intros y Hy. apply in_map_iff in Hy.
      destruct Hy as (x & <- & Hx). apply (IH x Hx).
    + constructor; [rewrite length_map; reflexivity|].
      intros i x y Hx Hy.
      rewrite nth_error_map, Hx in Hy. injection Hy as <-.
      apply (IH x). eapply nth_error_In. exact Hx.
  - rewrite (sortKeys_plain_object ps Hplain).
    set (sorted := map (fun kv => (fst kv, SignerDist.sortKeys (snd kv))) ps).
    assert (Hkeys : forall l, map fst (map (fun k => (k, Get sorted k)) l) = l).
    { intros l. rewrite map_map. simpl. apply map_id. }
    assert (Hval : forall k x, get k ps = Some x ->
                               Get sorted k = SignerDist.sortKeys x).
    { intros k x Hx. unfold Get, sorted. rewrite get_map_values, Hx. reflexivity. }
    split.
    + constructor.
      * unfold sorted_keys. rewrite Hkeys. apply Array_sort_Sorted.
      * intros k y Hin. apply in_map_iff in Hin.
        destruct Hin as (k' & E & Hk'). injection E as -> <-.
        rewrite Array_sort_In in Hk'. apply get_Some_iff_key in Hk'.
        destruct Hk' as [x Hx]. rewrite (Hval k x Hx).
        apply (IH k x). apply get_In. exact Hx.
    + destruct Hplain as [Hnd _]. constructor.
      * exact Hnd.
      * rewrite Hkeys. apply Array_sort_is_Permutation.
      * intros k x y Hx Hy.
        rewrite get_tabulate in Hy.
        -- injection Hy as <-. rewrite (Hval k x Hx).
           apply (IH k x). apply get_In. exact Hx.
        -- rewrite Array_sort_In. apply get_Some_iff_key. eauto.
Qed.

(** Array-index keys leave the canonical text of the compiled build in
    numeric, not lexicographic, order; the source lists them
    lexicographically. *)
Example sortKeys_array_index_keys :
  SignerDist.stableStringify (VObj [("9", VNum 2); ("10", VNum 1)])
  = Some (json_text "{'9':2,'10':1}")
  /\ Signer.stableStringify (VObj [("9", VNum 2); ("10", VNum 1)])
     = Some (json_text "{'10':1,'9':2}").
Proof. split; vm_compute; reflexivity. Qed.

End DistSortedEverywhere.

Ltac plain_keys_concrete :=
  split;
  [ distinct_keys
  | repeat (apply Forall_cons; [split; [reflexivity | discriminate]|]);
    apply Forall_nil ].

Lemma sortKeys_sorts_every_level_witness :
  let v := VObj [("b", VNum 2); ("a", VObj [("y", VArr [VNum 1]); ("x", VNum 2)])] in
  every_object sorted_keys (SignerDist.sortKeys v)
  /\ same_up_to_key_order v (SignerDist.sortKeys v).
Proof.
  intros v. apply (sortKeys_sorts_every_level v).
  apply EveryObj; [plain_keys_concrete|].
  intros k x [E|[E|[]]]; injection E as <- <-; [constructor|].
  apply EveryObj; [plain_keys_concrete|].
  intros k x [E|[E|[]]]; injection E as <- <-; [|constructor].
  constructor. intros x [<-|[]]. constructor.
Defined.
(* ================================================================== *)
(** * The signer at its edges                                          *)
(* ================================================================== *)

Section SignerEdges.

Variable stableStringify : value -> option string.

Local Abbreviation sign := (SignerCore.sign stableStringify).
Local Abbreviation verify := (SignerCore.verify stableStringify).

Lemma verify_true_generic (key : string) (sig : Signature) (m : message)
  (maxAgeMs : option Z) (now : Z) (env : Env) :
  verify key sig m maxAgeMs now env = true <->
  minus_gt now (parseInt (timestamp sig))
           (match maxAgeMs with Some n => n | None => 300000 end) = false
  /\ hash sig
     = hash (sign key m (Some (mkSignOptions (Some (timestamp sig))
                                             (Some (nonce sig)))) env).
Proof.
  rewrite verify_unfold.
  destruct (minus_gt now (parseInt (timestamp sig)) _).
  - split; [discriminate | intros [H _]; discriminate H].
  - rewrite constantTimeEqual_iff. tauto.
Qed.

Lemma verify_other_hash_generic (key : string) (sig : Signature) (m : message)
  (maxAgeMs : option Z) (now : Z) (env : Env) (forged : string) :
  verify key sig m maxAgeMs now env = true ->
  forged <> hash sig ->
  verify key (mkSignature (timestamp sig) (nonce sig) forged) m maxAgeMs now env
  = false.
Proof.
  intros Hok Hforged.
  apply verify_true_generic in Hok. destruct Hok as [_ Hhash].
  apply not_true_is_false. intros Hbad.
  apply verify_true_generic in Hbad. destruct Hbad as [_ Hbad].
  cbn [timestamp nonce hash] in Hbad. congruence.
Qed.

Lemma sign_supplied_fields (key : string) (m : message) (ts n : string) (env : Env) :
  ts <> EmptyString -> n <> EmptyString ->
  sign key m (Some (mkSignOptions (Some ts) (Some n))) env
  = mkSignature ts n
      (Crypto.createHmac_sha256_hex
         key (ts ++ ":" ++ n ++ ":" ++ SignerCore.messageStr stableStringify m)).
Proof.
  intros Hts Hn. unfold SignerCore.sign. cbn [opt_timestamp opt_nonce].
  rewrite (or_string_supplied ts _ Hts), (or_string_supplied n _ Hn).
  reflexivity.
Qed.

Lemma verify_non_numeric_generic (key : string) (m : message) (ts n : string)
  (maxAgeMs : option Z) (now : Z) (env env' : Env) :
  ts <> EmptyString -> n <> EmptyString -> parseInt ts = None ->
  verify key (sign key m (Some (mkSignOptions (Some ts) (Some n))) env)
         m maxAgeMs now env' = true.
Proof.
  intros Hts Hn Hnan.
  apply verify_true_generic.
  rewrite (sign_supplied_fields key m ts n env Hts Hn).
  cbn [timestamp nonce hash].
  rewrite Hnan. split; [reflexivity|].
  rewrite (sign_supplied_fields key m ts n env' Hts Hn). reflexivity.
Qed.

Lemma string_app_assoc (a b c : string) : ((a ++ b) ++ c = a ++ (b ++ c))%string.
Proof. induction a as [|x a IH]; simpl; [reflexivity | now rewrite IH]. Qed.

Lemma app_nonempty_l (a b : string) : a <> EmptyString -> (a ++ b)%string <> EmptyString.
Proof. destruct a; [congruence | discriminate]. Qed.

Lemma verify_boundary_generic (key ts n h a b : string) (maxAgeMs : option Z)
  (now : Z) (env : Env) :
  n <> EmptyString ->
  verify key (mkSignature ts (n ++ ":" ++ a) h) (MsgString b) maxAgeMs now env
  = verify key (mkSignature ts n h) (MsgString (a ++ ":" ++ b)) maxAgeMs now env.
Proof.
  intros Hn. rewrite !verify_unfold. cbn [timestamp nonce hash].
  destruct (minus_gt now (parseInt ts) _); [reflexivity|].
  f_equal. unfold SignerCore.sign.
  cbn [opt_timestamp opt_nonce timestamp nonce hash SignerCore.messageStr].
  rewrite (or_string_supplied n _ Hn).
  rewrite (or_string_supplied (n ++ ":" ++ a) _ (app_nonempty_l n _ Hn)).
  do 2 f_equal.
  rewrite !string_app_assoc. reflexivity.
Qed.

End SignerEdges.

(** [Signer.verify] of [src/signer.ts] compares the hash with the
    constant-time loop, and that loop accepts exactly equal strings:
    once a signature verifies, the same timestamp and nonce with any
    other hash are rejected. *)
Theorem verify_rejects_any_other_hash :
  forall (key : string) (sig : Signature) (m : message) (maxAgeMs : option Z)
         (now : Z) (env : Env) (forged : string),
    Signer.verify key sig m maxAgeMs now env = true ->
    forged <> hash sig ->
    Signer.verify key (mkSignature (timestamp sig) (nonce sig) forged)
                  m maxAgeMs now env = false
    /\ (forall a b : string, Signer.constantTimeEqual a b = true <-> a = b).
Proof.
  intros key sig m maxAgeMs now env forged Hok Hforged. split.
  - exact (verify_other_hash_generic Signer.stableStringify
             key sig m maxAgeMs now env forged Hok Hforged).
  - intros a b. apply constantTimeEqual_iff.
Qed.

Lemma verify_rejects_any_other_hash_witness :
  let sig := Signer.sign "k" (MsgString "hello") None (mkEnv 1000 "n1") in
  Signer.verify "k" (mkSignature (timestamp sig) (nonce sig) "00")
                (MsgString "hello") None 1005 (mkEnv 1005 "n2") = false.
Proof.
  intros sig.
  assert (Hok : Signer.verify "k" sig (MsgString "hello") None 1005
                              (mkEnv 1005 "n2") = true)
    by (vm_compute; reflexivity).
  assert (Hne : ("00" =? hash sig)%string = false) by (vm_compute; reflexivity).
  apply (proj1 (verify_rejects_any_other_hash
                  "k" sig (MsgString "hello") None 1005 (mkEnv 1005 "n2") "00"
                  Hok (proj1 (String.eqb_neq _ _) Hne))).
Defined.

(** The age test of [verify] reads the timestamp with [parseInt]; on a
    timestamp that is not a number it yields [NaN], every comparison
    with which is false. A signature made with such a timestamp (the
    [options] of [sign] allow any string) therefore verifies at every
    later time and under every [maxAgeMs], on the source and on the
    compiled build. *)
Theorem verify_non_numeric_timestamp_never_expires :
  forall (key : string) (m : message) (ts n : string) (maxAgeMs : option Z)
         (now : Z) (env env' : Env),
    ts <> EmptyString -> n <> EmptyString -> parseInt ts = None ->
    Signer.verify key
      (Signer.sign key m (Some (mkSignOptions (Some ts) (Some n))) env)
      m maxAgeMs now env' = true
    /\ SignerDist.verify key
         (SignerDist.sign key m (Some (mkSignOptions (Some ts) (Some n))) env)
         m maxAgeMs now env' = true.
Proof.
  intros key m ts n maxAgeMs now env env' Hts Hn Hnan. split.
  - exact (verify_non_numeric_generic Signer.stableStringify
             key m ts n maxAgeMs now env env' Hts Hn Hnan).
  - exact (verify_non_numeric_generic SignerDist.stableStringify
             key m ts n maxAgeMs now env env' Hts Hn Hnan).
Qed.

Lemma verify_non_numeric_timestamp_never_expires_witness :
  Signer.verify "k"
    (Signer.sign "k" (MsgString "hello")
       (Some (mkSignOptions (Some "never") (Some "n1"))) (mkEnv 1000 "u"))
    (MsgString "hello") (Some 1) 99999999999 (mkEnv 99999999999 "v") = true.
Proof.
  apply (proj1 (verify_non_numeric_timestamp_never_expires
                  "k" (MsgString "hello") "never" "n1" (Some 1) 99999999999
                  (mkEnv 1000 "u") (mkEnv 99999999999 "v")
                  ltac:(discriminate) ltac:(discriminate) eq_refl)).
Defined.

(** The signed payload is the plain concatenation
    [timestamp:nonce:message], so the boundary between nonce and message
    is not protected: for string messages, [verify] gives the same
    answer for nonce [n] with message [a:b] as for nonce [n:a] with
    message [b], whatever the hash. A signature accepted for the one is
    accepted for the other. *)
Theorem verify_nonce_message_boundary :
  forall (key ts n h a b : string) (maxAgeMs : option Z) (now : Z) (env : Env),
    n <> EmptyString ->
    Signer.verify key (mkSignature ts (n ++ ":" ++ a) h) (MsgString b)
                  maxAgeMs now env
    = Signer.verify key (mkSignature ts n h) (MsgString (a ++ ":" ++ b))
                    maxAgeMs now env.
Proof.
  intros key ts n h a b maxAgeMs now env Hn.
  exact (verify_boundary_generic Signer.stableStringify
           key ts n h a b maxAgeMs now env Hn).
Qed.

Lemma verify_nonce_message_boundary_witness :
  let sig := Signer.sign "k" (MsgString "did:aeon:a") None (mkEnv 1000 "n1") in
  Signer.verify "k" (mkSignature (timestamp sig) ("n1" ++ ":" ++ "did") (hash sig))
                (MsgString "aeon:a") None 1005 (mkEnv 1005 "n2")
  = Signer.verify "k" (mkSignature (timestamp sig) "n1" (hash sig))
                  (MsgString ("did" ++ ":" ++ "aeon:a")) None 1005 (mkEnv 1005 "n2").
Proof.
  intros sig.
  apply (verify_nonce_message_boundary
           "k" (timestamp sig) "n1" (hash sig) "did" "aeon:a" None 1005
           (mkEnv 1005 "n2") ltac:(discriminate)).
Defined.

(* ================================================================== *)
(** * The source's canonical form: what nested objects contribute       *)
(* ================================================================== *)

Section ReplacerArray.

Lemma fold_property_list_In (P : string) (l : list string) :
  forall acc,
    In P (fold_left (fun acc k => if existsb (String.eqb k) acc then acc
                                  else (acc ++ [k])%list) l acc) ->
    In P acc \/ In P l.
Proof.
  induction l as [|k l IH]; intros acc H; simpl in *; [auto|].
  apply IH in H. destruct H as [H|H]; [|auto].
  destruct (existsb (String.eqb k) acc); [auto|].
  apply in_app_or in H. destruct H as [H|[H|[]]]; auto.
Qed.

Lemma property_list_In (P : string) (l : list string) :
  In P (property_list l) -> In P l.
Proof.
  intros H. apply fold_property_list_In in H. destruct H as [[]|H]. exact H.
Qed.

Lemma flat_map_ext_in {A B : Type} (f g : A -> list B) (l : list A) :
  (forall a, In a l -> f a = g a) -> flat_map f l = flat_map g l.
Proof.
  induction l as [|a l IH]; intros H; simpl; [reflexivity|].
  rewrite (H a (or_introl eq_refl)), IH; [reflexivity|].
  intros b Hb. apply H. right. exact Hb.
Qed.

(** Under a property list, an object is serialized from its listed
    properties alone. *)
Lemma SerializeJSONProperty_listed_only (K : list string)
  (n1 n2 : list (string * value)) :
  (forall P, In P K -> get P n1 = get P n2) ->
  SerializeJSONProperty (Some K) (VObj n1) = SerializeJSONProperty (Some K) (VObj n2).
Proof.
  intros H. simpl. do 4 f_equal.
  apply flat_map_ext_in. intros P HP.
  rewrite !get_map_values, (H P HP). reflexivity.
Qed.

Lemma stableStringify_nested_listed_only (a : string)
  (before after n1 n2 : list (string * value)) :
  (forall P, In P (map fst before ++ a :: map fst after)%list ->
             get P n1 = get P n2) ->
  Signer.stableStringify (VObj (before ++ (a, VObj n1) :: after)%list)
  = Signer.stableStringify (VObj (before ++ (a, VObj n2) :: after)%list).
Proof.
  intros H. unfold Signer.stableStringify, JSON_stringify, Object_keys.
  rewrite !map_app. cbn [map fst option_map].
  set (K := property_list (Array_sort (map fst before ++ a :: map fst after)%list)).
  assert (HK : forall P, In P K -> get P n1 = get P n2).
  { intros P HP. apply H. apply property_list_In in HP.
    rewrite Array_sort_In in HP. exact HP. }
  cbn [SerializeJSONProperty]. rewrite !map_app. cbn [map fst snd].
  rewrite (SerializeJSONProperty_listed_only K n1 n2 HK). reflexivity.
Qed.

End ReplacerArray.

(** On [src/signer.ts] the replacer array holds the top-level keys, so
    of an object nested one level down only the properties named like
    a top-level key reach the signed text: two payloads that differ in
    a nested object, at any position, have the same signature and the
    same [Signer.hash] as soon as the two nested objects agree on the
    top-level key names. Adding, removing or changing any other nested
    property goes unnoticed. *)
Theorem sign_ignores_unlisted_nested_properties :
  forall (key a : string) (before after n1 n2 : list (string * value))
         (options : option SignOptions) (env : Env),
    (forall P, In P (map fst before ++ a :: map fst after)%list ->
               get P n1 = get P n2) ->
    Signer.sign key (MsgObject (before ++ (a, VObj n1) :: after)%list) options env
    = Signer.sign key (MsgObject (before ++ (a, VObj n2) :: after)%list) options env
    /\ Signer.hash_message key (MsgObject (before ++ (a, VObj n1) :: after)%list)
       = Signer.hash_message key (MsgObject (before ++ (a, VObj n2) :: after)%list).
Proof.
  intros key a before after n1 n2 options env H.
  pose proof (stableStringify_nested_listed_only a before after n1 n2 H) as E.
  split.
  - unfold Signer.sign, SignerCore.sign, SignerCore.messageStr.
    cbn [message_value]. rewrite E. reflexivity.
  - unfold Signer.hash_message, SignerCore.hash_message, SignerCore.messageStr.
    cbn [message_value]. rewrite E. reflexivity.
Qed.

Lemma sign_ignores_unlisted_nested_properties_witness :
  let n1 := [("amount", VNum 1); ("tool", VStr "t")] in
  let n2 := [("tool", VStr "t"); ("amount", VNum 1000000); ("to", VStr "x")] in
  Signer.sign "k" (MsgObject ([] ++ ("args", VObj n1) :: [("tool", VStr "pay")])%list)
              None (mkEnv 1000 "n1")
  = Signer.sign "k" (MsgObject ([] ++ ("args", VObj n2) :: [("tool", VStr "pay")])%list)
                None (mkEnv 1000 "n1").
Proof.
  intros n1 n2.
  apply (proj1 (sign_ignores_unlisted_nested_properties
                  "k" "args" [] [("tool", VStr "pay")] n1 n2 None (mkEnv 1000 "n1")
                  ltac:(intros P [<-|[<-|[]]]; reflexivity))).
Defined.

(* ================================================================== *)
(** * Identities: generated keys, DID strings, signing                 *)
(* ================================================================== *)

Section Identities.

Import AeonDID AeonDIDMethods.

Local Abbreviation chars := list_ascii_of_string.

Lemma hex_digit_lower (n : Z) : 0 <= n < 16 -> lower_hex_digit (Crypto.hex_digit n).
Proof.
  intros H. unfold lower_hex_digit, Crypto.hex_digit, code.
  destruct (Z.ltb_spec n 10) as [Hlt|Hge];
    rewrite N_ascii_embedding by lia; rewrite Z2N.id by lia; lia.
Qed.

Lemma hex_length (bs : list Z) :
  String.length (Crypto.hex bs) = (2 * List.length bs)%nat.
Proof. induction bs as [|b bs IH]; simpl; [reflexivity | rewrite IH; lia]. Qed.

Lemma hex_chars (bs : list Z) :
  Forall (fun b => 0 <= b < 256) bs ->
  Forall lower_hex_digit (chars (Crypto.hex bs)).
Proof.
  induction 1 as [|b bs Hb _ IH]; simpl; [constructor|].
  constructor; [|constructor; [|exact IH]]; apply hex_digit_lower.
  - rewrite Z.shiftr_div_pow2 by lia. change (2 ^ 4) with 16.
    split; [apply Z.div_pos; lia | apply Z.div_lt_upper_bound; lia].
  - change 15 with (Z.ones 4). rewrite Z.land_ones by lia.
    change (2 ^ 4) with 16. apply Z.mod_pos_bound. lia.
Qed.

Lemma literal_then_matches (p : string) (r : regex) :
  forall s, matches (literal_then p r) s <-> exists rest, s = p ++ rest /\ matches r rest.
Proof.
  induction p as [|c p IH]; intros s; simpl.
  - split; [intros H; exists s; auto | intros (rest & -> & H); exact H].
  - split.
    + intros H. inversion H as [| |r1 r2 s1 s2 H1 H2| | | |]; subst.
      inversion H1 as [|q c' Hc| | | | |]; subst.
      apply Ascii.eqb_eq in Hc. subst c'.
      apply IH in H2. destruct H2 as (rest & -> & H2).
      exists rest. split; [reflexivity | exact H2].
    + intros (rest & -> & H).
      change (String c (p ++ rest)) with (String c EmptyString ++ (p ++ rest)).
      constructor.
      * constructor. apply Ascii.eqb_refl.
      * apply IH. exists rest. auto.
Qed.

Lemma plus_class_matches (p : ascii -> bool) (s : string) :
  matches (Seq (Class p) (Star (Class p))) s <->
  s <> EmptyString /\ Forall (fun c => p c = true) (chars s).
Proof.
  split.
  - intros H. inversion H as [| |r1 r2 s1 s2 H1 H2| | | |]; subst.
    inversion H1 as [|q c Hc| | | | |]; subst.
    apply star_class_matches in H2. simpl.
    split; [discriminate | constructor; assumption].
  - intros [Hne H]. destruct s as [|c s]; [congruence|].
    simpl in H. inversion H; subst.
    change (String c s) with (String c EmptyString ++ s).
    constructor; [constructor; assumption | apply star_class_matches; assumption].
Qed.

Lemma dot_iff (c : ascii) : dot c = true <-> code c <> 10 /\ code c <> 13.
Proof.
  unfold dot. rewrite negb_true_iff, orb_false_iff, !Z.eqb_neq. tauto.
Qed.

Lemma test_did_pattern (did : string) :
  test DID_PATTERN did = true <->
  exists name, did = "did:aeon:" ++ name /\ name <> EmptyString
               /\ Forall (fun c => dot c = true) (chars name).
Proof.
  rewrite test_matches. unfold DID_PATTERN. rewrite literal_then_matches.
  split; intros (name & E & H); exists name; (split; [exact E|]);
    apply plus_class_matches; exact H.
Qed.

Lemma name_chars_dot (name : string) :
  test NAME_PATTERN name = true -> Forall (fun c => dot c = true) (chars name).
Proof.
  intros H. apply test_name_pattern in H. destruct H as (_ & H & _).
  eapply Forall_impl; [|exact H]. intros c [[Hc|Hc]| ->].
  - apply dot_iff. lia.
  - apply dot_iff. lia.
  - reflexivity.
Qed.

Lemma create_returned (name : string) (options : option CreateDIDOptions)
  (generatedKey : string) (now : Z) (doc : AeonDIDDocument) :
  create name options generatedKey now = Returned doc ->
  name <> EmptyString /\ test NAME_PATTERN name = true
  /\ doc = mkDocument ("did:aeon:" ++ name) name
             (or_string (match options with Some o => opt_signingKey o | None => None end)
                        generatedKey)
             now (match options with Some o => opt_metadata o | None => None end).
Proof.
  unfold create. destruct (String.eqb_spec name EmptyString) as [->|Hne]; simpl.
  - discriminate.
  - destruct (test NAME_PATTERN name); simpl; [|discriminate].
    intros E. injection E as <-. auto.
Qed.

End Identities.

(** [Signer.generateKey] renders the random bytes as two lower-case
    hexadecimal digits each: from 32 bytes, a key of 64 characters out
    of [0-9a-f]. Such a key is never empty, so [create], which falls
    back to it when no key (or an empty one) is supplied, stores it
    unchanged. *)
Theorem generateKey_is_64_hex_digits :
  forall (randomBytes : list Z),
    List.length randomBytes = 32%nat ->
    Forall (fun b => 0 <= b < 256) randomBytes ->
    String.length (SignerKeys.generateKey randomBytes) = 64%nat
    /\ Forall lower_hex_digit (list_ascii_of_string (SignerKeys.generateKey randomBytes))
    /\ (forall (name : string) (now : Z) (doc : AeonDIDDocument),
           AeonDID.create name None (SignerKeys.generateKey randomBytes) now
           = AeonDID.Returned doc ->
           signingKey doc = SignerKeys.generateKey randomBytes).
Proof.
  intros randomBytes Hlen Hbytes. unfold SignerKeys.generateKey.
  split; [rewrite hex_length, Hlen; reflexivity|].
  split; [apply hex_chars; exact Hbytes|].
  intros name now doc Hdoc.
  apply create_returned in Hdoc. destruct Hdoc as (_ & _ & ->). reflexivity.
Qed.

Lemma generateKey_is_64_hex_digits_witness :
  String.length (SignerKeys.generateKey (repeat 171 32)) = 64%nat.
Proof.
  apply (proj1 (generateKey_is_64_hex_digits (repeat 171 32) eq_refl
                  ltac:(repeat constructor; lia))).
Defined.

(** On strings of code units below 256, [AeonDID.parseName] returns
    [name] exactly on the strings [did:aeon:name] whose [name] is not
    empty and holds no line terminator, and throws on every other
    string, with the input in the error text. Among those code units
    the line terminators are LF and CR; the other two that the dot of
    the pattern refuses, U+2028 and U+2029, lie outside these strings.
    [parseName] does not apply the name rule of [create]. *)
Theorem parseName_accepts_exactly_prefixed :
  forall (did name : string),
    (AeonDIDMethods.parseName did = AeonDID.Returned name <->
     did = "did:aeon:" ++ name /\ name <> EmptyString
     /\ Forall (fun c => code c <> 10 /\ code c <> 13) (list_ascii_of_string name))
    /\ (forall e, AeonDIDMethods.parseName did = AeonDID.Thrown e ->
                  e = "Invalid AEON DID format: " ++ did).
Proof.
  intros did name. unfold AeonDIDMethods.parseName. split.
  - destruct (AeonDID.test AeonDIDMethods.DID_PATTERN did) eqn:Ht.
    + apply test_did_pattern in Ht. destruct Ht as (name' & -> & Hne & Hdot).
      change (JSString.drop 9 ("did:aeon:" ++ name')) with name'.
      split.
      * intros E. injection E as <-. split; [reflexivity|]. split; [exact Hne|].
        eapply Forall_impl; [|exact Hdot]. intros c. apply dot_iff.
      * intros (E & _ & _). f_equal.
        change ("did:aeon:" ++ name') with (String.append "did:aeon:" name') in E.
        simpl in E. congruence.
    + split; [discriminate|].
      intros (-> & Hne & Hdot).
      assert (Hyes : AeonDID.test AeonDIDMethods.DID_PATTERN ("did:aeon:" ++ name) = true).
      { apply test_did_pattern. exists name. split; [reflexivity|].
        split; [exact Hne|]. eapply Forall_impl; [|exact Hdot].
        intros c. apply dot_iff. }
      congruence.
  - destruct (AeonDID.test AeonDIDMethods.DID_PATTERN did); [discriminate|].
    intros e E. injection E as <-. reflexivity.
Qed.

(** The DID string of a created identity parses back to the name the
    identity was created with, which is also the name it stores. *)
Theorem parseName_inverts_create :
  forall (n : string) (options : option CreateDIDOptions)
         (generatedKey : string) (now : Z) (doc : AeonDIDDocument),
    AeonDID.create n options generatedKey now = AeonDID.Returned doc ->
    AeonDIDMethods.parseName (did doc) = AeonDID.Returned n
    /\ name doc = n.
Proof.
  intros n options generatedKey now doc Hdoc.
  apply create_returned in Hdoc. destruct Hdoc as (Hne & Hok & ->).
  cbn [did name]. split; [|reflexivity].
  unfold AeonDIDMethods.parseName.
  assert (Hyes : AeonDID.test AeonDIDMethods.DID_PATTERN ("did:aeon:" ++ n) = true).
  { apply test_did_pattern. exists n. split; [reflexivity|].
    split; [exact Hne | apply name_chars_dot; exact Hok]. }
  rewrite Hyes. reflexivity.
Qed.

Lemma parseName_inverts_create_witness :
  AeonDIDMethods.parseName
    (did (mkDocument "did:aeon:agent-7" "agent-7" "k" 5 None))
  = AeonDID.Returned "agent-7".
Proof.
  apply (proj1 (parseName_inverts_create
                  "agent-7" (Some (mkCreateOptions (Some "k") None)) "g" 5
                  (mkDocument "did:aeon:agent-7" "agent-7" "k" 5 None) eq_refl)).
Defined.

(** An identity verifies what it signs: for a document returned by
    [create], [verify(sign(m), m)] is true whenever the two calls are at
    most five minutes apart. The key it signs with is the supplied one
    when that is a non-empty string, the freshly generated one
    otherwise. *)
Theorem identity_verifies_own_signature :
  forall (n : string) (options : option CreateDIDOptions)
         (generatedKey : string) (createdAt : Z) (doc : AeonDIDDocument)
         (m : message) (signedAt now : Z) (uuid : string) (env : Env),
    AeonDID.create n options generatedKey createdAt = AeonDID.Returned doc ->
    uuid <> EmptyString ->
    now - signedAt <= 300000 ->
    AeonDIDMethods.verify doc (AeonDIDMethods.sign doc m (mkEnv signedAt uuid))
                          m now env = true
    /\ signingKey doc
       = match options with
         | Some (mkCreateOptions (Some supplied) _) =>
             if (supplied =? EmptyString)%string then generatedKey else supplied
         | _ => generatedKey
         end.
Proof.
  intros n options generatedKey createdAt doc m signedAt now uuid env Hdoc Hu Hage.
  split.
  - unfold AeonDIDMethods.verify, AeonDIDMethods.sign.
    exact (verify_sign_generic Signer.stableStringify (signingKey doc) m None
             signedAt now uuid env Hu Hage).
  - apply create_returned in Hdoc. destruct Hdoc as (_ & _ & ->).
    cbn [signingKey]. destruct options as [[[supplied|] meta]|]; reflexivity.
Qed.

Lemma identity_verifies_own_signature_witness :
  let doc := mkDocument "did:aeon:agent-7" "agent-7" "g" 5 None in
  AeonDIDMethods.verify doc
    (AeonDIDMethods.sign doc (MsgString "hello") (mkEnv 1000 "n1"))
    (MsgString "hello") 1005 (mkEnv 1005 "n2") = true.
Proof.
  intros doc.
  apply (proj1 (identity_verifies_own_signature
                  "agent-7" (Some (mkCreateOptions (Some EmptyString) None)) "g" 5 doc
                  (MsgString "hello") 1000 1005 "n1" (mkEnv 1005 "n2")
                  eq_refl ltac:(discriminate) ltac:(lia))).
Defined.

(* ================================================================== *)
(** * String methods against their meaning                             *)
(* ================================================================== *)

Section StringMethods.

Import JSString.

Local Abbreviation chars := list_ascii_of_string.

Lemma startsWith_cons (c p : ascii) (s pat : string) :
  startsWith (String c s) (String p pat) = Ascii.eqb c p && startsWith s pat.
Proof. reflexivity. Qed.

Lemma startsWith_iff (pat : string) :
  forall s, startsWith s pat = true <-> exists rest, s = pat ++ rest.
Proof.
  induction pat as [|p pat IH]; intros s.
  - destruct s; split; simpl; eauto.
  - destruct s as [|c s].
    + split; [discriminate | intros (rest & E); discriminate E].
    + rewrite startsWith_cons, andb_true_iff, Ascii.eqb_eq, IH. split.
      * intros (-> & rest & ->). exists rest. reflexivity.
      * intros (rest & E). injection E as -> ->. split; [reflexivity|].
        exists rest. reflexivity.
Qed.

Lemma includes_cons (c : ascii) (s pat : string) :
  includes (String c s) pat = startsWith (String c s) pat || includes s pat.
Proof. reflexivity. Qed.

Lemma includes_iff (pat : string) :
  forall s, includes s pat = true <-> exists a b, s = a ++ pat ++ b.
Proof.
  induction s as [|c s IH].
  - change (includes EmptyString pat) with (startsWith EmptyString pat || false).
    rewrite orb_false_r, startsWith_iff. split.
    + intros (rest & E). exists EmptyString, rest. exact E.
    + intros (a & b & E). destruct a; [|discriminate E]. exists b. exact E.
  - rewrite includes_cons, orb_true_iff, startsWith_iff, IH. split.
    + intros [(rest & E)|(a & b & ->)].
      * exists EmptyString, rest. exact E.
      * exists (String c a), b. reflexivity.
    + intros (a & b & E). destruct a as [|x a].
      * left. exists b. exact E.
      * right. injection E as -> ->. exists a, b. reflexivity.
Qed.

Lemma string_length_app (a b : string) :
  String.length (a ++ b) = (String.length a + String.length b)%nat.
Proof. induction a; simpl; congruence. Qed.

Lemma drop_app_length (a b : string) : drop (String.length a) (a ++ b) = b.
Proof. induction a; simpl; [destruct b|]; auto. Qed.

Lemma drop_split (n : nat) :
  forall s, exists a, s = a ++ drop n s.
Proof.
  induction n as [|n IH]; intros s.
  - exists EmptyString. destruct s; reflexivity.
  - destruct s as [|c s]; [exists EmptyString; reflexivity|].
    destruct (IH s) as (a & E). exists (String c a). simpl. congruence.
Qed.

Lemma endsWith_iff (s suffix : string) :
  endsWith s suffix = true <-> exists a, s = a ++ suffix.
Proof.
  unfold endsWith. rewrite andb_true_iff, Nat.leb_le, String.eqb_eq. split.
  - intros (_ & E). destruct (drop_split (String.length s - String.length suffix) s)
      as (a & Ea). exists a. congruence.
  - intros (a & ->). rewrite string_length_app. split; [lia|].
    replace (String.length a + String.length suffix - String.length suffix)%nat
      with (String.length a) by lia.
    apply drop_app_length.
Qed.

(** [replace] removes the first occurrence: a prefix free of the
    pattern's first character is kept, the pattern after it goes. *)
Lemma replace_after_prefix (p : ascii) (pat rest : string) :
  forall a,
    Forall (fun c => c <> p) (chars a) ->
    replace (a ++ String p pat ++ rest) (String p pat) EmptyString = a ++ rest.
Proof.
  induction a as [|c a IH]; intros H.
  - cbn [append]. unfold replace at 1.
    destruct rest as [|r rest'] eqn:Er.
    + assert (Hs : startsWith (String p pat ++ EmptyString) (String p pat) = true)
        by (apply startsWith_iff; eauto).
      cbn [append] in Hs |- *.
      destruct (String p (pat ++ EmptyString)) eqn:E; [discriminate E|].
      fold replace. rewrite Hs. injection E as <- <-.
      exact (drop_app_length (String p pat) EmptyString).
    + assert (Hs : startsWith (String p pat ++ String r rest') (String p pat) = true)
        by (apply startsWith_iff; eauto).
      cbn [append] in Hs |- *. fold replace. rewrite Hs.
      exact (drop_app_length (String p pat) (String r rest')).
  - simpl in H. inversion H as [|x l Hc Ha]; subst.
    cbn [append]. cbn [replace startsWith].
    destruct (Ascii.eqb_spec c p) as [->|_]; [congruence|].
    cbn [andb]. f_equal. apply IH. exact Ha.
Qed.

End StringMethods.

(* ================================================================== *)
(** * Stored identities and the constructor's warning                  *)
(* ================================================================== *)

Section Storage.

Import JSString.

Variable load : string -> option AeonDIDDocument.

Local Abbreviation chars := list_ascii_of_string.

Lemma name_without_full_stop (name : string) :
  AeonDID.test AeonDID.NAME_PATTERN name = true ->
  Forall (fun c => c <> full_stop) (chars name).
Proof.
  intros H. apply test_name_pattern in H. destruct H as (_ & H & _).
  eapply Forall_impl; [|exact H].
  intros c [[Hc|Hc]| ->]; try discriminate;
    intros ->; vm_compute in Hc; destruct Hc as [H1 H2];
    first [apply H1; reflexivity | apply H2; reflexivity].
Qed.

Lemma list_entry_first_occurrence (a b : string) :
  Forall (fun c => c <> full_stop) (chars a) ->
  FileStorage.list_entry load (a ++ ".json" ++ b ++ ".json")
  = loaded (load (a ++ b ++ ".json")).
Proof.
  intros Ha. unfold FileStorage.list_entry.
  assert (He : endsWith (a ++ ".json" ++ b ++ ".json") ".json" = true).
  { apply endsWith_iff. exists (a ++ ".json" ++ b).
    rewrite !string_app_assoc. reflexivity. }
  rewrite He.
  rewrite (replace_after_prefix "."%char "json" (b ++ ".json") a Ha).
  reflexivity.
Qed.

Lemma list_entry_saved (name : string) :
  Forall (fun c => c <> full_stop) (chars name) ->
  FileStorage.list_entry load (name ++ ".json") = loaded (load name).
Proof.
  intros Hn. unfold FileStorage.list_entry.
  assert (He : endsWith (name ++ ".json") ".json" = true)
    by (apply endsWith_iff; exists name; reflexivity).
  rewrite He.
  change (name ++ ".json") with (name ++ ".json" ++ EmptyString).
  rewrite (replace_after_prefix "."%char "json" EmptyString name Hn).
  rewrite append_empty_r. reflexivity.
Qed.

Lemma list_entry_other (file : string) :
  (forall a, file <> a ++ ".json") -> FileStorage.list_entry load file = [].
Proof.
  intros H. unfold FileStorage.list_entry.
  destruct (endsWith file ".json") eqn:E; [|reflexivity].
  apply endsWith_iff in E. destruct E as (a & E). destruct (H a E).
Qed.

End Storage.

(** [FileStorage.list] finds every identity stored under a name that
    [create] accepts: when the directory holds the files
    [name.json] of such names, the listing is what [load] returns for
    each of these names, in directory order, leaving out those that fail
    to load. Directory entries that do not end in [.json] add nothing,
    and a directory that cannot be read gives the empty listing. *)
Theorem list_loads_every_created_name :
  forall (load : string -> option AeonDIDDocument) (names : list string),
    Forall (fun n => AeonDID.test AeonDID.NAME_PATTERN n = true) names ->
    FileStorage.list load (Some (map (fun n => n ++ ".json") names))
    = flat_map (fun n => loaded (load n)) names
    /\ (forall (before after : list string) (other : string),
           (forall a, other <> a ++ ".json") ->
           FileStorage.list load (Some (before ++ other :: after)%list)
           = FileStorage.list load (Some (before ++ after)%list))
    /\ FileStorage.list load None = [].
Proof.
  intros load names Hnames. split; [|split].
  - unfold FileStorage.list.
    induction Hnames as [|n names Hn _ IH]; [reflexivity|].
    cbn [map flat_map]. rewrite IH.
    rewrite (list_entry_saved load n (name_without_full_stop n Hn)).
    reflexivity.
  - intros before after other Hother. unfold FileStorage.list.
    rewrite !flat_map_app. cbn [flat_map].
    rewrite (list_entry_other load other Hother). reflexivity.
  - reflexivity.
Qed.

Lemma list_loads_every_created_name_witness :
  let load := fun n : string =>
    if (n =? "agent-7")%string
    then Some (mkDocument "did:aeon:agent-7" "agent-7" "k" 5 None) else None in
  FileStorage.list load (Some (map (fun n => n ++ ".json") ["agent-7"; "b2"]))
  = flat_map (fun n => loaded (load n)) ["agent-7"; "b2"].
Proof.
  intros load.
  apply (proj1 (list_loads_every_created_name load ["agent-7"; "b2"]
                  ltac:(repeat constructor))).
Defined.

(** [list] strips the extension by replacing [".json"] with the empty
    string, which removes the first occurrence, not the suffix. For a file
    [a.json b.json] (with no full stop in [a], any [b]) it therefore
    loads the name [a b.json], not the name [a.json b] the file was
    saved under; names accepted by [create] hold no full stop and are
    not affected. *)
Theorem list_strips_first_json_occurrence :
  forall (load : string -> option AeonDIDDocument) (a b : string),
    Forall (fun c => c <> full_stop) (list_ascii_of_string a) ->
    FileStorage.list load (Some [a ++ ".json" ++ b ++ ".json"])
    = loaded (load (a ++ b ++ ".json")).
Proof.
  intros load a b Ha. unfold FileStorage.list. cbn [flat_map].
  rewrite (list_entry_first_occurrence load a b Ha).
  apply app_nil_r.
Qed.

Lemma list_strips_first_json_occurrence_witness :
  let load := fun n : string =>
    if (n =? "x.jsonl")%string
    then Some (mkDocument "did:aeon:x" "x.jsonl" "k" 5 None) else None in
  FileStorage.list load (Some ["x" ++ ".json" ++ "l" ++ ".json"])
  = loaded (load ("x" ++ "l" ++ ".json")).
Proof.
  intros load.
  apply (list_strips_first_json_occurrence load "x" "l"
           ltac:(repeat constructor; discriminate)).
Defined.

(** The constructor warns exactly for URLs that start with [ws://] and
    hold neither [localhost] nor [127.0.0.1] as a substring. The two
    names are looked for anywhere in the URL, not in its host: a URL
    with one of them in its path or query is not warned about; and no
    URL that starts with [wss://] is. *)
Theorem constructor_warning_is_substring_test :
  forall (url : string),
    (A2gClientApi.warns_unencrypted url = true <->
     (exists rest, url = "ws://" ++ rest)
     /\ ~ (exists a b, url = a ++ "localhost" ++ b)
     /\ ~ (exists a b, url = a ++ "127.0.0.1" ++ b))
    /\ (forall host tail,
           A2gClientApi.warns_unencrypted ("ws://" ++ host ++ "/" ++ tail ++ "localhost")
           = false)
    /\ (forall rest, A2gClientApi.warns_unencrypted ("wss://" ++ rest) = false).
Proof.
  intros url.
  assert (Hiff : forall u,
    A2gClientApi.warns_unencrypted u = true <->
    (exists rest, u = "ws://" ++ rest)
    /\ ~ (exists a b, u = a ++ "localhost" ++ b)
    /\ ~ (exists a b, u = a ++ "127.0.0.1" ++ b)).
  { intros u. unfold A2gClientApi.warns_unencrypted.
    rewrite !andb_true_iff, !negb_true_iff, <- !not_true_iff_false.
    rewrite startsWith_iff, !includes_iff. tauto. }
  split; [apply Hiff|]. split.
  - intros host tail. apply not_true_is_false. intros H.
    apply Hiff in H. destruct H as (_ & H & _). apply H.
    exists ("ws://" ++ host ++ "/" ++ tail), EmptyString.
    rewrite !string_app_assoc. reflexivity.
  - intros rest. reflexivity.
Qed.

(* ================================================================== *)
(** * The client: reconnect chain, deadlines, reports, intent ids      *)
(* ================================================================== *)

Section ClientLifecycle.

Import A2gClient A2gClientApi.

Lemma reconnect_delays_app (a b : list effect) :
  reconnect_delays (a ++ b) = (reconnect_delays a ++ reconnect_delays b)%list.
Proof.
  induction a as [|e a IH]; [reflexivity|].
  destruct e as [t cb d| | | | | | | |]; simpl; try exact IH.
  destruct cb; simpl; rewrite ?IH; reflexivity.
Qed.

Lemma reconnect_delays_reject_all (pending : list (string * PendingRequest))
  (error : string) :
  reconnect_delays (reject_all pending error) = [].
Proof. induction pending as [|e rest IH]; simpl; [reflexivity | exact IH]. Qed.

Lemma backoff_floor (a : nat) :
  (a < 5)%nat ->
  Z.min (BASE_RECONNECT_DELAY_MS * 2 ^ Z.of_nat (S a - 1)) 30000
  = 1000 * 2 ^ Z.of_nat a.
Proof.
  intros H. replace (S a - 1)%nat with a by lia.
  destruct a as [|[|[|[|[|a]]]]]; try reflexivity. lia.
Qed.

Lemma scheduleReconnect_idle (c : client) (random : Q) (timer : nat) :
  isReconnecting c = false -> (reconnectAttempt c < 5)%nat ->
  scheduleReconnect c random timer
  = (set_reconnectAttempt (set_isReconnecting c true) (S (reconnectAttempt c)),
     [ConsoleLog "A2G: Reconnecting";
      SetTimeout timer ReconnectTimer
        (inject_Z (1000 * 2 ^ Z.of_nat (reconnectAttempt c))
         + random * inject_Z 1000)%Q]).
Proof.
  intros Hidle Hlt. unfold scheduleReconnect. rewrite Hidle.
  assert (E : (MAX_RECONNECT_ATTEMPTS <=? reconnectAttempt c)%nat = false)
    by (apply Nat.leb_gt; exact Hlt).
  rewrite E. cbn [orb reconnectAttempt set_reconnectAttempt].
  rewrite (backoff_floor (reconnectAttempt c) Hlt). reflexivity.
Qed.

Lemma scheduleReconnect_refuses (c : client) (random : Q) (timer : nat) :
  isReconnecting c = true \/ (5 <= reconnectAttempt c)%nat ->
  scheduleReconnect c random timer
  = (c, [ConsoleError "A2G: Max reconnection attempts (5) reached"]).
Proof.
  intros H. unfold scheduleReconnect.
  assert (E : isReconnecting c || (MAX_RECONNECT_ATTEMPTS <=? reconnectAttempt c)%nat
              = true).
  { apply orb_true_iff. destruct H as [H|H]; [left; exact H|].
    right. apply Nat.leb_le. exact H. }
  rewrite E. reflexivity.
Qed.

Lemma failed_reconnects_chain (randoms : list Q) :
  forall (c : client) (timer : nat),
    (reconnectAttempt c <= 5)%nat ->
    reconnect_delays (snd (failed_reconnects c randoms timer))
    = backoff_delays (reconnectAttempt c) randoms
    /\ reconnectAttempt (fst (failed_reconnects c randoms timer))
       = Nat.min (reconnectAttempt c + List.length randoms) 5.
Proof.
  induction randoms as [|r rest IH]; intros c timer Hle.
  - simpl. split; [reflexivity | lia].
  - cbn [failed_reconnects backoff_delays]. unfold on_reconnect_failed.
    destruct (Nat.leb_spec 5 (reconnectAttempt c)) as [Hfull|Hroom].
    + rewrite (scheduleReconnect_refuses (set_isReconnecting c false) r timer)
        by (right; exact Hfull).
      destruct (failed_reconnects (set_isReconnecting c false) rest (S timer))
        as [c2 effs2] eqn:E.
      destruct (IH (set_isReconnecting c false) (S timer) Hle) as [Hd Ha].
      rewrite E in Hd, Ha. cbn [fst snd] in *.
      cbn [reconnect_delays app]. rewrite Hd, Ha.
      cbn [reconnectAttempt set_isReconnecting].
      split; [|cbn [List.length]; lia].
      destruct rest; cbn [backoff_delays]; [reflexivity|].
      destruct (Nat.leb_spec 5 (reconnectAttempt c)); [reflexivity | lia].
    + rewrite (scheduleReconnect_idle (set_isReconnecting c false) r timer eq_refl)
        by exact Hroom.
      set (c1 := set_reconnectAttempt
                   (set_isReconnecting (set_isReconnecting c false) true)
                   (S (reconnectAttempt (set_isReconnecting c false)))).
      destruct (failed_reconnects c1 rest (S timer)) as [c2 effs2] eqn:E.
      assert (Hle1 : (reconnectAttempt c1 <= 5)%nat) by (subst c1; simpl; lia).
      destruct (IH c1 (S timer) Hle1) as [Hd Ha].
      rewrite E in Hd, Ha. cbn [fst snd] in *.
      cbn [reconnect_delays app]. rewrite Hd, Ha.
      subst c1. cbn [reconnectAttempt set_reconnectAttempt set_isReconnecting].
      split; [reflexivity | cbn [List.length]; lia].
Qed.

Lemma backoff_delays_length (randoms : list Q) :
  forall a, (a <= 5)%nat ->
    List.length (backoff_delays a randoms) = Nat.min (List.length randoms) (5 - a).
Proof.
  induction randoms as [|r rest IH]; intros a Ha; cbn [backoff_delays List.length].
  - reflexivity.
  - destruct (Nat.leb_spec 5 a); [cbn [List.length]; lia|].
    cbn [List.length]. rewrite IH by lia. lia.
Qed.

Lemma backoff_delays_bounds (randoms : list Q) :
  Forall (fun r => 0 <= r < 1)%Q randoms ->
  forall a, Forall (fun d => 1000 <= d < 17000)%Q (backoff_delays a randoms).
Proof.
  induction 1 as [|r rest [Hr0 Hr1] _ IH]; intros a; cbn [backoff_delays].
  - constructor.
  - destruct (Nat.leb_spec 5 a) as [|Hlt]; [constructor|].
    constructor; [|apply IH].
    assert (E : (a = 0 \/ a = 1 \/ a = 2 \/ a = 3 \/ a = 4)%nat) by lia.
    change (inject_Z 1000) with (1000 # 1)%Q.
    destruct E as [->|[->|[->|[->| ->]]]];
      match goal with
      | |- context [inject_Z (1000 * 2 ^ Z.of_nat ?k)] =>
          let v := eval vm_compute in (1000 * 2 ^ Z.of_nat k) in
          change (inject_Z (1000 * 2 ^ Z.of_nat k)) with (v # 1)%Q
      end; lra.
Qed.

Lemma backoff_delays_nth (randoms : list Q) :
  Forall (fun r => 0 <= r < 1)%Q randoms ->
  forall (a k : nat) (d : Q),
    nth_error (backoff_delays a randoms) k = Some d ->
    (inject_Z (1000 * 2 ^ Z.of_nat (a + k)) <= d
     <= inject_Z (1000 * 2 ^ Z.of_nat (a + k)) + inject_Z 1000)%Q.
Proof.
  induction 1 as [|r rest [Hr0 Hr1] _ IH]; intros a k d; cbn [backoff_delays].
  - destruct k; discriminate.
  - destruct (Nat.leb_spec 5 a) as [|Hlt]; [destruct k; discriminate|].
    destruct k as [|k]; cbn [nth_error].
    + intros E. rewrite Nat.add_0_r.
      assert (E' : (inject_Z (1000 * 2 ^ Z.of_nat a) + r * inject_Z 1000)%Q = d)
        by congruence.
      rewrite <- E'. change (inject_Z 1000) with (1000 # 1)%Q.
      generalize (inject_Z (1000 * 2 ^ Z.of_nat a)). intros floor. lra.
    + intros Hk. replace (a + S k)%nat with (S a + k)%nat by lia.
      apply (IH (S a) k d Hk).
Qed.

Lemma lookup_object_filter (m : list (nat * string)) (obj other : nat) :
  other <> obj ->
  lookup_object (filter (fun e => negb (fst e =? obj)%nat) m) other
  = lookup_object m other.
Proof.
  intros Hne. induction m as [|[o id] rest IH]; [reflexivity|].
  cbn [filter fst lookup_object].
  destruct (Nat.eqb_spec o obj) as [->|Ho]; cbn [negb].
  - destruct (Nat.eqb_spec obj other); [congruence | exact IH].
  - cbn [lookup_object]. rewrite IH. reflexivity.
Qed.

Lemma Map_get_delete_other {A : Type} (m : list (string * A)) (k k' : string) :
  k <> k' -> Map_get (Map_delete m k') k = Map_get m k.
Proof.
  intros Hne. unfold Map_get.
  induction m as [|[x v] rest IH]; [reflexivity|].
  cbn [Map_delete get].
  destruct (String.eqb_spec x k') as [->|Hx].
  - destruct (String.eqb_spec k' k); [congruence | reflexivity].
  - cbn [get]. rewrite IH. reflexivity.
Qed.

Lemma on_close_schedules (c : client) (code : Z) (random : Q) (timer : nat) :
  isReconnecting c = false -> (reconnectAttempt c < 5)%nat ->
  code <> 1000 -> autoReconnect (config c) <> Some false ->
  on_close c code random timer
  = (set_reconnectAttempt
       (set_isReconnecting (set_pendingRequests (set_ws c None) []) true)
       (S (reconnectAttempt c)),
     (ConsoleLog "A2G Connection Closed"
      :: reject_all (pendingRequests c) "Connection closed"
      ++ [ConsoleLog "A2G: Reconnecting";
          SetTimeout timer ReconnectTimer
            (inject_Z (1000 * 2 ^ Z.of_nat (reconnectAttempt c))
             + random * inject_Z 1000)%Q])%list).
Proof.
  intros Hidle Hlt Hcode Hauto. unfold on_close.
  assert (E : negb (code =? 1000)
              && negb (match autoReconnect (config c) with
                       | Some false => true
                       | _ => false
                       end) = true).
  { apply andb_true_iff. split.
    - apply negb_true_iff, Z.eqb_neq. exact Hcode.
    - destruct (autoReconnect (config c)) as [[|]|]; try reflexivity. congruence. }
  rewrite E.
  rewrite (scheduleReconnect_idle (set_pendingRequests (set_ws c None) [])
             random timer Hidle Hlt).
  reflexivity.
Qed.

Lemma on_close_while_reconnecting (c : client) (code : Z) (random : Q) (timer : nat) :
  isReconnecting c = true ->
  reconnect_delays (snd (on_close c code random timer)) = []
  /\ fst (on_close c code random timer) = set_pendingRequests (set_ws c None) [].
Proof.
  intros Hrec. unfold on_close.
  rewrite (scheduleReconnect_refuses (set_pendingRequests (set_ws c None) [])
             random timer (or_introl Hrec)).
  destruct (negb (code =? 1000) && _); cbn [fst snd]; (split; [|reflexivity]);
    cbn [reconnect_delays]; rewrite reconnect_delays_app,
                              reconnect_delays_reject_all; reflexivity.
Qed.

End ClientLifecycle.

(** After a successful open, a connection that is lost and then fails
    to come back is retried five times and no more: the close handler
    arms the first reconnect, each failed attempt arms the next, and
    the fifth failure arms nothing. The delay of attempt [k] (counted
    from 0) lies from [1000 * 2^k] to [1000 * 2^k + 1000] ms, both
    included, so every delay lies from 1000 to 17000 ms and the 30000 ms
    cap is never reached. The bounds are closed: they hold for the
    rationals here and for the binary64 sums the code computes. *)
Theorem reconnect_chain_stops_after_five :
  forall (c0 : A2gClient.client) (connect_promise open_timer : nat) (code : Z)
         (random : Q) (randoms : list Q) (timer : nat),
    code <> 1000 ->
    A2gClient.autoReconnect (A2gClient.config c0) <> Some false ->
    Forall (fun r => 0 <= r < 1)%Q (random :: randoms) ->
    let c := fst (A2gClient.on_open c0 connect_promise open_timer) in
    let lost := A2gClient.on_close c code random timer in
    let failed := failed_reconnects (fst lost) randoms (S timer) in
    let delays := reconnect_delays (snd lost ++ snd failed) in
    List.length delays = Nat.min (S (List.length randoms)) 5
    /\ (forall k d,
           nth_error delays k = Some d ->
           (inject_Z (1000 * 2 ^ Z.of_nat k) <= d
            <= inject_Z (1000 * 2 ^ Z.of_nat k) + inject_Z 1000)%Q)
    /\ Forall (fun d => 1000 <= d <= 17000)%Q delays
    /\ A2gClient.reconnectAttempt (fst failed) = Nat.min (S (List.length randoms)) 5.
Proof.
  intros c0 connect_promise open_timer code random randoms timer Hcode Hauto Hr
         c lost failed delays.
  assert (Hlost : lost
    = (A2gClient.set_reconnectAttempt
         (A2gClient.set_isReconnecting
            (A2gClient.set_pendingRequests (A2gClient.set_ws c None) []) true) 1,
       (A2gClient.ConsoleLog "A2G Connection Closed"
        :: A2gClient.reject_all (A2gClient.pendingRequests c) "Connection closed"
        ++ [A2gClient.ConsoleLog "A2G: Reconnecting";
            A2gClient.SetTimeout timer A2gClient.ReconnectTimer
              (inject_Z (1000 * 2 ^ Z.of_nat 0) + random * inject_Z 1000)%Q])%list)).
  { subst lost.
    apply (on_close_schedules c code random timer eq_refl);
      [subst c; simpl; lia | exact Hcode | exact Hauto]. }
  destruct (failed_reconnects_chain randoms (fst lost) (S timer)) as [Hd Ha].
  { rewrite Hlost. simpl. lia. }
  fold failed in Hd, Ha.
  assert (Hdelays : delays = backoff_delays 0 (random :: randoms)).
  { subst delays. rewrite reconnect_delays_app, Hd. rewrite Hlost.
    cbn [fst snd reconnect_delays A2gClient.reconnectAttempt
         A2gClient.set_reconnectAttempt].
    rewrite reconnect_delays_app, reconnect_delays_reject_all. reflexivity. }
  split; [|split; [|split]].
  - rewrite Hdelays, backoff_delays_length by lia. cbn [List.length]. lia.
  - intros k d Hk. rewrite Hdelays in Hk.
    apply (backoff_delays_nth (random :: randoms) Hr 0 k d Hk).
  - rewrite Hdelays.
    eapply Forall_impl; [|apply backoff_delays_bounds; exact Hr].
    intros d Hd'. simpl in Hd'. lra.
  - rewrite Ha, Hlost. cbn [fst A2gClient.reconnectAttempt
                            A2gClient.set_reconnectAttempt]. lia.
Qed.

Lemma reconnect_chain_stops_after_five_witness :
  let c0 := A2gClient.mkClient "wss://engine.example" "did:aeon:a"
              (A2gClient.mkConfig None None None None None)
              (Some A2gClient.CONNECTING) [] 3 true [] in
  let c := fst (A2gClient.on_open c0 1 2) in
  let lost := A2gClient.on_close c 1006 (1 # 2) 10 in
  let failed := failed_reconnects (fst lost) (repeat (1 # 4) 7) 11 in
  List.length (reconnect_delays (snd lost ++ snd failed)) = 5%nat.
Proof.
  intros c0 c lost failed.
  apply (proj1 (reconnect_chain_stops_after_five
                  c0 1 2 1006 (1 # 2) (repeat (1 # 4) 7) 10
                  ltac:(discriminate) ltac:(discriminate)
                  ltac:(repeat constructor; unfold Qle, Qlt; simpl; lia))).
Defined.

(** While a reconnect is under way the close handler arms no further
    timer and leaves the attempt counter alone, whatever the close code;
    it still empties the pending table. *)
Theorem close_during_reconnect_arms_nothing :
  forall (c : A2gClient.client) (code : Z) (random : Q) (timer : nat),
    A2gClient.isReconnecting c = true ->
    reconnect_delays (snd (A2gClient.on_close c code random timer)) = []
    /\ A2gClient.reconnectAttempt (fst (A2gClient.on_close c code random timer))
       = A2gClient.reconnectAttempt c
    /\ A2gClient.isReconnecting (fst (A2gClient.on_close c code random timer)) = true
    /\ A2gClient.pendingRequests (fst (A2gClient.on_close c code random timer)) = [].
Proof.
  intros c code random timer Hrec.
  destruct (on_close_while_reconnecting c code random timer Hrec) as [Hd Hc].
  rewrite Hc. split; [exact Hd|]. split; [reflexivity|]. split; [exact Hrec|].
  reflexivity.
Qed.

Lemma close_during_reconnect_arms_nothing_witness :
  let c := A2gClient.mkClient "wss://engine.example" "did:aeon:a"
             (A2gClient.mkConfig None None None None None)
             (Some A2gClient.CONNECTING) [("r1", A2gClient.mkPending 1 11)] 2 true [] in
  reconnect_delays (snd (A2gClient.on_close c 1006 (1 # 2) 10)) = [].
Proof.
  intros c.
  apply (proj1 (close_during_reconnect_arms_nothing c 1006 (1 # 2) 10 eq_refl)).
Defined.

(** [disconnect] does not cancel a scheduled reconnect. Once the close
    handler has armed the reconnect timer (the socket field is then
    null and the pending table empty), a call of [disconnect] has no
    effect at all: the timer stays armed, and when it fires the client
    connects again. *)
Theorem disconnect_does_not_cancel_reconnect :
  forall (w : world) (code : Z) (random : Q) (timer : nat),
    A2gClient.isReconnecting (the_client w) = false ->
    (A2gClient.reconnectAttempt (the_client w) < 5)%nat ->
    code <> 1000 ->
    A2gClient.autoReconnect (A2gClient.config (the_client w)) <> Some false ->
    let lost := run w (A2gClient.on_close (the_client w) code random timer) in
    let after := run lost (A2gClient.disconnect (the_client lost)) in
    A2gClient.disconnect (the_client lost) = (the_client lost, [])
    /\ In (timer, A2gClient.ReconnectTimer) (armed after)
    /\ A2gClient.isReconnecting (the_client after) = true.
Proof.
  intros w code random timer Hidle Hlt Hcode Hauto lost after.
  subst after lost. unfold run.
  rewrite (on_close_schedules (the_client w) code random timer
             Hidle Hlt Hcode Hauto).
  cbn [fst snd the_client armed history].
  split; [reflexivity|]. split; [|reflexivity].
  unfold A2gClient.disconnect.
  cbn [fst snd A2gClient.pendingRequests A2gClient.ws A2gClient.set_reconnectAttempt
       A2gClient.set_isReconnecting A2gClient.set_pendingRequests A2gClient.set_ws
       A2gClient.reject_all flat_map app fold_left].
  cbn [fold_left arm]. rewrite fold_left_app. cbn [fold_left arm].
  left. reflexivity.
Qed.

Lemma disconnect_does_not_cancel_reconnect_witness :
  let w := mkWorld (A2gClient.mkClient "wss://engine.example" "did:aeon:a"
                      (A2gClient.mkConfig None None None None None)
                      (Some A2gClient.OPEN) [("r1", A2gClient.mkPending 1 11)]
                      0 false [])
                   [(11%nat, A2gClient.RequestTimeout "r1" 5000 1%nat)] [] in
  let lost := run w (A2gClient.on_close (the_client w) 1006 (1 # 2) 12) in
  In (12%nat, A2gClient.ReconnectTimer)
     (armed (run lost (A2gClient.disconnect (the_client lost)))).
Proof.
  intros w lost.
  apply (proj1 (proj2 (disconnect_does_not_cancel_reconnect
                         w 1006 (1 # 2) 12 eq_refl ltac:(simpl; lia)
                         ltac:(discriminate) ltac:(discriminate)))).
Defined.

Section DisconnectClaim.

Import A2gClient.

(** C7. [disconnect()] with N pending requests clears the deadline timer
    of each and rejects each with the error ["Client disconnected"] (N
    rejections, none with the ["Connection closed"] of the close
    handler), leaves the pending table empty and, when there is a
    socket, calls [close(1000)] on it last, after which the client no
    longer counts as connected. That does not keep the
    auto-reconnect path from firing. The close handler goes by the code
    of the close event, which is the transport's: for every code other
    than 1000 it arms a reconnect after [disconnect] as before it. And
    when the connection has already been lost (close code 1006, one
    request pending), the reconnect timer is armed, [disconnect] finds
    no socket and no pending request and does nothing, the timer stays
    armed, and its callback opens a new socket. *)
Theorem disconnect_does_not_stop_reconnect :
  (forall (c : client),
      let c1 := fst (disconnect c) in
      let effs := snd (disconnect c) in
      pendingRequests c1 = []
      /\ (forall id p, In (id, p) (pendingRequests c) ->
                       In (ClearTimeout (timeout p)) effs
                       /\ In (Reject (promise p) "Client disconnected") effs)
      /\ List.length (filter is_reject effs) = List.length (pendingRequests c)
      /\ (forall p e, In (Reject p e) effs ->
                      e = "Client disconnected" /\ e <> "Connection closed")
      /\ (forall code random timer p e,
             In (Reject p e) (snd (on_close c code random timer)) ->
             e = "Connection closed")
      /\ (forall state, ws c = Some state ->
                        exists before, effs = (before ++ [WsClose (Some 1000)])%list)
      /\ (ws c = None -> forall code, ~ In (WsClose code) effs)
      /\ A2gClientApi.isConnected c1 = false)
  /\ (forall (c : client) (code : Z) (random : Q) (timer : nat),
         isReconnecting c = false -> (reconnectAttempt c < 5)%nat ->
         code <> 1000 -> autoReconnect (config c) <> Some false ->
         exists delay,
           reconnect_delays (snd (on_close (fst (disconnect c)) code random timer))
           = [delay])
  /\ (let w := mkWorld (mkClient "wss://engine.example" "did:aeon:a"
                          (mkConfig None None None None None)
                          (Some OPEN) [("r1", mkPending 1 11)] 0 false [])
                       [(11%nat, RequestTimeout "r1" 5000 1)] [] in
      let lost := run w (on_close (the_client w) 1006 (1 # 2) 12) in
      let after := run lost (disconnect (the_client lost)) in
      snd (disconnect (the_client lost)) = []
      /\ armed after = [(12%nat, ReconnectTimer)]
      /\ snd (on_reconnect_timer Signer.sign (the_client after) 3 13 (mkEnv 2000 "n2"))
         = [NewWebSocket "wss://engine.example" [];
            SetTimeout 13 (ConnectionTimeout 3) (inject_Z 10000)]).
Proof.
  split; [|split].
  - intros c c1 effs. subst c1 effs. unfold disconnect. cbn [fst snd].
    destruct (reject_all_spec (pendingRequests c) "Client disconnected")
      as (Hall & Hlen & Hid & _).
    split; [reflexivity|]. split; [|split; [|split; [|split; [|split; [|split]]]]].
    + intros id p Hin. destruct (Hall id p Hin) as [H1 H2].
      split; apply in_or_app; left; assumption.
    + rewrite filter_app, List.length_app, Hlen.
      destruct (ws c); simpl; lia.
    + intros p e Hin. apply in_app_or in Hin. destruct Hin as [Hin|Hin].
      * rewrite (Hid p e Hin). split; [reflexivity | discriminate].
      * destruct (ws c); simpl in Hin; intuition discriminate.
    + intros code random timer p e. unfold on_close.
      destruct (reject_all_spec (pendingRequests c) "Connection closed")
        as (_ & _ & Hid' & _).
      destruct (negb (code =? 1000) && _).
      * unfold scheduleReconnect.
        destruct (isReconnecting _ || _); cbn [fst snd];
          intros [E|Hin]; try discriminate;
          apply in_app_or in Hin; destruct Hin as [Hin|Hin]; eauto;
          simpl in Hin; intuition discriminate.
      * cbn [fst snd]. intros [E|Hin]; try discriminate.
        apply in_app_or in Hin; destruct Hin as [Hin|Hin]; eauto.
        contradiction.
    + intros state Hws. rewrite Hws. eauto.
    + intros Hws code Hin. rewrite Hws, app_nil_r in Hin.
      unfold reject_all in Hin. apply in_flat_map in Hin.
      destruct Hin as (x & _ & [E|[E|[]]]); discriminate.
    + destruct (ws c) as [[| | |]|]; reflexivity.
  - intros c code random timer Hidle Hlt Hcode Hauto.
    rewrite (on_close_schedules (fst (disconnect c)) code random timer
               Hidle Hlt Hcode Hauto).
    cbn [snd reconnect_delays].
    rewrite reconnect_delays_app, reconnect_delays_reject_all.
    eexists. reflexivity.
  - cbv zeta. split; [reflexivity|]. split; reflexivity.
Qed.

End DisconnectClaim.

(** A deadline that fires settles its own request and no other: it
    rejects that one promise with the timeout error, removes that one
    entry and leaves every other pending entry as it was. A response
    that arrives for the request after its deadline is dropped without
    any effect. *)
Theorem request_timeout_settles_only_its_request :
  forall (c : A2gClient.client) (requestId : string) (timeoutMs : Z) (p : nat),
    NoDup (map fst (A2gClient.pendingRequests c)) ->
    let expired := A2gClient.on_request_timeout c requestId timeoutMs p in
    snd expired
    = [A2gClient.Reject p ("A2G request timeout after "
                           ++ Number_toString timeoutMs ++ "ms")]
    /\ A2gClient.Map_get (A2gClient.pendingRequests (fst expired)) requestId = None
    /\ (forall other,
           other <> requestId ->
           A2gClient.Map_get (A2gClient.pendingRequests (fst expired)) other
           = A2gClient.Map_get (A2gClient.pendingRequests c) other)
    /\ (forall response,
           Get (A2gClient.spread response) "id" = VStr requestId ->
           A2gClient.on_message (fst expired) (Some response) = (fst expired, [])).
Proof.
  intros c requestId timeoutMs p Hnd expired. subst expired.
  unfold A2gClient.on_request_timeout.
  cbn [fst snd A2gClient.pendingRequests A2gClient.set_pendingRequests].
  split; [reflexivity|].
  assert (Hgone : A2gClient.Map_get
                    (A2gClient.Map_delete (A2gClient.pendingRequests c) requestId)
                    requestId = None)
    by (apply Map_get_delete; exact Hnd).
  split; [exact Hgone|]. split.
  - intros other Hne. apply Map_get_delete_other. exact Hne.
  - intros response Hid. apply (on_message_miss _ response requestId Hid).
    exact Hgone.
Qed.

Lemma request_timeout_settles_only_its_request_witness :
  let c := A2gClient.mkClient "wss://engine.example" "did:aeon:a"
             (A2gClient.mkConfig None None None None None) (Some A2gClient.OPEN)
             [("r1", A2gClient.mkPending 1 11); ("r2", A2gClient.mkPending 2 12)]
             0 false [] in
  A2gClient.Map_get
    (A2gClient.pendingRequests (fst (A2gClient.on_request_timeout c "r1" 5000 1)))
    "r2"
  = A2gClient.Map_get (A2gClient.pendingRequests c) "r2".
Proof.
  intros c.
  destruct (request_timeout_settles_only_its_request c "r1" 5000 1
              ltac:(repeat constructor; simpl; intuition discriminate))
    as (_ & _ & Hother & _).
  apply Hother. discriminate.
Defined.

(** [getIntentId] returns, for the context object given to the latest
    [requestIntent] that named it, the intent id drawn by that call;
    the ids remembered for other context objects are untouched, and a
    request without context remembers nothing. *)
Theorem getIntentId_after_requestIntent :
  forall (Signer_sign : string -> message -> option SignOptions -> Env -> Signature)
         (c : A2gClient.client) (tool : string) (args : list (string * value))
         (ids : A2gClient.RequestIds) (env : Env) (context : nat),
    let c1 := fst (A2gClient.requestIntent Signer_sign c tool args (Some context)
                                           ids env) in
    let c2 := fst (A2gClient.requestIntent Signer_sign c tool args None ids env) in
    A2gClientApi.getIntentId c1 context = Some (A2gClient.intentId ids)
    /\ (forall other, other <> context ->
                      A2gClientApi.getIntentId c1 other
                      = A2gClientApi.getIntentId c other)
    /\ (forall any, A2gClientApi.getIntentId c2 any = A2gClientApi.getIntentId c any)
    /\ (forall any, A2gClientApi.getIntentId
                      (A2gClient.new (A2gClient.url c) (A2gClient.agentDid c)
                                     (A2gClient.config c)) any = None).
Proof.
  intros Signer_sign c tool args ids env context c1 c2. subst c1 c2.
  unfold A2gClientApi.getIntentId, A2gClient.requestIntent,
    A2gClient.register_and_send, A2gClient.remember_intent.
  cbn [fst A2gClient.intentIdMap A2gClient.set_pendingRequests
       A2gClient.set_intentIdMap].
  split; [|split; [|split]].
  - cbn [A2gClientApi.lookup_object]. rewrite Nat.eqb_refl. reflexivity.
  - intros other Hne. cbn [A2gClientApi.lookup_object].
    destruct (Nat.eqb_spec context other) as [E|_]; [congruence|].
    apply lookup_object_filter. exact Hne.
  - intros any. reflexivity.
  - intros any. reflexivity.
Qed.

(** [reportOutcome] sends one message when the socket is open and does
    nothing at all otherwise: no error, no connection attempt, nothing
    queued. It never touches the client's state. A missing or zero
    duration is reported as 0, and a report without result and error
    carries neither field on the wire. *)
Theorem reportOutcome_only_when_open :
  forall (c : A2gClient.client) (intentId : string)
         (status : A2gClientApi.ReportStatus) (result : value)
         (error : option string) (durationMs : option Z) (id : string),
    let sent := A2gClientApi.reportOutcome c intentId status result error
                                           durationMs id in
    fst sent = c
    /\ (A2gClient.ws c <> Some A2gClient.OPEN -> snd sent = [])
    /\ (A2gClient.ws c = Some A2gClient.OPEN ->
        exists data, snd sent = [A2gClient.WsSend data])
    /\ (A2gClient.ws c = Some A2gClient.OPEN ->
        result = VUndefined -> error = None ->
        durationMs = None \/ durationMs = Some 0 ->
        snd sent
        = [A2gClient.WsSend
             (template
                (JSON_stringify
                   (VObj [("jsonrpc", VStr "2.0"); ("method", VStr "a2g/report");
                          ("params",
                           VObj [("agent_did", VStr (A2gClient.agentDid c));
                                 ("intent_id", VStr intentId);
                                 ("status", VStr (A2gClientApi.status_text status));
                                 ("metrics", VObj [("duration_ms", VNum 0)])]);
                          ("id", VStr id)])
                   None))]).
Proof.
  intros c intentId status result error durationMs id sent. subst sent.
  unfold A2gClientApi.reportOutcome.
  split; [destruct (A2gClient.ws c) as [[| | |]|]; reflexivity|].
  split; [|split].
  - intros Hws. destruct (A2gClient.ws c) as [[| | |]|]; try reflexivity.
    congruence.
  - intros ->. eexists. reflexivity.
  - intros -> -> -> Hd.
    assert (E : or_number durationMs 0 = 0) by (destruct Hd as [->| ->]; reflexivity).
    unfold A2gClientApi.report_message. rewrite E. reflexivity.
Qed.

(** The handshake headers of [connect] prove the agent's identity: with
    a signing key configured, [X-Agent-DID] is the agent's DID and
    [X-Timestamp], [X-Nonce] and [X-Signature] form a signature that
    [Signer.verify] accepts for that DID under the same key, for as
    long as the age limit allows. Without a signing key (or with an
    empty one) none of the four is sent. [Authorization] is sent
    exactly when the API key is a non-empty string. *)
Theorem connect_headers_prove_identity :
  forall (c : A2gClient.client) (connect_promise timer : nat)
         (signedAt now : Z) (uuid : string) (maxAgeMs : option Z) (env : Env),
    uuid <> EmptyString ->
    now - signedAt <= match maxAgeMs with Some n => n | None => 300000 end ->
    let headers :=
      connect_headers
        (snd (A2gClient.connect Signer.sign c connect_promise timer
                                (mkEnv signedAt uuid))) in
    (forall key,
        A2gClient.signingKey (A2gClient.config c) = Some key ->
        key <> EmptyString ->
        A2gClient.Map_get headers "X-Agent-DID" = Some (A2gClient.agentDid c)
        /\ exists ts n h,
             A2gClient.Map_get headers "X-Timestamp" = Some ts
             /\ A2gClient.Map_get headers "X-Nonce" = Some n
             /\ A2gClient.Map_get headers "X-Signature" = Some h
             /\ Signer.verify key (mkSignature ts n h)
                              (MsgString (A2gClient.agentDid c)) maxAgeMs now env
                = true)
    /\ (truthy_string (A2gClient.signingKey (A2gClient.config c)) = false ->
        A2gClient.Map_get headers "X-Agent-DID" = None
        /\ A2gClient.Map_get headers "X-Timestamp" = None
        /\ A2gClient.Map_get headers "X-Nonce" = None
        /\ A2gClient.Map_get headers "X-Signature" = None)
    /\ A2gClient.Map_get headers "Authorization"
       = match A2gClient.apiKey (A2gClient.config c) with
         | Some k => if (k =? EmptyString)%string then None else Some ("Bearer " ++ k)
         | None => None
         end.
Proof.
  intros c connect_promise timer signedAt now uuid maxAgeMs env Hu Hage headers.
  subst headers. unfold A2gClient.connect. cbn [snd connect_headers].
  split; [|split].
  - intros key Hkey Hne. rewrite Hkey.
    destruct (truthy_string_key key Hne) as [-> ->].
    pose proof (verify_sign_generic Signer.stableStringify key
                  (MsgString (A2gClient.agentDid c)) maxAgeMs signedAt now uuid env
                  Hu Hage) as Hv.
    set (sig := Signer.sign key (MsgString (A2gClient.agentDid c)) None
                            (mkEnv signedAt uuid)) in *.
    destruct (truthy_string (A2gClient.apiKey (A2gClient.config c)));
      (split; [reflexivity|]);
      exists (timestamp sig), (nonce sig), (hash sig);
      (split; [reflexivity|]); (split; [reflexivity|]); (split; [reflexivity|]);
      exact Hv.
  - intros Hnone. rewrite Hnone.
    destruct (truthy_string (A2gClient.apiKey (A2gClient.config c)));
      repeat split; reflexivity.
  - destruct (A2gClient.signingKey (A2gClient.config c)) as [k|];
      destruct (A2gClient.apiKey (A2gClient.config c)) as [a|]; cbn [truthy_string];
      try destruct (String.eqb_spec k EmptyString);
      try destruct (String.eqb_spec a EmptyString);
      subst; cbn [negb or_string String.eqb]; try reflexivity;
      rewrite ?(proj2 (String.eqb_neq _ _)) by assumption; reflexivity.
Qed.

Lemma connect_headers_prove_identity_witness :
  let c := A2gClient.mkClient "wss://engine.example" "did:aeon:a"
             (A2gClient.mkConfig (Some "token") None None None None)
             None [] 0 false [] in
  A2gClient.Map_get
    (connect_headers (snd (A2gClient.connect Signer.sign c 1 2 (mkEnv 1000 "n1"))))
    "Authorization"
  = match A2gClient.apiKey (A2gClient.config c) with
    | Some k => if (k =? EmptyString)%string then None else Some ("Bearer " ++ k)
    | None => None
    end.
Proof.
  intros c.
  apply (proj2 (proj2 (connect_headers_prove_identity
                         c 1 2 1000 1005 "n1" None (mkEnv 1005 "n2")
                         ltac:(discriminate) ltac:(simpl; lia)))).
Defined.

(* ================================================================== *)
(** * Where the source and the compiled build agree                    *)
(* ================================================================== *)

Section FlatPayloads.

Lemma SerializeJSONProperty_object_free (v : value) :
  object_free v ->
  forall pl, SerializeJSONProperty pl v = SerializeJSONProperty None v.
Proof.
  induction 1 as [| | | | |xs _ IH]; intros pl; try reflexivity.
  cbn [SerializeJSONProperty]. do 4 f_equal.
  apply map_ext_in. intros x Hx. rewrite (IH x Hx pl). reflexivity.
Qed.

Lemma sortKeys_object_free (v : value) :
  object_free v -> SignerDist.sortKeys v = v.
Proof.
  induction 1 as [| | | | |xs _ IH]; try reflexivity.
  cbn [SignerDist.sortKeys]. f_equal.
  rewrite <- (map_id xs) at 2. apply map_ext_in. exact IH.
Qed.

Lemma fold_property_list_NoDup (l : list string) :
  forall acc,
    NoDup (acc ++ l)%list ->
    fold_left (fun acc k => if existsb (String.eqb k) acc then acc
                            else (acc ++ [k])%list) l acc
    = (acc ++ l)%list.
Proof.
  induction l as [|k l IH]; intros acc Hnd; simpl.
  - rewrite app_nil_r. reflexivity.
  - assert (Hk : existsb (String.eqb k) acc = false).
    { apply not_true_is_false. intros H. apply existsb_exists in H.
      destruct H as (x & Hx & E). apply String.eqb_eq in E. subst x.
      apply NoDup_remove_2 in Hnd. apply Hnd. apply in_or_app. left. exact Hx. }
    rewrite Hk, IH; rewrite <- app_assoc; [reflexivity | exact Hnd].
Qed.

Lemma property_list_NoDup (l : list string) :
  NoDup l -> property_list l = l.
Proof. intros H. apply (fold_property_list_NoDup l [] H). Qed.

Lemma stableStringify_agree_flat_object (ps : list (string * value)) :
  plain_keys ps -> (forall k v, In (k, v) ps -> object_free v) ->
  Signer.stableStringify (VObj ps) = SignerDist.stableStringify (VObj ps).
Proof.
  intros Hplain Hfree.
  unfold SignerDist.stableStringify. rewrite (sortKeys_plain_object ps Hplain).
  unfold Signer.stableStringify, JSON_stringify, Object_keys. cbn [option_map].
  destruct Hplain as [Hnd _].
  rewrite property_list_NoDup
    by (eapply Permutation_NoDup; [apply Array_sort_is_Permutation | exact Hnd]).
  set (K := Array_sort (map fst ps)).
  set (sorted := map (fun kv => (fst kv, SignerDist.sortKeys (snd kv))) ps).
  set (T := map (fun k => (k, Get sorted k)) K).
  assert (HT : map fst T = K).
  { unfold T. rewrite map_map. apply map_id. }
  cbn [SerializeJSONProperty]. rewrite HT.
  do 4 f_equal. apply flat_map_ext_in. intros P HP.
  assert (HPk : In P (map fst ps)) by (apply Array_sort_In; exact HP).
  apply get_Some_iff_key in HPk. destruct HPk as (v & Hv).
  pose proof (Hfree P v (get_In P v ps Hv)) as Hfv.
  rewrite !get_map_values, Hv. unfold T.
  rewrite (get_tabulate (fun k => Get sorted k) P K HP).
  cbn [option_map].
  rewrite (SerializeJSONProperty_object_free v Hfv (Some K)).
  unfold Get, sorted. rewrite get_map_values, Hv. cbn [option_map].
  rewrite (sortKeys_object_free v Hfv). reflexivity.
Qed.

Lemma messageStr_agree_flat (m : message) :
  flat_message m ->
  SignerCore.messageStr Signer.stableStringify m
  = SignerCore.messageStr SignerDist.stableStringify m.
Proof.
  destruct m as [s|ps|items]; cbn [flat_message]; intros H.
  - reflexivity.
  - cbn [SignerCore.messageStr message_value]. f_equal.
    destruct H as [Hplain Hfree].
    apply stableStringify_agree_flat_object; assumption.
  - cbn [SignerCore.messageStr message_value]. f_equal.
    unfold Signer.stableStringify, SignerDist.stableStringify, JSON_stringify.
    rewrite (sortKeys_object_free (VArr items) (FreeArr items H)).
    apply SerializeJSONProperty_object_free. constructor. exact H.
Qed.

End FlatPayloads.

(** The source and the compiled build differ only below the first
    level: for a string, an array without objects, or an object with
    ordinary keys (no array index, no [__proto__]) whose values hold no
    object, the two builds compute the same signature and the same
    [Signer.hash], so each build verifies what the other signs. *)
Theorem builds_agree_on_flat_messages :
  forall (key : string) (m : message) (options : option SignOptions) (env : Env),
    flat_message m ->
    Signer.sign key m options env = SignerDist.sign key m options env
    /\ Signer.hash_message key m = SignerDist.hash_message key m
    /\ (forall sig maxAgeMs now,
           Signer.verify key sig m maxAgeMs now env
           = SignerDist.verify key sig m maxAgeMs now env).
Proof.
  intros key m options env Hflat.
  pose proof (messageStr_agree_flat m Hflat) as E.
  split; [|split].
  - unfold Signer.sign, SignerDist.sign, SignerCore.sign. rewrite E. reflexivity.
  - unfold Signer.hash_message, SignerDist.hash_message, SignerCore.hash_message.
    rewrite E. reflexivity.
  - intros sig maxAgeMs now.
    unfold Signer.verify, SignerDist.verify, SignerCore.verify, SignerCore.sign.
    rewrite E. reflexivity.
Qed.

Lemma builds_agree_on_flat_messages_witness :
  let m := MsgObject [("tool", VStr "read"); ("agent_did", VStr "did:aeon:a");
                      ("tags", VArr [VNum 1; VNull])] in
  Signer.sign "k" m None (mkEnv 1000 "n1") = SignerDist.sign "k" m None (mkEnv 1000 "n1").
Proof.
  intros m.
  apply (proj1 (builds_agree_on_flat_messages "k" m None (mkEnv 1000 "n1")
                  ltac:(split;
                        [plain_keys_concrete
                        | intros k v [E|[E|[E|[]]]]; injection E as <- <-;
                          repeat constructor;
                          intros x [<-|[<-|[]]]; constructor]))).
Defined.

(* ================================================================== *)
(** * The event loop: every request promise is settled at most once    *)
(* ================================================================== *)

Section EventLoop.

Import A2gClient.














Variable Signer_sign : string -> message -> option SignOptions -> Env -> Signature.





End EventLoop.


